(** * Stash recovery controller and pod-template utilities

    A shallow embedding of the recovery watcher of the Stash controller
    (package [controller]: [initRecoveryWatcher], [processNextRecovery],
    [runRecoveryInjector], [runRecoveryJob]) and of the helpers of package
    [util] it relies on ([CreateSidecarContainer], [MergeLocalVolume],
    [ResticEqual], [RecoveryEqual], [CreateRecoveryJob], [WorkloadExists]).

    Pure helpers are Rocq functions.  Code that talks to the API server, the
    event recorder, the work queue or the logger is written in a small
    operation monad [Prog]: a program is a finite tree of operations, each
    answered by the environment.  A handler interprets the operations over a
    world of its choice, and [exec] returns the result, the final world and
    the list of calls that were issued together with their answers. *)

From stdpp Require Import base numbers option list strings gmap.
From Stdlib Require Import ZArith Lia.

Local Open Scope Z_scope.
Local Open Scope string_scope.
Local Open Scope list_scope.

(** ** Errors *)

(** [k8s.io/apimachinery/pkg/api/errors] classifies an error by the reason of
    its status.  An error made by [fmt.Errorf] or [errors.New] carries no
    status and is read as [StatusReasonUnknown]. *)
Inductive StatusReason :=
| StatusReasonUnknown
| StatusReasonNotFound
| StatusReasonAlreadyExists
| StatusReasonConflict
| StatusReasonInvalid
| StatusReasonServerTimeout.

Record error := mkError {
  error_Reason : StatusReason;
  Error : string            (* err.Error() *)
}.

#[global] Instance StatusReason_eq_dec : EqDecision StatusReason.
Proof. solve_decision. Defined.
#[global] Instance error_eq_dec : EqDecision error.
Proof. solve_decision. Defined.

(** kerr.IsAlreadyExists *)
Definition IsAlreadyExists (err : error) : bool :=
  match error_Reason err with
  | StatusReasonAlreadyExists => true
  | _ => false
  end.

(** kerr.IsNotFound *)
Definition IsNotFound (err : error) : bool :=
  match error_Reason err with
  | StatusReasonNotFound => true
  | _ => false
  end.

(** fmt.Errorf: the formatted text, with no status. *)
Definition Errorf (msg : string) : error := mkError StatusReasonUnknown msg.

(** ** resource.Quantity *)

(** The struct of [k8s.io/apimachinery/pkg/api/resource]: an int64 amount
    [i] (value and decimal scale), an arbitrary-precision amount [d] used
    when the int64 form does not fit (unscaled value and number of decimal
    digits, [None] for a nil [*inf.Dec]), the cached canonical string [s] and
    the format the quantity was written in. *)
Inductive Format := DecimalExponent | BinarySI | DecimalSI.

Record Quantity := mkQuantity {
  Quantity_i_value : Z;
  Quantity_i_scale : Z;
  Quantity_d : option (Z * Z);
  Quantity_s : string;
  Quantity_Format : Format
}.

#[global] Instance Format_eq_dec : EqDecision Format.
Proof. solve_decision. Defined.
#[global] Instance Quantity_eq_dec : EqDecision Quantity.
Proof. solve_decision. Defined.

(** The number a quantity stands for is [m * 10^e]; [Quantity_amount] gives
    [(m, e)]. *)
Definition Quantity_amount (q : Quantity) : Z * Z :=
  match Quantity_d q with
  | Some (unscaled, digits) => (unscaled, - digits)
  | None => (Quantity_i_value q, Quantity_i_scale q)
  end.

(** Quantity.Cmp: -1, 0 or 1 as the receiver is numerically less than, equal
    to or greater than [y].  Both amounts are brought to the smaller of the
    two exponents and compared as integers. *)
Definition Quantity_Cmp (x y : Quantity) : Z :=
  let '(mx, ex) := Quantity_amount x in
  let '(my, ey) := Quantity_amount y in
  let e := Z.min ex ey in
  match Z.compare (mx * 10 ^ (ex - e)) (my * 10 ^ (ey - e)) with
  | Lt => -1
  | Eq => 0
  | Gt => 1
  end.

(** ** core/v1 types, restricted to the fields the code reads or writes *)

Record EmptyDirVolumeSource := mkEmptyDirVolumeSource {
  EmptyDir_Medium : string;
  EmptyDir_SizeLimit : option Quantity
}.

Record PersistentVolumeClaimVolumeSource := mkPersistentVolumeClaimVolumeSource {
  PVC_ClaimName : string;
  PVC_ReadOnly : bool
}.

(** core.VolumeSource is a struct of optional members; three of them stand
    for the rest. *)
Record VolumeSource := mkVolumeSource {
  VolumeSource_HostPath : option string;
  VolumeSource_EmptyDir : option EmptyDirVolumeSource;
  VolumeSource_PersistentVolumeClaim : option PersistentVolumeClaimVolumeSource
}.

Record Volume := mkVolume {
  Volume_Name : string;
  Volume_VolumeSource : VolumeSource
}.

Record VolumeMount := mkVolumeMount {
  VolumeMount_Name : string;
  VolumeMount_ReadOnly : bool;
  VolumeMount_MountPath : string;
  VolumeMount_SubPath : string
}.

Record ResourceRequirements := mkResourceRequirements {
  Resources_Limits : gmap string Quantity;
  Resources_Requests : gmap string Quantity
}.

Inductive PullPolicy := PullAlways | PullNever | PullIfNotPresent.
Inductive RestartPolicy := RestartPolicyAlways | RestartPolicyOnFailure | RestartPolicyNever.

Record EnvVar := mkEnvVar {
  EnvVar_Name : string;
  EnvVar_FieldPath : string      (* ValueFrom.FieldRef.FieldPath *)
}.

Record Container := mkContainer {
  Container_Name : string;
  Container_Image : string;
  Container_ImagePullPolicy : option PullPolicy;
  Container_Args : list string;
  Container_Env : list EnvVar;
  Container_Resources : ResourceRequirements;
  Container_VolumeMounts : list VolumeMount
}.

#[global] Instance EmptyDirVolumeSource_eq_dec : EqDecision EmptyDirVolumeSource.
Proof. solve_decision. Defined.
#[global] Instance PersistentVolumeClaimVolumeSource_eq_dec :
  EqDecision PersistentVolumeClaimVolumeSource.
Proof. solve_decision. Defined.
#[global] Instance VolumeSource_eq_dec : EqDecision VolumeSource.
Proof. solve_decision. Defined.
#[global] Instance Volume_eq_dec : EqDecision Volume.
Proof. solve_decision. Defined.
#[global] Instance VolumeMount_eq_dec : EqDecision VolumeMount.
Proof. solve_decision. Defined.
#[global] Instance ResourceRequirements_eq_dec : EqDecision ResourceRequirements.
Proof. solve_decision. Defined.
#[global] Instance PullPolicy_eq_dec : EqDecision PullPolicy.
Proof. solve_decision. Defined.
#[global] Instance RestartPolicy_eq_dec : EqDecision RestartPolicy.
Proof. solve_decision. Defined.
#[global] Instance EnvVar_eq_dec : EqDecision EnvVar.
Proof. solve_decision. Defined.
#[global] Instance Container_eq_dec : EqDecision Container.
Proof. solve_decision. Defined.

(** ** metav1 and batch/v1 *)

Record ObjectMeta := mkObjectMeta {
  ObjectMeta_Name : string;
  ObjectMeta_Namespace : string;
  ObjectMeta_UID : string;
  ObjectMeta_ResourceVersion : string;
  ObjectMeta_Labels : gmap string string;
  ObjectMeta_Annotations : gmap string string   (* a nil map reads as the empty one *)
}.

Record OwnerReference := mkOwnerReference {
  OwnerReference_APIVersion : string;
  OwnerReference_Kind : string;
  OwnerReference_Name : string;
  OwnerReference_UID : string
}.

Record ObjectReference := mkObjectReference {
  ObjectReference_Kind : string;
  ObjectReference_Namespace : string;
  ObjectReference_Name : string;
  ObjectReference_UID : string
}.

Record LabelSelector := mkLabelSelector {
  LabelSelector_MatchLabels : gmap string string
}.

(** job.Spec.Template.Spec *)
Record PodSpec := mkPodSpec {
  PodSpec_Containers : list Container;
  PodSpec_RestartPolicy : RestartPolicy;
  PodSpec_Volumes : list Volume;
  PodSpec_NodeName : string;
  PodSpec_ServiceAccountName : string
}.

Record Job := mkJob {
  Job_Name : string;
  Job_Namespace : string;
  Job_OwnerReferences : list OwnerReference;
  Job_PodSpec : PodSpec
}.

#[global] Instance ObjectMeta_eq_dec : EqDecision ObjectMeta.
Proof. solve_decision. Defined.
#[global] Instance OwnerReference_eq_dec : EqDecision OwnerReference.
Proof. solve_decision. Defined.
#[global] Instance ObjectReference_eq_dec : EqDecision ObjectReference.
Proof. solve_decision. Defined.
#[global] Instance LabelSelector_eq_dec : EqDecision LabelSelector.
Proof. solve_decision. Defined.
#[global] Instance PodSpec_eq_dec : EqDecision PodSpec.
Proof. solve_decision. Defined.
#[global] Instance Job_eq_dec : EqDecision Job.
Proof. solve_decision. Defined.

(** ** apis/stash/v1alpha1 *)

Record RetentionPolicy := mkRetentionPolicy {
  RetentionPolicy_KeepLast : Z;
  RetentionPolicy_Prune : bool
}.

Record FileGroup := mkFileGroup {
  FileGroup_Path : string;
  FileGroup_Tags : list string;
  FileGroup_RetentionPolicy : RetentionPolicy
}.

Record LocalSpec := mkLocalSpec {
  LocalSpec_VolumeSource : VolumeSource;
  LocalSpec_Path : string
}.

Record S3Spec := mkS3Spec {
  S3Spec_Endpoint : string;
  S3Spec_Bucket : string;
  S3Spec_Prefix : string
}.

(** The backend descriptor: a secret reference and one member per kind of
    storage, [Local] and one remote kind here. *)
Record Backend := mkBackend {
  Backend_StorageSecretName : string;
  Backend_Local : option LocalSpec;
  Backend_S3 : option S3Spec
}.

Record ResticSpec := mkResticSpec {
  ResticSpec_Selector : LabelSelector;
  ResticSpec_FileGroups : list FileGroup;
  ResticSpec_Backend : Backend;
  ResticSpec_Schedule : string;
  ResticSpec_VolumeMounts : list VolumeMount;
  ResticSpec_Resources : ResourceRequirements
}.

Record ResticStatus := mkResticStatus {
  ResticStatus_BackupCount : Z;
  ResticStatus_LastBackupTime : string
}.

Record Restic := mkRestic {
  Restic_ObjectMeta : ObjectMeta;
  Restic_Spec : ResticSpec;
  Restic_Status : ResticStatus
}.

Inductive RecoveryPhase :=
| RecoveryPhaseEmpty          (* the zero value: no phase recorded yet *)
| RecoveryPending
| RecoveryRunning
| RecoverySucceeded
| RecoveryFailed
| RecoveryUnknown.

Record RecoverySpec := mkRecoverySpec {
  RecoverySpec_Restic : string;
  RecoverySpec_NodeName : string;
  RecoverySpec_Volumes : list Volume
}.

Record RecoveryStatus := mkRecoveryStatus {
  RecoveryStatus_Phase : RecoveryPhase
}.

Record Recovery := mkRecovery {
  Recovery_ObjectMeta : ObjectMeta;
  Recovery_Spec : RecoverySpec;
  Recovery_Status : RecoveryStatus
}.

Record LocalTypedReference := mkLocalTypedReference {
  LocalTypedReference_Kind : string;
  LocalTypedReference_Name : string
}.

#[global] Instance RetentionPolicy_eq_dec : EqDecision RetentionPolicy.
Proof. solve_decision. Defined.
#[global] Instance FileGroup_eq_dec : EqDecision FileGroup.
Proof. solve_decision. Defined.
#[global] Instance LocalSpec_eq_dec : EqDecision LocalSpec.
Proof. solve_decision. Defined.
#[global] Instance S3Spec_eq_dec : EqDecision S3Spec.
Proof. solve_decision. Defined.
#[global] Instance Backend_eq_dec : EqDecision Backend.
Proof. solve_decision. Defined.
#[global] Instance ResticSpec_eq_dec : EqDecision ResticSpec.
Proof. solve_decision. Defined.
#[global] Instance ResticStatus_eq_dec : EqDecision ResticStatus.
Proof. solve_decision. Defined.
#[global] Instance Restic_eq_dec : EqDecision Restic.
Proof. solve_decision. Defined.
#[global] Instance RecoveryPhase_eq_dec : EqDecision RecoveryPhase.
Proof. solve_decision. Defined.
#[global] Instance RecoverySpec_eq_dec : EqDecision RecoverySpec.
Proof. solve_decision. Defined.
#[global] Instance RecoveryStatus_eq_dec : EqDecision RecoveryStatus.
Proof. solve_decision. Defined.
#[global] Instance Recovery_eq_dec : EqDecision Recovery.
Proof. solve_decision. Defined.
#[global] Instance LocalTypedReference_eq_dec : EqDecision LocalTypedReference.
Proof. solve_decision. Defined.

Definition Recovery_Name (rec : Recovery) : string :=
  ObjectMeta_Name (Recovery_ObjectMeta rec).
Definition Recovery_Namespace (rec : Recovery) : string :=
  ObjectMeta_Namespace (Recovery_ObjectMeta rec).
Definition Recovery_UID (rec : Recovery) : string :=
  ObjectMeta_UID (Recovery_ObjectMeta rec).
Definition Restic_Name (r : Restic) : string :=
  ObjectMeta_Name (Restic_ObjectMeta r).
Definition Restic_Annotations (r : Restic) : gmap string string :=
  ObjectMeta_Annotations (Restic_ObjectMeta r).
Definition Restic_Local (r : Restic) : option LocalSpec :=
  Backend_Local (ResticSpec_Backend (Restic_Spec r)).

(** The declarations of package [apis/stash/v1alpha1] that the code uses by
    name only: constants, the validators, the object reference of a Recovery
    and the canonical form of a workload reference.  They are taken as given;
    every definition below that needs one receives the package as [api]. *)
Record ApiPackage := mkApiPackage {
  VersionTag : string;
  SchemeGroupVersion : string;
  ResourceKindRecovery : string;
  KindDeployment : string;
  KindReplicaSet : string;
  KindReplicationController : string;
  KindStatefulSet : string;
  KindDaemonSet : string;
  Recovery_IsValid : Recovery -> option error;
  Restic_IsValid : Restic -> option error;
  Recovery_ObjectReference : Recovery -> ObjectReference;
  (* the method rewrites the Kind of its receiver and may fail *)
  Canonicalize : LocalTypedReference -> LocalTypedReference * option error
}.

(** * Package util *)

Definition StashContainer : string := "stash".
Definition LocalVolumeName : string := "stash-local".
Definition ScratchDirVolumeName : string := "stash-scratchdir".
Definition PodinfoVolumeName : string := "stash-podinfo".
Definition StashInitializerName : string := "stash.appscode.com".

(** docker.ImageOperator *)
Definition ImageOperator : string := "appscode/stash".

(** GetString: a nil map and a missing key both give the empty string. *)
Definition GetString (m : gmap string string) (key : string) : string :=
  default "" (m !! key).

(** Assignments to one field of a container, [sidecar.F = v] and
    [sidecar.F = append(sidecar.F, ...)]. *)
Definition Container_setImagePullPolicy (c : Container) (p : option PullPolicy)
    : Container :=
  {| Container_Name := Container_Name c;
     Container_Image := Container_Image c;
     Container_ImagePullPolicy := p;
     Container_Args := Container_Args c;
     Container_Env := Container_Env c;
     Container_Resources := Container_Resources c;
     Container_VolumeMounts := Container_VolumeMounts c |}.

Definition Container_appendArgs (c : Container) (args : list string) : Container :=
  {| Container_Name := Container_Name c;
     Container_Image := Container_Image c;
     Container_ImagePullPolicy := Container_ImagePullPolicy c;
     Container_Args := Container_Args c ++ args;
     Container_Env := Container_Env c;
     Container_Resources := Container_Resources c;
     Container_VolumeMounts := Container_VolumeMounts c |}.

Definition Container_appendVolumeMounts (c : Container) (ms : list VolumeMount)
    : Container :=
  {| Container_Name := Container_Name c;
     Container_Image := Container_Image c;
     Container_ImagePullPolicy := Container_ImagePullPolicy c;
     Container_Args := Container_Args c;
     Container_Env := Container_Env c;
     Container_Resources := Container_Resources c;
     Container_VolumeMounts := Container_VolumeMounts c ++ ms |}.

(** ** CreateSidecarContainer *)

Definition CreateSidecarContainer (api : ApiPackage)
    (r : Restic) (tag : string) (workload : LocalTypedReference) : Container :=
  let tag :=
    match Restic_Annotations r !! VersionTag api with
    | Some v => v
    | None => tag
    end in
  let sidecar := {|
    Container_Name := StashContainer;
    Container_Image := ImageOperator +:+ ":" +:+ tag;
    Container_ImagePullPolicy := Some PullIfNotPresent;
    Container_Args := [
      "schedule";
      "--restic-name=" +:+ Restic_Name r;
      "--workload-kind=" +:+ LocalTypedReference_Kind workload;
      "--workload-name=" +:+ LocalTypedReference_Name workload
    ];
    Container_Env := [
      {| EnvVar_Name := "NODE_NAME"; EnvVar_FieldPath := "spec.nodeName" |};
      {| EnvVar_Name := "POD_NAME"; EnvVar_FieldPath := "metadata.name" |}
    ];
    Container_Resources := ResticSpec_Resources (Restic_Spec r);
    Container_VolumeMounts := [
      {| VolumeMount_Name := ScratchDirVolumeName; VolumeMount_ReadOnly := false;
         VolumeMount_MountPath := "/tmp"; VolumeMount_SubPath := "" |};
      {| VolumeMount_Name := PodinfoVolumeName; VolumeMount_ReadOnly := false;
         VolumeMount_MountPath := "/etc/stash"; VolumeMount_SubPath := "" |}
    ]
  |} in
  let sidecar :=
    if decide (tag = "canary") then
      Container_appendArgs
        (Container_setImagePullPolicy sidecar (Some PullAlways)) ["--v=5"]
    else
      Container_appendArgs sidecar ["--v=3"] in
  (* for _, srcVol := range r.Spec.VolumeMounts { append ... } *)
  let sidecar :=
    fold_left
      (fun sidecar srcVol =>
         Container_appendVolumeMounts sidecar
           [ {| VolumeMount_Name := VolumeMount_Name srcVol;
                VolumeMount_ReadOnly := true;
                VolumeMount_MountPath := VolumeMount_MountPath srcVol;
                VolumeMount_SubPath := VolumeMount_SubPath srcVol |} ])
      (ResticSpec_VolumeMounts (Restic_Spec r))
      sidecar in
  match Restic_Local r with
  | Some l =>
      Container_appendVolumeMounts sidecar
        [ {| VolumeMount_Name := LocalVolumeName;
             VolumeMount_ReadOnly := false;
             VolumeMount_MountPath := LocalSpec_Path l;
             VolumeMount_SubPath := "" |} ]
  | None => sidecar
  end.

(** ** Volumes *)

(** The position of the first volume called [name], as the loops
    [for i, vol := range volumes { if vol.Name == name { ... } }] find it. *)
Definition indexOfVolume (name : string) (volumes : list Volume) : option nat :=
  fst <$> list_find (fun vol => Volume_Name vol = name) volumes.

(** core_util.UpsertVolume of [github.com/appscode/kutil/core/v1]: the first
    volume with the name of [nv] is overwritten in place, and [nv] is
    appended when there is none. *)
Definition UpsertVolume (volumes : list Volume) (nv : Volume) : list Volume :=
  match indexOfVolume (Volume_Name nv) volumes with
  | Some i => <[i := nv]> volumes
  | None => volumes ++ [nv]
  end.

Definition UpsertScratchVolume (volumes : list Volume) : list Volume :=
  UpsertVolume volumes
    {| Volume_Name := ScratchDirVolumeName;
       Volume_VolumeSource :=
         {| VolumeSource_HostPath := None;
            VolumeSource_EmptyDir :=
              Some {| EmptyDir_Medium := ""; EmptyDir_SizeLimit := None |};
            VolumeSource_PersistentVolumeClaim := None |} |}.

(** MergeLocalVolume returns the merged slice.  [old] may be nil; [new] is
    dereferenced without a check, so it is a Restic here.  [oldPos] is [None]
    where the code keeps -1.  The value is the slice that is returned; the
    writes that the code makes into the backing array of its argument are
    not part of it. *)
Definition MergeLocalVolume (volumes : list Volume) (old : option Restic) (new : Restic)
    : list Volume :=
  let oldPos : option nat :=
    match old with
    | Some o =>
        match Restic_Local o with
        | Some _ => indexOfVolume LocalVolumeName volumes
        | None => None
        end
    | None => None
    end in
  match Restic_Local new with
  | Some l =>
      let vol := {| Volume_Name := LocalVolumeName;
                    Volume_VolumeSource := LocalSpec_VolumeSource l |} in
      match oldPos with
      | Some i => <[i := vol]> volumes
      | None => UpsertVolume volumes vol
      end
  | None =>
      match oldPos with
      | Some i => take i volumes ++ drop (S i) volumes
      | None => volumes
      end
  end.

Definition EnsureVolumeDeleted (volumes : list Volume) (name : string) : list Volume :=
  match indexOfVolume name volumes with
  | Some i => take i volumes ++ drop (S i) volumes
  | None => volumes
  end.

(** ** Equality of specs *)

(** [cmp.Equal] walks two values in step and, at every [resource.Quantity],
    asks the comparer it was given instead of descending.  The walk is
    written once for the types above, with the comparer [qeq] as a parameter.
    Two pointers are equal when both are nil or both point to equal values;
    two maps when they have the same keys with equal values. *)
Section CmpEqual.
Variable qeq : Quantity -> Quantity -> bool.

Definition equalOption {A} (eq : A -> A -> bool) (x y : option A) : bool :=
  match x, y with
  | Some a, Some b => eq a b
  | None, None => true
  | _, _ => false
  end.

Definition equalMap {A} (eq : A -> A -> bool) (x y : gmap string A) : bool :=
  bool_decide (dom x = dom y)
  && forallb (fun kv => equalOption eq (Some kv.2) (y !! kv.1)) (map_to_list x).

Fixpoint equalList {A} (eq : A -> A -> bool) (x y : list A) : bool :=
  match x, y with
  | [], [] => true
  | a :: x', b :: y' => eq a b && equalList eq x' y'
  | _, _ => false
  end.

Definition equalEmptyDir (x y : EmptyDirVolumeSource) : bool :=
  bool_decide (EmptyDir_Medium x = EmptyDir_Medium y)
  && equalOption qeq (EmptyDir_SizeLimit x) (EmptyDir_SizeLimit y).

Definition equalVolumeSource (x y : VolumeSource) : bool :=
  bool_decide (VolumeSource_HostPath x = VolumeSource_HostPath y)
  && equalOption equalEmptyDir (VolumeSource_EmptyDir x) (VolumeSource_EmptyDir y)
  && bool_decide (VolumeSource_PersistentVolumeClaim x
                  = VolumeSource_PersistentVolumeClaim y).

Definition equalVolume (x y : Volume) : bool :=
  bool_decide (Volume_Name x = Volume_Name y)
  && equalVolumeSource (Volume_VolumeSource x) (Volume_VolumeSource y).

Definition equalLocalSpec (x y : LocalSpec) : bool :=
  equalVolumeSource (LocalSpec_VolumeSource x) (LocalSpec_VolumeSource y)
  && bool_decide (LocalSpec_Path x = LocalSpec_Path y).

Definition equalBackend (x y : Backend) : bool :=
  bool_decide (Backend_StorageSecretName x = Backend_StorageSecretName y)
  && equalOption equalLocalSpec (Backend_Local x) (Backend_Local y)
  && bool_decide (Backend_S3 x = Backend_S3 y).

Definition equalResources (x y : ResourceRequirements) : bool :=
  equalMap qeq (Resources_Limits x) (Resources_Limits y)
  && equalMap qeq (Resources_Requests x) (Resources_Requests y).

Definition equalResticSpec (x y : ResticSpec) : bool :=
  bool_decide (ResticSpec_Selector x = ResticSpec_Selector y)
  && bool_decide (ResticSpec_FileGroups x = ResticSpec_FileGroups y)
  && equalBackend (ResticSpec_Backend x) (ResticSpec_Backend y)
  && bool_decide (ResticSpec_Schedule x = ResticSpec_Schedule y)
  && bool_decide (ResticSpec_VolumeMounts x = ResticSpec_VolumeMounts y)
  && equalResources (ResticSpec_Resources x) (ResticSpec_Resources y).

Definition equalRecoverySpec (x y : RecoverySpec) : bool :=
  bool_decide (RecoverySpec_Restic x = RecoverySpec_Restic y)
  && bool_decide (RecoverySpec_NodeName x = RecoverySpec_NodeName y)
  && equalList equalVolume (RecoverySpec_Volumes x) (RecoverySpec_Volumes y).
End CmpEqual.

(** The comparer that ResticEqual hands to cmp.Equal. *)
Definition quantityComparer (x y : Quantity) : bool :=
  bool_decide (Quantity_Cmp x y = 0).

Definition ResticEqual (old new : option Restic) : bool :=
  let oldSpec := Restic_Spec <$> old in
  let newSpec := Restic_Spec <$> new in
  equalOption (equalResticSpec quantityComparer) oldSpec newSpec.

(** reflect.DeepEqual has no comparer: every field is compared as it is
    stored, those of a Quantity included, which is equality of the values. *)
Definition DeepEqual {A} `{EqDecision A} (x y : A) : bool := bool_decide (x = y).

Definition RecoveryEqual (old new : option Recovery) : bool :=
  let oldSpec := Recovery_Spec <$> old in
  let newSpec := Recovery_Spec <$> new in
  DeepEqual oldSpec newSpec.

(** ** CreateRecoveryJob *)

Definition CreateRecoveryJob (api : ApiPackage)
    (recovery : Recovery) (restic : Restic) (tag : string) : Job :=
  let scratchMount :=
    {| VolumeMount_Name := ScratchDirVolumeName; VolumeMount_ReadOnly := false;
       VolumeMount_MountPath := "/tmp"; VolumeMount_SubPath := "" |} in
  let scratchVolume :=
    {| Volume_Name := ScratchDirVolumeName;
       Volume_VolumeSource :=
         {| VolumeSource_HostPath := None;
            VolumeSource_EmptyDir :=
              Some {| EmptyDir_Medium := ""; EmptyDir_SizeLimit := None |};
            VolumeSource_PersistentVolumeClaim := None |} |} in
  let mounts := ResticSpec_VolumeMounts (Restic_Spec restic) ++ [scratchMount] in
  let volumes := RecoverySpec_Volumes (Recovery_Spec recovery) ++ [scratchVolume] in
  (* local backend *)
  let '(mounts, volumes) :=
    match Restic_Local restic with
    | Some l =>
        (mounts ++ [ {| VolumeMount_Name := LocalVolumeName;
                        VolumeMount_ReadOnly := false;
                        VolumeMount_MountPath := LocalSpec_Path l;
                        VolumeMount_SubPath := "" |} ],
         volumes ++ [ {| Volume_Name := LocalVolumeName;
                         Volume_VolumeSource := LocalSpec_VolumeSource l |} ])
    | None => (mounts, volumes)
    end in
  {| Job_Name := "stash-" +:+ Recovery_Name recovery;
     Job_Namespace := Recovery_Namespace recovery;
     Job_OwnerReferences := [
       {| OwnerReference_APIVersion := SchemeGroupVersion api;
          OwnerReference_Kind := ResourceKindRecovery api;
          OwnerReference_Name := Recovery_Name recovery;
          OwnerReference_UID := Recovery_UID recovery |} ];
     Job_PodSpec :=
       {| PodSpec_Containers := [
            {| Container_Name := StashContainer;
               Container_Image := ImageOperator +:+ ":" +:+ tag;
               Container_ImagePullPolicy := None;
               Container_Args := [
                 "recover";
                 "--recovery-name=" +:+ Recovery_Name recovery;
                 "--v=10" ];
               Container_Env := [];
               Container_Resources :=
                 {| Resources_Limits := ∅; Resources_Requests := ∅ |};
               Container_VolumeMounts := mounts |} ];
          PodSpec_RestartPolicy := RestartPolicyOnFailure;
          PodSpec_Volumes := volumes;
          PodSpec_NodeName := RecoverySpec_NodeName (Recovery_Spec recovery);
          PodSpec_ServiceAccountName := "" |} |}.

(** The assignment [job.Spec.Template.Spec.ServiceAccountName = name]. *)
Definition Job_setServiceAccountName (job : Job) (name : string) : Job :=
  {| Job_Name := Job_Name job;
     Job_Namespace := Job_Namespace job;
     Job_OwnerReferences := Job_OwnerReferences job;
     Job_PodSpec :=
       {| PodSpec_Containers := PodSpec_Containers (Job_PodSpec job);
          PodSpec_RestartPolicy := PodSpec_RestartPolicy (Job_PodSpec job);
          PodSpec_Volumes := PodSpec_Volumes (Job_PodSpec job);
          PodSpec_NodeName := PodSpec_NodeName (Job_PodSpec job);
          PodSpec_ServiceAccountName := name |} |}.

(** * Operations on the environment *)

Inductive EventType := EventTypeNormal | EventTypeWarning.

(** Reasons of package eventer. *)
Inductive EventReason :=
| EventReasonInvalidRecovery
| EventReasonFailedToRecover
| EventReasonJobCreated
| EventReasonFailedToDelete.

Inductive Logger :=
| log_Errorln | log_Errorf | log_Infoln
| glog_Infof | glog_Errorf
| fmt_Printf.

(** The typed clients that WorkloadExists asks. *)
Inductive WorkloadClient :=
| AppsV1beta1_Deployments
| ExtensionsV1beta1_ReplicaSets
| CoreV1_ReplicationControllers
| AppsV1beta1_StatefulSets
| ExtensionsV1beta1_DaemonSets.

#[global] Instance EventType_eq_dec : EqDecision EventType.
Proof. solve_decision. Defined.
#[global] Instance EventReason_eq_dec : EqDecision EventReason.
Proof. solve_decision. Defined.
#[global] Instance Logger_eq_dec : EqDecision Logger.
Proof. solve_decision. Defined.
#[global] Instance WorkloadClient_eq_dec : EqDecision WorkloadClient.
Proof. solve_decision. Defined.

(** Every call that leaves the controller: the stash and kubernetes clients,
    the event recorder, the informer's store, the rate-limited work queue,
    the process-wide error handler and the loggers.  Log calls keep their
    format string and arguments apart. *)
Inductive Op :=
| Restics_Get (ns name : string)
| SetRecoveryStatusPhase (rec : Recovery) (phase : RecoveryPhase)
| recorder_Event (ref : ObjectReference) (ty : EventType) (reason : EventReason)
    (message : string)
| recorder_Eventf (ref : ObjectReference) (ty : EventType) (reason : EventReason)
    (format : string) (args : list string)
| ensureRecoveryRBAC (name ns : string)
| Jobs_Create (ns : string) (job : Job)
| Workload_Get (client : WorkloadClient) (ns name : string)
| recIndexer_GetByKey (key : string)
| recQueue_Get
| recQueue_Done (key : string)
| recQueue_Forget (key : string)
| recQueue_NumRequeues (key : string)
| recQueue_Add (key : string)
| recQueue_AddRateLimited (key : string)
| runtime_HandleError (err : error)
| Log (logger : Logger) (format : string) (args : list string).

(** What the environment answers.  A Go result pair [(v, err)] whose value
    is meaningful only without an error is a sum; the store answers with the
    object, if it exists, and an error. *)
Definition Resp (o : Op) : Type :=
  match o with
  | Restics_Get _ _ => Restic + error
  | Jobs_Create _ _ => Job + error
  | ensureRecoveryRBAC _ _ => option error
  | Workload_Get _ _ _ => option error
  | recIndexer_GetByKey _ => option Recovery * option error
  | recQueue_Get => string * bool
  | recQueue_NumRequeues _ => Z
  | _ => unit
  end.

Inductive Prog (A : Type) : Type :=
| Ret (a : A)
| Do (o : Op) (k : Resp o -> Prog A).
Arguments Ret {A} a.
Arguments Do {A} o k.

Fixpoint bind {A B : Type} (p : Prog A) (f : A -> Prog B) : Prog B :=
  match p with
  | Ret a => f a
  | Do o k => Do o (fun r => bind (k r) f)
  end.

#[global] Instance Prog_ret : MRet Prog := @Ret.
#[global] Instance Prog_bind : MBind Prog := fun A B f p => bind p f.

Definition call (o : Op) : Prog (Resp o) := Do o Ret.

(** A call with the answer it received. *)
Inductive Call := Called (o : Op) (r : Resp o).

Definition Handler (W : Type) : Type := forall o : Op, W -> Resp o * W.

(** Running a program from world [w]: the result, the world it leaves and
    the calls in the order they were made. *)
Fixpoint exec {W A : Type} (h : Handler W) (p : Prog A) (w : W) : A * W * list Call :=
  match p with
  | Ret a => (a, w, [])
  | Do o k =>
      let '(r, w1) := h o w in
      let '(a, w2, calls) := exec h (k r) w1 in
      (a, w2, Called o r :: calls)
  end.

Definition result {W A : Type} (x : A * W * list Call) : A := x.1.1.
Definition world {W A : Type} (x : A * W * list Call) : W := x.1.2.
Definition calls {W A : Type} (x : A * W * list Call) : list Call := x.2.

(** ** Predicates on calls *)

Definition opOf (c : Call) : Op := match c with Called o _ => o end.

Definition isSetPhase (o : Op) : bool :=
  match o with SetRecoveryStatusPhase _ _ => true | _ => false end.

Definition isEvent (o : Op) : bool :=
  match o with
  | recorder_Event _ _ _ _ | recorder_Eventf _ _ _ _ _ => true
  | _ => false
  end.

Definition isEventOfType (ty : EventType) (o : Op) : bool :=
  match o with
  | recorder_Event _ ty' _ _ | recorder_Eventf _ ty' _ _ _ => bool_decide (ty' = ty)
  | _ => false
  end.

Definition isResticsGet (o : Op) : bool :=
  match o with Restics_Get _ _ => true | _ => false end.

Definition isJobsCreate (o : Op) : bool :=
  match o with Jobs_Create _ _ => true | _ => false end.

Definition isAddRateLimited (key : string) (o : Op) : bool :=
  match o with recQueue_AddRateLimited k => bool_decide (k = key) | _ => false end.

Definition isAdd (key : string) (o : Op) : bool :=
  match o with recQueue_Add k => bool_decide (k = key) | _ => false end.

Definition isForget (key : string) (o : Op) : bool :=
  match o with recQueue_Forget k => bool_decide (k = key) | _ => false end.

Definition isHandleError (o : Op) : bool :=
  match o with runtime_HandleError _ => true | _ => false end.

Definition isLog (o : Op) : bool :=
  match o with Log _ _ _ => true | _ => false end.

(** An operation of the work queue that puts a key (back) on it. *)
Definition isEnqueue (o : Op) : bool :=
  match o with
  | recQueue_Add _ | recQueue_AddRateLimited _ => true
  | _ => false
  end.

(** A Jobs_Create call that the API server accepted. *)
Definition isJobCreated (c : Call) : bool :=
  match c with
  | Called (Jobs_Create _ _) (inl _) => true
  | _ => false
  end.

Definition countCalls (P : Call -> bool) (cs : list Call) : nat :=
  length (filter (fun c => P c = true) cs).

Definition countOps (P : Op -> bool) (cs : list Call) : nat :=
  countCalls (fun c => P (opOf c)) cs.

(** * Package controller: the recovery watcher *)

Record Options := mkOptions {
  SidecarImageTag : string;
  EnableRBAC : bool;
  MaxNumRequeues : Z
}.

(** The dynamic type of what the informer hands to its callbacks. *)
Inductive Object :=
| ObjRecovery (r : Recovery)
| ObjDeletedFinalStateUnknown (key : string)
| ObjOther.

(** cache.MetaNamespaceKeyFunc: "namespace/name", or "name" alone for an
    object without namespace; an error for an object without metadata. *)
Definition MetaNamespaceKeyFunc (obj : Object) : string + error :=
  match obj with
  | ObjRecovery r =>
      if bool_decide (Recovery_Namespace r = "") then inl (Recovery_Name r)
      else inl (Recovery_Namespace r +:+ "/" +:+ Recovery_Name r)
  | _ => inr (Errorf "object has no meta")
  end.

(** cache.DeletionHandlingMetaNamespaceKeyFunc: a tombstone gives the key it
    was stored under. *)
Definition DeletionHandlingMetaNamespaceKeyFunc (obj : Object) : string + error :=
  match obj with
  | ObjDeletedFinalStateUnknown key => inl key
  | _ => MetaNamespaceKeyFunc obj
  end.

Definition newline : string := String (Ascii.ascii_of_nat 10) EmptyString.
Definition dquote : string := String (Ascii.ascii_of_nat 34) EmptyString.

Section Controller.
Variable api : ApiPackage.
Variable options : Options.

(** The handlers registered by initRecoveryWatcher. *)
Definition AddFunc (obj : Object) : Prog unit :=
  match obj with
  | ObjRecovery r =>
      match Recovery_IsValid api r with
      | Some err =>
          call (recorder_Eventf (Recovery_ObjectReference api r) EventTypeWarning
                  EventReasonInvalidRecovery "Reason %v" [Error err])
      | None =>
          match MetaNamespaceKeyFunc obj with
          | inl key => call (recQueue_Add key)
          | inr _ => mret tt
          end
      end
  | _ => mret tt
  end.

Definition UpdateFunc (old new : Object) : Prog unit :=
  match old with
  | ObjRecovery oldObj =>
      match new with
      | ObjRecovery newObj =>
          match Recovery_IsValid api newObj with
          | Some err =>
              call (recorder_Eventf (Recovery_ObjectReference api newObj)
                      EventTypeWarning EventReasonInvalidRecovery
                      "Reason %v" [Error err])
          | None =>
              if negb (RecoveryEqual (Some oldObj) (Some newObj)) then
                match MetaNamespaceKeyFunc new with
                | inl key => call (recQueue_Add key)
                | inr _ => mret tt
                end
              else mret tt
          end
      | _ => call (Log log_Errorln "Invalid Recovery object" [])
      end
  | _ => call (Log log_Errorln "Invalid Recovery object" [])
  end.

Definition DeleteFunc (obj : Object) : Prog unit :=
  match DeletionHandlingMetaNamespaceKeyFunc obj with
  | inl key => call (recQueue_Add key)
  | inr _ => mret tt
  end.

Definition runRecoveryJob (rec : Recovery) : Prog (option error) :=
  let phase := RecoveryStatus_Phase (Recovery_Status rec) in
  if bool_decide (phase = RecoverySucceeded) || bool_decide (phase = RecoveryRunning)
  then mret None
  else
    (* the three statements that every failure branch repeats *)
    let failed (err : error) : Prog (option error) :=
      call (Log log_Errorln "" [Error err]);;
      call (SetRecoveryStatusPhase rec RecoveryFailed);;
      call (recorder_Event (Recovery_ObjectReference api rec) EventTypeWarning
              EventReasonFailedToRecover (Error err));;
      mret (Some err) in
    (* from the Create call to the end of the function *)
    let create (job : Job) : Prog (option error) :=
      r ← call (Jobs_Create (Recovery_Namespace rec) job);
      match r with
      | inr err =>
          if IsAlreadyExists err then mret None
          else failed err
      | inl job =>
          call (Log log_Infoln "Recovery job created:" [Job_Name job]);;
          call (recorder_Eventf (Recovery_ObjectReference api rec) EventTypeNormal
                  EventReasonJobCreated "Recovery job created: %s" [Job_Name job]);;
          call (SetRecoveryStatusPhase rec RecoveryRunning);;
          mret None
      end in
    r ← call (Restics_Get (Recovery_Namespace rec)
                (RecoverySpec_Restic (Recovery_Spec rec)));
    match r with
    | inr err => failed err
    | inl restic =>
        match Restic_IsValid api restic with
        | Some err => failed err
        | None =>
            let job := CreateRecoveryJob api rec restic (SidecarImageTag options) in
            if EnableRBAC options then
              e ← call (ensureRecoveryRBAC (Job_Name job) (Job_Namespace job));
              match e with
              | Some err =>
                  mret (Some (Errorf ("error ensuring rbac for recovery job "
                                      +:+ Job_Name job +:+ ", reason: "
                                      +:+ Error err +:+ newline)))
              | None => create (Job_setServiceAccountName job (Job_Name job))
              end
            else create job
        end
    end.

Definition runRecoveryInjector (key : string) : Prog (option error) :=
  '(obj, err) ← call (recIndexer_GetByKey key);
  match err with
  | Some err =>
      call (Log glog_Errorf "Fetching object with key %s from store failed with %v"
              [key; Error err]);;
      mret (Some err)
  | None =>
      match obj with
      | None =>
          call (Log fmt_Printf "Recovery %s does not exist anymore\n" [key]);;
          mret None
      | Some d =>
          call (Log fmt_Printf "Sync/Add/Update for Recovery %s\n" [Recovery_Name d]);;
          runRecoveryJob d
      end
  end.

(** [defer c.recQueue.Done(key)] runs when the function returns, after
    everything else, on every path past the quit check. *)
Definition processNextRecovery : Prog bool :=
  '(key, quit) ← call recQueue_Get;
  if (quit : bool) then mret false
  else
    continue ←
      (err ← runRecoveryInjector key;
       match err with
       | None =>
           call (recQueue_Forget key);;
           mret true
       | Some err =>
           call (Log log_Errorf "Failed to process Recovery %v. Reason: %s"
                   [key; Error err]);;
           n ← call (recQueue_NumRequeues key);
           if bool_decide (n < MaxNumRequeues options) then
             call (Log glog_Infof "Error syncing recovery %v: %v" [key; Error err]);;
             call (recQueue_AddRateLimited key);;
             mret true
           else
             call (recQueue_Forget key);;
             call (runtime_HandleError err);;
             call (Log glog_Infof "Dropping recovery %q out of the queue: %v"
                     [key; Error err]);;
             mret true
       end);
    call (recQueue_Done key);;
    mret continue.

(** [for c.processNextRecovery() {}], cut after [fuel] rounds. *)
Fixpoint runRecoveryWatcher (fuel : nat) : Prog unit :=
  match fuel with
  | O => mret tt
  | S fuel =>
      continue ← processNextRecovery;
      if (continue : bool) then runRecoveryWatcher fuel else mret tt
  end.

(** ** WorkloadExists (package util) *)

Definition WorkloadExists (namespace : string) (workload : LocalTypedReference)
    : Prog (option error) :=
  let '(workload, err) := Canonicalize api workload in
  match err with
  | Some err => mret (Some err)
  | None =>
      let kind := LocalTypedReference_Kind workload in
      let name := LocalTypedReference_Name workload in
      if bool_decide (kind = KindDeployment api) then
        call (Workload_Get AppsV1beta1_Deployments namespace name)
      else if bool_decide (kind = KindReplicaSet api) then
        call (Workload_Get ExtensionsV1beta1_ReplicaSets namespace name)
      else if bool_decide (kind = KindReplicationController api) then
        call (Workload_Get CoreV1_ReplicationControllers namespace name)
      else if bool_decide (kind = KindStatefulSet api) then
        call (Workload_Get AppsV1beta1_StatefulSets namespace name)
      else if bool_decide (kind = KindDaemonSet api) then
        call (Workload_Get ExtensionsV1beta1_DaemonSets namespace name)
      else
        (* default: the error value is built and dropped *)
        let _ := Errorf ("unrecognized workload " +:+ dquote +:+ "Kind" +:+ dquote
                        +:+ " " +:+ kind) in
        mret None
  end.
End Controller.

(** Running programs one after the other, each from the world the previous
    one left: the final world and all calls in order. *)
Fixpoint execAll {W A : Type} (h : Handler W) (ps : list (Prog A)) (w : W)
    : W * list Call :=
  match ps with
  | [] => (w, [])
  | p :: ps =>
      let '(_, w1, cs1) := exec h p w in
      let '(w2, cs2) := execAll h ps w1 in
      (w2, cs1 ++ cs2)
  end.

(** [allOps P p]: every operation that [p] can issue, whatever the
    environment answers, satisfies [P]. *)
Fixpoint allOps {A : Type} (P : Op -> Prop) (p : Prog A) : Prop :=
  match p with
  | Ret _ => True
  | Do o k => P o /\ forall r, allOps P (k r)
  end.

(** Every Jobs_Create that a program can issue is for the job [name] in
    namespace [ns]. *)
Definition createsOnly {A : Type} (ns name : string) (p : Prog A) : Prop :=
  allOps (fun o =>
            match o with
            | Jobs_Create ns' job => ns' = ns /\ Job_Name job = name
            | _ => True
            end) p.

(** The operations of the queue layer: the work queue and the process-wide
    error handler. *)
Definition isQueueLayer (o : Op) : bool :=
  match o with
  | recQueue_Get | recQueue_Done _ | recQueue_Forget _ | recQueue_NumRequeues _
  | recQueue_Add _ | recQueue_AddRateLimited _ | runtime_HandleError _ => true
  | _ => false
  end.

(** * A cluster to run the controller against

    A small stand-in for the API server, the informer's store, the event
    recorder and the work queue, in the manner of a fake clientset.  Jobs and
    Restics are stored by namespace and name; creating a job whose name is
    taken is refused with AlreadyExists; the queue counts the rate-limited
    re-adds of each key until the key is forgotten. *)
Record Cluster := mkCluster {
  cluster_restics : list (string * Restic);        (* namespace, object *)
  cluster_jobs : list Job;
  cluster_recoveries : list Recovery;              (* the informer's store *)
  cluster_events : list (ObjectReference * EventType * EventReason);
  cluster_workloads : list (WorkloadClient * string * string);
  cluster_rbac : option error;                     (* what ensureRecoveryRBAC answers *)
  cluster_queue : list string;
  cluster_requeues : gmap string Z;
  cluster_reported : list error
}.

Definition notFound (what : string) : error :=
  mkError StatusReasonNotFound (what +:+ " not found").
Definition alreadyExists (what : string) : error :=
  mkError StatusReasonAlreadyExists (what +:+ " already exists").

Definition jobExists (c : Cluster) (ns name : string) : bool :=
  bool_decide (Exists (fun j => Job_Namespace j = ns /\ Job_Name j = name)
                 (cluster_jobs c)).

Definition setPhase (phase : RecoveryPhase) (r : Recovery) : Recovery :=
  {| Recovery_ObjectMeta := Recovery_ObjectMeta r;
     Recovery_Spec := Recovery_Spec r;
     Recovery_Status := {| RecoveryStatus_Phase := phase |} |}.

Definition sameRecovery (a b : Recovery) : bool :=
  bool_decide (Recovery_Namespace a = Recovery_Namespace b
               /\ Recovery_Name a = Recovery_Name b).

Definition cluster_setJobs (c : Cluster) (jobs : list Job) : Cluster :=
  mkCluster (cluster_restics c) jobs (cluster_recoveries c) (cluster_events c)
    (cluster_workloads c) (cluster_rbac c) (cluster_queue c) (cluster_requeues c)
    (cluster_reported c).
Definition cluster_setRecoveries (c : Cluster) (recs : list Recovery) : Cluster :=
  mkCluster (cluster_restics c) (cluster_jobs c) recs (cluster_events c)
    (cluster_workloads c) (cluster_rbac c) (cluster_queue c) (cluster_requeues c)
    (cluster_reported c).
Definition cluster_addEvent (c : Cluster)
    (e : ObjectReference * EventType * EventReason) : Cluster :=
  mkCluster (cluster_restics c) (cluster_jobs c) (cluster_recoveries c)
    (cluster_events c ++ [e])
    (cluster_workloads c) (cluster_rbac c) (cluster_queue c) (cluster_requeues c)
    (cluster_reported c).
Definition cluster_setQueue (c : Cluster) (q : list string) (n : gmap string Z)
    : Cluster :=
  mkCluster (cluster_restics c) (cluster_jobs c) (cluster_recoveries c)
    (cluster_events c) (cluster_workloads c) (cluster_rbac c) q n
    (cluster_reported c).
Definition cluster_report (c : Cluster) (err : error) : Cluster :=
  mkCluster (cluster_restics c) (cluster_jobs c) (cluster_recoveries c)
    (cluster_events c) (cluster_workloads c) (cluster_rbac c) (cluster_queue c)
    (cluster_requeues c) (cluster_reported c ++ [err]).

Definition fakeCluster : Handler Cluster :=
  fun o =>
    match o as o' return Cluster -> Resp o' * Cluster with
    | Restics_Get ns name => fun c =>
        match list_find (fun x => x.1 = ns /\ Restic_Name x.2 = name)
                (cluster_restics c) with
        | Some (_, (_, r)) => (inl r, c)
        | None => (inr (notFound name), c)
        end
    | SetRecoveryStatusPhase rec phase => fun c =>
        (tt, cluster_setRecoveries c
               (map (fun r => if sameRecovery r rec then setPhase phase r else r)
                  (cluster_recoveries c)))
    | recorder_Event ref ty reason _ => fun c =>
        (tt, cluster_addEvent c (ref, ty, reason))
    | recorder_Eventf ref ty reason _ _ => fun c =>
        (tt, cluster_addEvent c (ref, ty, reason))
    | ensureRecoveryRBAC _ _ => fun c => (cluster_rbac c, c)
    | Jobs_Create ns job => fun c =>
        if jobExists c ns (Job_Name job) then (inr (alreadyExists (Job_Name job)), c)
        else
          let stored := mkJob (Job_Name job) ns (Job_OwnerReferences job)
                          (Job_PodSpec job) in
          (inl stored, cluster_setJobs c (cluster_jobs c ++ [stored]))
    | Workload_Get client ns name => fun c =>
        if bool_decide ((client, ns, name) ∈ cluster_workloads c) then (None, c)
        else (Some (notFound name), c)
    | recIndexer_GetByKey key => fun c =>
        match list_find (fun r => MetaNamespaceKeyFunc (ObjRecovery r) = inl key)
                (cluster_recoveries c) with
        | Some (_, r) => ((Some r, None), c)
        | None => ((None, None), c)
        end
    | recQueue_Get => fun c =>
        match cluster_queue c with
        | key :: rest => ((key, false), cluster_setQueue c rest (cluster_requeues c))
        | [] => (("", true), c)
        end
    | recQueue_Done _ => fun c => (tt, c)
    | recQueue_Forget key => fun c =>
        (tt, cluster_setQueue c (cluster_queue c) (delete key (cluster_requeues c)))
    | recQueue_NumRequeues key => fun c =>
        (default 0 (cluster_requeues c !! key), c)
    | recQueue_Add key => fun c =>
        if bool_decide (key ∈ cluster_queue c) then (tt, c)
        else (tt, cluster_setQueue c (cluster_queue c ++ [key]) (cluster_requeues c))
    | recQueue_AddRateLimited key => fun c =>
        let n := default 0 (cluster_requeues c !! key) in
        let q := if bool_decide (key ∈ cluster_queue c) then cluster_queue c
                 else cluster_queue c ++ [key] in
        (tt, cluster_setQueue c q (<[key := n + 1]> (cluster_requeues c)))
    | runtime_HandleError err => fun c => (tt, cluster_report c err)
    | Log _ _ _ => fun c => (tt, c)
    end.

(** * Example objects *)

(** The quantities that resource.ParseQuantity gives for three texts.  All
    three have format BinarySI and an int64 amount of scale 0.  The text is
    kept as the cached string only when it is canonical, which it is for
    1Gi and 2Gi and is not for 1024Mi. *)
Definition quantity_1Gi : Quantity :=
  mkQuantity 1073741824 0 None "1Gi" BinarySI.
Definition quantity_1024Mi : Quantity :=
  mkQuantity 1073741824 0 None "" BinarySI.
Definition quantity_2Gi : Quantity :=
  mkQuantity 2147483648 0 None "2Gi" BinarySI.

(** The decimal quantities 1 and 1000m: the same number at scales 0 and -3. *)
Definition quantity_1 : Quantity := mkQuantity 1 0 None "1" DecimalSI.
Definition quantity_1000m : Quantity := mkQuantity 1000 (-3) None "" DecimalSI.

(** An instance of the package declarations to run the examples with.  The
    validators ask for a policy name and a storage secret; Canonicalize asks
    for a name and a kind. *)
Definition exampleApi : ApiPackage := {|
  VersionTag := "restic.appscode.com/tag";
  SchemeGroupVersion := "stash.appscode.com/v1alpha1";
  ResourceKindRecovery := "Recovery";
  KindDeployment := "Deployment";
  KindReplicaSet := "ReplicaSet";
  KindReplicationController := "ReplicationController";
  KindStatefulSet := "StatefulSet";
  KindDaemonSet := "DaemonSet";
  Recovery_IsValid := fun r =>
    if bool_decide (RecoverySpec_Restic (Recovery_Spec r) = "")
    then Some (Errorf "missing restic name") else None;
  Restic_IsValid := fun r =>
    if bool_decide (Backend_StorageSecretName (ResticSpec_Backend (Restic_Spec r)) = "")
    then Some (Errorf "missing repository secret name") else None;
  Recovery_ObjectReference := fun r =>
    mkObjectReference "Recovery" (Recovery_Namespace r) (Recovery_Name r)
      (Recovery_UID r);
  Canonicalize := fun w =>
    if bool_decide (LocalTypedReference_Name w = "")
       || bool_decide (LocalTypedReference_Kind w = "")
    then (w, Some (Errorf "missing workload name or kind"))
    else (w, None)
|}.

Definition exampleOptions : Options :=
  {| SidecarImageTag := "0.6.2"; EnableRBAC := false; MaxNumRequeues := 5 |}.

Definition exampleOptionsRBAC : Options :=
  {| SidecarImageTag := "0.6.2"; EnableRBAC := true; MaxNumRequeues := 5 |}.

Definition emptyDirSource (limit : option Quantity) : VolumeSource :=
  {| VolumeSource_HostPath := None;
     VolumeSource_EmptyDir := Some {| EmptyDir_Medium := ""; EmptyDir_SizeLimit := limit |};
     VolumeSource_PersistentVolumeClaim := None |}.

Definition hostPathSource (path : string) : VolumeSource :=
  {| VolumeSource_HostPath := Some path;
     VolumeSource_EmptyDir := None;
     VolumeSource_PersistentVolumeClaim := None |}.

Definition exampleMeta (ns name : string) : ObjectMeta :=
  mkObjectMeta name ns ("uid-" +:+ name) "1" ∅ ∅.

Definition exampleResticSpec (local : option LocalSpec) : ResticSpec := {|
  ResticSpec_Selector := mkLabelSelector {[ "app" := "db" ]};
  ResticSpec_FileGroups := [ mkFileGroup "/source/data" [] (mkRetentionPolicy 5 true) ];
  ResticSpec_Backend := mkBackend "repo-secret" local None;
  ResticSpec_Schedule := "@every 1h";
  ResticSpec_VolumeMounts := [ mkVolumeMount "data" false "/source/data" "" ];
  ResticSpec_Resources := mkResourceRequirements ∅ ∅
|}.

Definition exampleRestic : Restic :=
  mkRestic (exampleMeta "default" "nightly")
    (exampleResticSpec (Some (mkLocalSpec (hostPathSource "/mnt/backup") "/repo")))
    (mkResticStatus 0 "").

Definition exampleInvalidRestic : Restic :=
  mkRestic (exampleMeta "default" "nightly")
    {| ResticSpec_Selector := mkLabelSelector ∅;
       ResticSpec_FileGroups := [];
       ResticSpec_Backend := mkBackend "" None None;
       ResticSpec_Schedule := "";
       ResticSpec_VolumeMounts := [];
       ResticSpec_Resources := mkResourceRequirements ∅ ∅ |}
    (mkResticStatus 0 "").

Definition exampleRecoveryWith (phase : RecoveryPhase) (limit : Quantity) : Recovery :=
  mkRecovery (exampleMeta "default" "restore")
    {| RecoverySpec_Restic := "nightly";
       RecoverySpec_NodeName := "node-1";
       RecoverySpec_Volumes := [ mkVolume "data" (emptyDirSource (Some limit)) ] |}
    (mkRecoveryStatus phase).

Definition exampleRecovery : Recovery :=
  exampleRecoveryWith RecoveryPhaseEmpty quantity_1Gi.

Definition emptyCluster : Cluster :=
  mkCluster [] [] [] [] [] None [] ∅ [].

(** A cluster that holds the policy and the request, the request's key on
    the queue. *)
Definition exampleCluster : Cluster :=
  mkCluster [("default", exampleRestic)] [] [exampleRecovery] [] [] None
    ["default/restore"] ∅ [].

(** The same cluster once the recovery job exists. *)
Definition exampleClusterWithJob : Cluster :=
  cluster_setJobs exampleCluster
    [ CreateRecoveryJob exampleApi exampleRecovery exampleRestic "0.6.2" ].

(** The calls of a failure branch: the error is logged, the phase is set to
    Failed and a warning event carries the error text. *)
Definition failedCalls (api : ApiPackage) (rec : Recovery) (err : error) : list Call :=
  [ Called (Log log_Errorln "" [Error err]) tt;
    Called (SetRecoveryStatusPhase rec RecoveryFailed) tt;
    Called (recorder_Event (Recovery_ObjectReference api rec) EventTypeWarning
              EventReasonFailedToRecover (Error err)) tt ].

(** The error that answered a Jobs_Create call, if the call is one and it
    failed. *)
Definition createError (c : Call) : option error :=
  match c with
  | Called (Jobs_Create _ _) (inr err) => Some err
  | _ => None
  end.

(** The job that runRecoveryJob submits for [rec] and [restic]: the one of
    CreateRecoveryJob, running under its own service account when RBAC is
    enabled. *)
Definition submittedJob (api : ApiPackage) (options : Options)
    (rec : Recovery) (restic : Restic) : Job :=
  let job := CreateRecoveryJob api rec restic (SidecarImageTag options) in
  if EnableRBAC options then Job_setServiceAccountName job (Job_Name job) else job.

(** The calls that come before the Create call on the path that reaches it. *)
Definition callsBeforeCreate (api : ApiPackage) (options : Options)
    (rec : Recovery) (restic : Restic) : list Call :=
  let job := CreateRecoveryJob api rec restic (SidecarImageTag options) in
  Called (Restics_Get (Recovery_Namespace rec) (RecoverySpec_Restic (Recovery_Spec rec)))
    (inl restic)
  :: (if EnableRBAC options
      then [ Called (ensureRecoveryRBAC (Job_Name job) (Job_Namespace job)) None ]
      else []).

(** A cluster in which an earlier attempt created the job and a later one
    left the Recovery in phase Failed. *)
Definition exampleClusterAfterFailure : Cluster :=
  mkCluster [("default", exampleRestic)]
    [ CreateRecoveryJob exampleApi exampleRecovery exampleRestic "0.6.2" ]
    [ exampleRecoveryWith RecoveryFailed quantity_1Gi ]
    [] [] None [] ∅ [].

(** A cluster that holds the request but not the policy it names.  The key
    is on the queue and has been re-added [n] times already. *)
Definition exampleClusterNoPolicy (n : Z) : Cluster :=
  mkCluster [] [] [exampleRecovery] [] [] None
    ["default/restore"] {[ "default/restore" := n ]} [].


(** The mount that CreateSidecarContainer makes of a mount declared on the
    policy: the same place, read-only. *)
Definition readOnlyMount (srcVol : VolumeMount) : VolumeMount :=
  {| VolumeMount_Name := VolumeMount_Name srcVol;
     VolumeMount_ReadOnly := true;
     VolumeMount_MountPath := VolumeMount_MountPath srcVol;
     VolumeMount_SubPath := VolumeMount_SubPath srcVol |}.

(** The tag in effect: the version-tag annotation of the policy when there
    is one, the tag passed in otherwise. *)
Definition effectiveTag (api : ApiPackage) (r : Restic) (tag : string) : string :=
  default tag (Restic_Annotations r !! VersionTag api).

Definition scratchMount : VolumeMount :=
  mkVolumeMount ScratchDirVolumeName false "/tmp" "".
Definition podinfoMount : VolumeMount :=
  mkVolumeMount PodinfoVolumeName false "/etc/stash" "".
Definition localMount (path : string) : VolumeMount :=
  mkVolumeMount LocalVolumeName false path "".

Definition exampleCanaryRestic : Restic :=
  mkRestic
    (mkObjectMeta "nightly" "default" "uid-nightly" "1" ∅
       {[ "restic.appscode.com/tag" := "canary" ]})
    (exampleResticSpec (Some (mkLocalSpec (hostPathSource "/mnt/backup") "/repo")))
    (mkResticStatus 0 "").

(** How many volumes of a list carry a name, and the volumes that carry
    another name, in their order. *)
Definition countNamed (name : string) (volumes : list Volume) : nat :=
  length (filter (fun vol => Volume_Name vol = name) volumes).

Definition volumesNotNamed (name : string) (volumes : list Volume) : list Volume :=
  filter (fun vol => Volume_Name vol <> name) volumes.

(** The volume that MergeLocalVolume writes for a local backend. *)
Definition localVolume (l : LocalSpec) : Volume :=
  {| Volume_Name := LocalVolumeName; Volume_VolumeSource := LocalSpec_VolumeSource l |}.

Definition exampleNonLocalRestic : Restic :=
  mkRestic (exampleMeta "default" "nightly")
    {| ResticSpec_Selector := mkLabelSelector {[ "app" := "db" ]};
       ResticSpec_FileGroups := [];
       ResticSpec_Backend :=
         mkBackend "repo-secret" None (Some (mkS3Spec "s3.amazonaws.com" "backups" "db"));
       ResticSpec_Schedule := "@every 1h";
       ResticSpec_VolumeMounts := [];
       ResticSpec_Resources := mkResourceRequirements ∅ ∅ |}
    (mkResticStatus 0 "").

(** A volume list in which the well-known name occurs twice. *)
Definition exampleDuplicateVolumes : list Volume :=
  [ mkVolume "data" (hostPathSource "/var/lib/db");
    mkVolume LocalVolumeName (hostPathSource "/old/one");
    mkVolume "logs" (emptyDirSource None);
    mkVolume LocalVolumeName (hostPathSource "/old/two") ].

Definition exampleVolumes : list Volume :=
  [ mkVolume "data" (hostPathSource "/var/lib/db");
    mkVolume LocalVolumeName (hostPathSource "/old/one");
    mkVolume "logs" (emptyDirSource None) ].

(** A spec with one limit, one request or the local backend replaced. *)
Definition ResticSpec_setLimit (k : string) (q : Quantity) (spec : ResticSpec)
    : ResticSpec :=
  {| ResticSpec_Selector := ResticSpec_Selector spec;
     ResticSpec_FileGroups := ResticSpec_FileGroups spec;
     ResticSpec_Backend := ResticSpec_Backend spec;
     ResticSpec_Schedule := ResticSpec_Schedule spec;
     ResticSpec_VolumeMounts := ResticSpec_VolumeMounts spec;
     ResticSpec_Resources :=
       {| Resources_Limits := <[k := q]> (Resources_Limits (ResticSpec_Resources spec));
          Resources_Requests := Resources_Requests (ResticSpec_Resources spec) |} |}.

Definition ResticSpec_setRequest (k : string) (q : Quantity) (spec : ResticSpec)
    : ResticSpec :=
  {| ResticSpec_Selector := ResticSpec_Selector spec;
     ResticSpec_FileGroups := ResticSpec_FileGroups spec;
     ResticSpec_Backend := ResticSpec_Backend spec;
     ResticSpec_Schedule := ResticSpec_Schedule spec;
     ResticSpec_VolumeMounts := ResticSpec_VolumeMounts spec;
     ResticSpec_Resources :=
       {| Resources_Limits := Resources_Limits (ResticSpec_Resources spec);
          Resources_Requests :=
            <[k := q]> (Resources_Requests (ResticSpec_Resources spec)) |} |}.

(** The local backend kept in an emptyDir volume of size limit [q]. *)
Definition ResticSpec_setLocalSizeLimit (medium path : string) (q : Quantity)
    (spec : ResticSpec) : ResticSpec :=
  {| ResticSpec_Selector := ResticSpec_Selector spec;
     ResticSpec_FileGroups := ResticSpec_FileGroups spec;
     ResticSpec_Backend :=
       {| Backend_StorageSecretName :=
            Backend_StorageSecretName (ResticSpec_Backend spec);
          Backend_Local :=
            Some {| LocalSpec_VolumeSource :=
                      {| VolumeSource_HostPath := None;
                         VolumeSource_EmptyDir :=
                           Some {| EmptyDir_Medium := medium;
                                   EmptyDir_SizeLimit := Some q |};
                         VolumeSource_PersistentVolumeClaim := None |};
                    LocalSpec_Path := path |};
          Backend_S3 := Backend_S3 (ResticSpec_Backend spec) |};
     ResticSpec_Schedule := ResticSpec_Schedule spec;
     ResticSpec_VolumeMounts := ResticSpec_VolumeMounts spec;
     ResticSpec_Resources := ResticSpec_Resources spec |}.

(** Two stored forms of one policy: other metadata, other status, and the
    memory limit written as [q]. *)
Definition exampleResticA (q : Quantity) : Restic :=
  mkRestic (mkObjectMeta "nightly" "default" "uid-nightly" "41" ∅ ∅)
    (ResticSpec_setLimit "memory" q (exampleResticSpec None))
    (mkResticStatus 3 "2018-01-10T02:00:00Z").

Definition exampleResticB (q : Quantity) : Restic :=
  mkRestic (mkObjectMeta "nightly" "default" "uid-nightly" "42" {[ "team" := "db" ]} ∅)
    (ResticSpec_setLimit "memory" q (exampleResticSpec None))
    (mkResticStatus 4 "2018-01-11T02:00:00Z").

(** * More of the recovery watcher: the paths of runRecoveryJob *)

(** The job that answered a Jobs_Create call, if the call is one and it
    succeeded, and the error that answered an ensureRecoveryRBAC call. *)
Definition createdJob (c : Call) : option Job :=
  match c with
  | Called (Jobs_Create _ _) (inl job) => Some job
  | _ => None
  end.

Definition rbacError (c : Call) : option error :=
  match c with
  | Called (ensureRecoveryRBAC _ _) (Some err) => Some err
  | _ => None
  end.

Definition isSetPhaseTo (phase : RecoveryPhase) (o : Op) : bool :=
  match o with
  | SetRecoveryStatusPhase _ p => bool_decide (p = phase)
  | _ => false
  end.

Definition isRBAC (o : Op) : bool :=
  match o with ensureRecoveryRBAC _ _ => true | _ => false end.

(** The calls of the success path after the Create call: the log line, the
    normal event and the phase write, all naming the job as the API server
    returned it. *)
Definition createdCalls (api : ApiPackage) (rec : Recovery) (created : Job) : list Call :=
  [ Called (Log log_Infoln "Recovery job created:" [Job_Name created]) tt;
    Called (recorder_Eventf (Recovery_ObjectReference api rec) EventTypeNormal
              EventReasonJobCreated "Recovery job created: %s" [Job_Name created]) tt;
    Called (SetRecoveryStatusPhase rec RecoveryRunning) tt ].

(** The error that runRecoveryJob returns when RBAC cannot be ensured. *)
Definition rbacFailure (job : Job) (err : error) : error :=
  Errorf ("error ensuring rbac for recovery job " +:+ Job_Name job +:+ ", reason: "
          +:+ Error err +:+ newline).

(** The runs of runRecoveryJob, one constructor for each way through the
    function: what it returns and the calls it makes, in order. *)
Inductive runRecoveryJob_run (api : ApiPackage) (options : Options) (rec : Recovery)
    : option error -> list Call -> Prop :=
| run_short_circuit :
    RecoveryStatus_Phase (Recovery_Status rec) = RecoverySucceeded
    \/ RecoveryStatus_Phase (Recovery_Status rec) = RecoveryRunning ->
    runRecoveryJob_run api options rec None []
| run_restic_error (err : error) :
    runRecoveryJob_run api options rec (Some err)
      (Called (Restics_Get (Recovery_Namespace rec)
                 (RecoverySpec_Restic (Recovery_Spec rec))) (inr err)
       :: failedCalls api rec err)
| run_restic_invalid (restic : Restic) (err : error) :
    Restic_IsValid api restic = Some err ->
    runRecoveryJob_run api options rec (Some err)
      (Called (Restics_Get (Recovery_Namespace rec)
                 (RecoverySpec_Restic (Recovery_Spec rec))) (inl restic)
       :: failedCalls api rec err)
| run_rbac_error (restic : Restic) (err : error) :
    Restic_IsValid api restic = None ->
    EnableRBAC options = true ->
    let job := CreateRecoveryJob api rec restic (SidecarImageTag options) in
    runRecoveryJob_run api options rec (Some (rbacFailure job err))
      [ Called (Restics_Get (Recovery_Namespace rec)
                  (RecoverySpec_Restic (Recovery_Spec rec))) (inl restic);
        Called (ensureRecoveryRBAC (Job_Name job) (Job_Namespace job)) (Some err) ]
| run_created (restic : Restic) (created : Job) :
    Restic_IsValid api restic = None ->
    runRecoveryJob_run api options rec None
      (callsBeforeCreate api options rec restic
       ++ Called (Jobs_Create (Recovery_Namespace rec)
                    (submittedJob api options rec restic)) (inl created)
          :: createdCalls api rec created)
| run_already_exists (restic : Restic) (err : error) :
    Restic_IsValid api restic = None ->
    IsAlreadyExists err = true ->
    runRecoveryJob_run api options rec None
      (callsBeforeCreate api options rec restic
       ++ [ Called (Jobs_Create (Recovery_Namespace rec)
                      (submittedJob api options rec restic)) (inr err) ])
| run_create_error (restic : Restic) (err : error) :
    Restic_IsValid api restic = None ->
    IsAlreadyExists err = false ->
    runRecoveryJob_run api options rec (Some err)
      (callsBeforeCreate api options rec restic
       ++ Called (Jobs_Create (Recovery_Namespace rec)
                    (submittedJob api options rec restic)) (inr err)
          :: failedCalls api rec err).

(** A handler that answers every Jobs_Create with the error [err] and
    leaves everything else to [h]. *)
Definition withCreateError {W : Type} (err : error) (h : Handler W) : Handler W :=
  fun o =>
    match o as o' return W -> Resp o' * W with
    | Jobs_Create _ _ => fun w => (inr err, w)
    | o' => h o'
    end.

Definition serverTimeout : error :=
  mkError StatusReasonServerTimeout "the server was unable to respond in time".

Definition forbidden : error :=
  mkError StatusReasonUnknown "serviceaccounts is forbidden".

(** The example cluster with an RBAC layer that refuses. *)
Definition exampleClusterNoRBAC : Cluster :=
  mkCluster [("default", exampleRestic)] [] [exampleRecovery] [] []
    (Some forbidden) ["default/restore"] ∅ [].

(** The key of a Recovery on the work queue. *)
Definition recoveryKey (r : Recovery) : string :=
  if bool_decide (Recovery_Namespace r = "") then Recovery_Name r
  else Recovery_Namespace r +:+ "/" +:+ Recovery_Name r.

(** An invalid request: it names no policy. *)
Definition exampleInvalidRecovery : Recovery :=
  mkRecovery (exampleMeta "default" "broken")
    {| RecoverySpec_Restic := ""; RecoverySpec_NodeName := ""; RecoverySpec_Volumes := [] |}
    (mkRecoveryStatus RecoveryPhaseEmpty).

(** A cluster whose queue holds the key of a Recovery that was deleted. *)
Definition exampleClusterDeleted : Cluster :=
  mkCluster [("default", exampleRestic)] [] [] [] [] None
    ["default/restore"] {[ "default/restore" := 2 ]} [].

(** A mount is backed by a list of volumes when one of them has its name. *)
Definition mountBacked (volumes : list Volume) (m : VolumeMount) : Prop :=
  exists vol, vol ∈ volumes /\ Volume_Name vol = VolumeMount_Name m.

(** The container of the recovery job. *)
Definition Job_Containers (job : Job) : list Container :=
  PodSpec_Containers (Job_PodSpec job).
Definition Job_Volumes (job : Job) : list Volume :=
  PodSpec_Volumes (Job_PodSpec job).

(** A Recovery that declares a volume under the reserved scratch name. *)
Definition exampleRecoveryReservedName : Recovery :=
  mkRecovery (exampleMeta "default" "restore")
    {| RecoverySpec_Restic := "nightly";
       RecoverySpec_NodeName := "node-1";
       RecoverySpec_Volumes :=
         [ mkVolume "data" (hostPathSource "/var/lib/db");
           mkVolume ScratchDirVolumeName (emptyDirSource None) ] |}
    (mkRecoveryStatus RecoveryPhaseEmpty).

(** The volume that UpsertScratchVolume writes. *)
Definition scratchVolume : Volume :=
  {| Volume_Name := ScratchDirVolumeName;
     Volume_VolumeSource :=
       {| VolumeSource_HostPath := None;
          VolumeSource_EmptyDir :=
            Some {| EmptyDir_Medium := ""; EmptyDir_SizeLimit := None |};
          VolumeSource_PersistentVolumeClaim := None |} |}.

Definition volumeNames (volumes : list Volume) : list string :=
  Volume_Name <$> volumes.

(** * More of package util *)

(** ** Initializers *)

(** metav1.Initializers: the initializers that have yet to act on an
    object, in order. *)
Record Initializer := mkInitializer {
  Initializer_Name : string
}.

Record Initializers := mkInitializers {
  Initializers_Pending : list Initializer
}.

Definition ToBeInitializedByPeer (initializers : option Initializers) : bool :=
  match initializers with
  | Some i =>
      match Initializers_Pending i with
      | first :: _ => negb (bool_decide (Initializer_Name first = StashInitializerName))
      | [] => false
      end
  | None => false
  end.

Definition ToBeInitializedBySelf (initializers : option Initializers) : bool :=
  match initializers with
  | Some i =>
      match Initializers_Pending i with
      | first :: _ => bool_decide (Initializer_Name first = StashInitializerName)
      | [] => false
      end
  | None => false
  end.

(** ** The name of the lock of a workload *)

(** strings.ToLower on ASCII text: the letters A to Z are lowered and every
    other character is kept.  On text with other characters Go also lowers
    the upper-case letters of other alphabets, so the statements about
    ToLower below are made for ASCII text. *)
Definition toLowerAscii (c : Ascii.ascii) : Ascii.ascii :=
  let n := Ascii.nat_of_ascii c in
  if (Nat.leb 65 n && Nat.leb n 90)%bool then Ascii.ascii_of_nat (n + 32) else c.

Fixpoint ToLower (s : string) : string :=
  match s with
  | EmptyString => EmptyString
  | String c s => String (toLowerAscii c) (ToLower s)
  end.

Fixpoint isASCII (s : string) : bool :=
  match s with
  | EmptyString => true
  | String c s => Nat.ltb (Ascii.nat_of_ascii c) 128 && isASCII s
  end.

(** fmt.Sprintf("lock-%s-%s", workload.Kind, workload.Name), lowered. *)
Definition GetConfigmapLockName (workload : LocalTypedReference) : string :=
  ToLower ("lock-" +:+ LocalTypedReference_Kind workload +:+ "-"
           +:+ LocalTypedReference_Name workload).

(** ** FindRestic *)

(** What the code uses of [k8s.io/apimachinery/pkg/labels] and of
    metav1.LabelSelectorAsSelector: the conversion of a label selector, which
    may fail, the text of a selector and whether a selector matches a set of
    labels.  They are taken as given. *)
Record LabelsPackage := mkLabelsPackage {
  Selector : Type;
  LabelSelectorAsSelector : option LabelSelector -> Selector + error;
  Selector_String : Selector -> string;
  Selector_Matches : Selector -> gmap string string -> bool
}.

(** errors.New *)
Definition errors_New (msg : string) : error := mkError StatusReasonUnknown msg.

Section FindRestic.
Variable labels : LabelsPackage.

(** The loop over the listed policies: a selector that does not convert
    ends it with the error; a policy whose selector matches is appended to
    the result. *)
Fixpoint matchingRestics (objLabels : gmap string string) (restics result : list Restic)
    : list Restic + error :=
  match restics with
  | [] => inl result
  | restic :: restics =>
      match LabelSelectorAsSelector labels (Some (ResticSpec_Selector (Restic_Spec restic))) with
      | inr err => inr err
      | inl selector =>
          if Selector_Matches labels selector objLabels
          then matchingRestics objLabels restics (result ++ [restic])
          else matchingRestics objLabels restics result
      end
  end.

(** [lister] stands for lister.Restics(namespace).List(labels.Everything()). *)
Definition FindRestic (lister : string -> list Restic + error) (obj : ObjectMeta)
    : option Restic * option error :=
  match lister (ObjectMeta_Namespace obj) with
  | inr err =>
      if IsNotFound err then (None, None) else (None, Some err)
  | inl restics =>
      match matchingRestics (ObjectMeta_Labels obj) restics [] with
      | inr err => (None, Some err)
      | inl result =>
          if bool_decide (1 < length result)%nat then
            (None,
             Some (errors_New
                     ("Workload " +:+ ObjectMeta_Namespace obj +:+ "/"
                      +:+ ObjectMeta_Name obj +:+ " matches multiple Restics:"
                      +:+ String.concat ", " (Restic_Name <$> result))))
          else
            match result with
            | [r] => (Some r, None)
            | _ => (None, None)
            end
      end
  end.

(** Whether the selector of a policy converts, and whether it then matches
    the labels. *)
Definition selectorConverts (restic : Restic) : Prop :=
  exists selector,
    LabelSelectorAsSelector labels (Some (ResticSpec_Selector (Restic_Spec restic)))
    = inl selector.

Definition resticMatches (objLabels : gmap string string) (restic : Restic) : bool :=
  match LabelSelectorAsSelector labels (Some (ResticSpec_Selector (Restic_Spec restic))) with
  | inl selector => Selector_Matches labels selector objLabels
  | inr _ => false
  end.
End FindRestic.

(** Selectors for the examples: a selector is its map of labels, it matches
    the label sets that contain the map, and every selector converts but the
    one that asks for an empty value of the key app. *)
Definition exampleLabels : LabelsPackage := {|
  Selector := gmap string string;
  LabelSelectorAsSelector := fun s =>
    match s with
    | Some s =>
        if bool_decide (LabelSelector_MatchLabels s !! "app" = Some "")
        then inr (errors_New "invalid label value")
        else inl (LabelSelector_MatchLabels s)
    | None => inl ∅
    end;
  Selector_String := fun m =>
    String.concat "," ((fun kv => kv.1 +:+ "=" +:+ kv.2) <$> map_to_list m);
  Selector_Matches := fun m objLabels =>
    bool_decide (map_Forall (fun k v => objLabels !! k = Some v) m)
|}.

Definition exampleResticSelecting (name : string) (sel : gmap string string) : Restic :=
  mkRestic (exampleMeta "default" name)
    {| ResticSpec_Selector := mkLabelSelector sel;
       ResticSpec_FileGroups := [];
       ResticSpec_Backend := mkBackend "repo-secret" None None;
       ResticSpec_Schedule := "@every 1h";
       ResticSpec_VolumeMounts := [];
       ResticSpec_Resources := mkResourceRequirements ∅ ∅ |}
    (mkResticStatus 0 "").

Definition exampleLister (ns : string) : list Restic + error :=
  if bool_decide (ns = "default") then
    inl [ exampleResticSelecting "db-backup" {[ "app" := "db" ]};
          exampleResticSelecting "web-backup" {[ "app" := "web" ]};
          exampleResticSelecting "tier-backup" {[ "tier" := "data" ]} ]
  else inr (notFound ns).

(** * Waiting and cleaning up: the kubernetes client of package util *)

Record Pod := mkPod {
  Pod_Name : string;
  Pod_Containers : list Container      (* pod.Spec.Containers *)
}.

(** The calls that the helpers below make on the kubernetes client, the
    event recorder and the logger, and the pauses between two attempts.  A
    selector travels as its text, as in metav1.ListOptions. *)
Inductive KubeOp :=
| Pods_List (ns labelSelector : string)
| Pods_Delete (ns name : string)
| Pods_DeleteCollection (ns labelSelector : string)
| Jobs_Get (ns name : string)
| Jobs_Delete (ns name : string)
| ConfigMaps_Delete (ns name : string)
| kube_Eventf (ref : ObjectReference) (ty : EventType) (reason : EventReason)
    (format : string) (args : list string)
| kube_Errorln (err : error)
| kube_Sleep (seconds : Z).

(** Of the Job that Jobs_Get returns the code reads Status.Succeeded only. *)
Definition KubeResp (o : KubeOp) : Type :=
  match o with
  | Pods_List _ _ => list Pod + error
  | Pods_Delete _ _ => option error
  | Pods_DeleteCollection _ _ => option error
  | Jobs_Get _ _ => Z + error
  | Jobs_Delete _ _ => option error
  | ConfigMaps_Delete _ _ => option error
  | _ => unit
  end.

Inductive KProg (A : Type) : Type :=
| KRet (a : A)
| KDo (o : KubeOp) (k : KubeResp o -> KProg A).
Arguments KRet {A} a.
Arguments KDo {A} o k.

Fixpoint kbind {A B : Type} (p : KProg A) (f : A -> KProg B) : KProg B :=
  match p with
  | KRet a => f a
  | KDo o k => KDo o (fun r => kbind (k r) f)
  end.

#[global] Instance KProg_ret : MRet KProg := @KRet.
#[global] Instance KProg_bind : MBind KProg := fun A B f p => kbind p f.

Definition kcall (o : KubeOp) : KProg (KubeResp o) := KDo o KRet.

Inductive KubeCall := KCalled (o : KubeOp) (r : KubeResp o).

Definition kubeOpOf (c : KubeCall) : KubeOp := match c with KCalled o _ => o end.

Definition KubeHandler (W : Type) : Type := forall o : KubeOp, W -> KubeResp o * W.

Fixpoint kexec {W A : Type} (h : KubeHandler W) (p : KProg A) (w : W)
    : A * W * list KubeCall :=
  match p with
  | KRet a => (a, w, [])
  | KDo o k =>
      let '(r, w1) := h o w in
      let '(a, w2, cs) := kexec h (k r) w1 in
      (a, w2, KCalled o r :: cs)
  end.

(** ** Retrying and polling *)

(** backoff.Retry with a constant back-off: the operation is run until it
    returns nil, with a pause of the interval after each failure.  A constant
    back-off never says stop, so Retry returns nothing but nil.  [fuel]
    bounds the attempts of the model; [None] means that they were used up. *)
Fixpoint backoff_Retry (fuel : nat) (interval : Z) (operation : KProg (option error))
    : KProg (option (option error)) :=
  match fuel with
  | O => mret None
  | S fuel =>
      err ← operation;
      match err with
      | None => mret (Some None)
      | Some _ => kcall (kube_Sleep interval);; backoff_Retry fuel interval operation
      end
  end.

(** wait.PollInfinite: after each interval the condition is asked; an error
    of the condition ends the wait with that error, [true] ends it with
    nil. *)
Fixpoint wait_PollInfinite (fuel : nat) (interval : Z)
    (condition : KProg (bool * option error)) : KProg (option (option error)) :=
  match fuel with
  | O => mret None
  | S fuel =>
      kcall (kube_Sleep interval);;
      '(ok, err) ← condition;
      match err with
      | Some err => mret (Some (Some err))
      | None =>
          if (ok : bool) then mret (Some None)
          else wait_PollInfinite fuel interval condition
      end
  end.

(** [for _, pod := range pods { Pods(namespace).Delete(pod.Name, ...) }];
    the answer of each Delete is dropped. *)
Fixpoint deletePods (namespace : string) (pods : list Pod) : KProg unit :=
  match pods with
  | [] => mret tt
  | pod :: pods =>
      kcall (Pods_Delete namespace (Pod_Name pod));;
      deletePods namespace pods
  end.

(** The inner loop over pod.Spec.Containers: whether one is named stash. *)
Definition hasStashContainer (pod : Pod) : bool :=
  existsb (fun c => bool_decide (Container_Name c = StashContainer)) (Pod_Containers pod).

Section Waiting.
Variable api : ApiPackage.
Variable labels : LabelsPackage.
(** job.Spec.Selector, a member of the Job that the record above leaves out. *)
Variable Job_Selector : Job -> option LabelSelector.

(** The operation that WaitUntilSidecarAdded retries. *)
Definition sidecarAddedAttempt (namespace : string) (selector : option LabelSelector)
    : KProg (option error) :=
  match LabelSelectorAsSelector labels selector with
  | inr err => mret (Some err)
  | inl r =>
      pods ← kcall (Pods_List namespace (Selector_String labels r));
      match pods with
      | inr err => mret (Some err)
      | inl pods =>
          let podsToRestart := filter (fun pod => hasStashContainer pod = false) pods in
          if bool_decide (length podsToRestart = 0%nat) then mret None
          else
            deletePods namespace podsToRestart;;
            mret (Some (errors_New "check again"))
      end
  end.

Definition WaitUntilSidecarAdded (fuel : nat) (namespace : string)
    (selector : option LabelSelector) : KProg (option (option error)) :=
  backoff_Retry fuel 3 (sidecarAddedAttempt namespace selector).

(** The operation that WaitUntilSidecarRemoved retries. *)
Definition sidecarRemovedAttempt (namespace : string) (selector : option LabelSelector)
    : KProg (option error) :=
  match LabelSelectorAsSelector labels selector with
  | inr err => mret (Some err)
  | inl r =>
      pods ← kcall (Pods_List namespace (Selector_String labels r));
      match pods with
      | inr err => mret (Some err)
      | inl pods =>
          let podsToRestart := filter (fun pod => hasStashContainer pod = true) pods in
          if bool_decide (length podsToRestart = 0%nat) then mret None
          else
            deletePods namespace podsToRestart;;
            mret (Some (errors_New "check again"))
      end
  end.

Definition WaitUntilSidecarRemoved (fuel : nat) (namespace : string)
    (selector : option LabelSelector) : KProg (option (option error)) :=
  backoff_Retry fuel 3 (sidecarRemovedAttempt namespace selector).

Definition DeleteRecoveryJob (rec : Recovery) (job : Job) : KProg unit :=
  err ← kcall (Jobs_Delete (Job_Namespace job) (Job_Name job));
  match err with
  | Some err =>
      if negb (IsNotFound err) then
        kcall (kube_Eventf (Recovery_ObjectReference api rec) EventTypeWarning
                 EventReasonFailedToDelete
                 "Failed to delete Job. Reason: %v" [Error err]);;
        kcall (kube_Errorln err)
      else mret tt
  | None => mret tt
  end;;
  match LabelSelectorAsSelector labels (Job_Selector job) with
  | inr err => kcall (kube_Errorln err)
  | inl r =>
      err ← kcall (Pods_DeleteCollection (Job_Namespace job) (Selector_String labels r));
      match err with
      | Some err =>
          kcall (kube_Eventf (Recovery_ObjectReference api rec) EventTypeWarning
                   EventReasonFailedToDelete
                   "Failed to delete Pods. Reason: %v" [Error err]);;
          kcall (kube_Errorln err)
      | None => mret tt
      end
  end.

(** The condition that CheckRecoveryJob polls. *)
Definition jobSucceeded (job : Job) : KProg (bool * option error) :=
  obj ← kcall (Jobs_Get (Job_Namespace job) (Job_Name job));
  match obj with
  | inr err => mret (false, Some err)
  | inl succeeded => mret (bool_decide (0 < succeeded), None)
  end.

(** retryInterval is three minutes.  [None]: the polls of the model were
    used up before the wait ended. *)
Definition CheckRecoveryJob (fuel : nat) (rec : Recovery) (job : Job)
    : KProg (option unit) :=
  err ← wait_PollInfinite fuel 180 (jobSucceeded job);
  match err with
  | None => mret None
  | Some err =>
      match err with
      | Some err => kcall (kube_Errorln err)
      | None => mret tt
      end;;
      DeleteRecoveryJob rec job;;
      mret (Some tt)
  end.
End Waiting.

Definition DeleteConfigmapLock (namespace : string) (workload : LocalTypedReference)
    : KProg (option error) :=
  kcall (ConfigMaps_Delete namespace (GetConfigmapLockName workload)).

(** ** Predicates on the calls of the kubernetes client *)

Definition isPodsList (o : KubeOp) : bool :=
  match o with Pods_List _ _ => true | _ => false end.
Definition isPodsDelete (o : KubeOp) : bool :=
  match o with Pods_Delete _ _ => true | _ => false end.
Definition isPodsDeleteCollection (o : KubeOp) : bool :=
  match o with Pods_DeleteCollection _ _ => true | _ => false end.
Definition isJobsGet (o : KubeOp) : bool :=
  match o with Jobs_Get _ _ => true | _ => false end.
Definition isJobsDelete (o : KubeOp) : bool :=
  match o with Jobs_Delete _ _ => true | _ => false end.
Definition isKubeEvent (o : KubeOp) : bool :=
  match o with kube_Eventf _ _ _ _ _ => true | _ => false end.
Definition isSleep (o : KubeOp) : bool :=
  match o with kube_Sleep _ => true | _ => false end.

Definition countKube (P : KubeOp -> bool) (cs : list KubeCall) : nat :=
  length (filter (fun c => P (kubeOpOf c) = true) cs).

(** The pods that a Pods_List call returned, if the call is one and it
    succeeded. *)
Definition listedPods (c : KubeCall) : option (list Pod) :=
  match c with
  | KCalled (Pods_List _ _) (inl pods) => Some pods
  | _ => None
  end.

(** ** A pod store for the examples *)

(** Pods by namespace; a deleted pod comes back with the sidecar, as a pod
    that its controller recreates from a template that has been patched. *)
Record PodStore := mkPodStore {
  store_pods : list Pod;
  store_jobSucceeded : list Z          (* what successive Jobs_Get calls answer *)
}.

Definition sidecarContainer : Container :=
  mkContainer StashContainer "appscode/stash:0.6.2" (Some PullIfNotPresent) [] []
    (mkResourceRequirements ∅ ∅) [].

Definition appContainer : Container :=
  mkContainer "db" "postgres:9.6" None [] [] (mkResourceRequirements ∅ ∅) [].

Definition recreate (pod : Pod) : Pod :=
  mkPod (Pod_Name pod +:+ "-new") (Pod_Containers pod ++ [sidecarContainer]).

Definition fakeKube : KubeHandler PodStore :=
  fun o =>
    match o as o' return PodStore -> KubeResp o' * PodStore with
    | Pods_List _ _ => fun s => (inl (store_pods s), s)
    | Pods_Delete _ name => fun s =>
        (None,
         mkPodStore
           (map (fun pod => if bool_decide (Pod_Name pod = name) then recreate pod else pod)
              (store_pods s))
           (store_jobSucceeded s))
    | Pods_DeleteCollection _ _ => fun s => (None, mkPodStore [] (store_jobSucceeded s))
    | Jobs_Get _ name => fun s =>
        match store_jobSucceeded s with
        | n :: rest => (inl n, mkPodStore (store_pods s) rest)
        | [] => (inr (notFound name), s)
        end
    | Jobs_Delete _ _ => fun s => (None, s)
    | ConfigMaps_Delete _ _ => fun s => (None, s)
    | kube_Eventf _ _ _ _ _ => fun s => (tt, s)
    | kube_Errorln _ => fun s => (tt, s)
    | kube_Sleep _ => fun s => (tt, s)
    end.

Definition examplePodStore : PodStore :=
  mkPodStore [ mkPod "db-0" [appContainer];
               mkPod "db-1" [appContainer; sidecarContainer] ]
             [0; 0; 1].

Definition kresult {W A : Type} (x : A * W * list KubeCall) : A := x.1.1.
Definition kworld {W A : Type} (x : A * W * list KubeCall) : W := x.1.2.
Definition kcalls {W A : Type} (x : A * W * list KubeCall) : list KubeCall := x.2.

(** A Jobs_Delete call that failed with something else than NotFound, a
    Pods_DeleteCollection call that failed, and a Jobs_Get call that showed a
    job without success so far. *)
Definition jobDeleteFailed (c : KubeCall) : bool :=
  match c with
  | KCalled (Jobs_Delete _ _) (Some err) => negb (IsNotFound err)
  | _ => false
  end.

Definition podsDeleteFailed (c : KubeCall) : bool :=
  match c with
  | KCalled (Pods_DeleteCollection _ _) (Some _) => true
  | _ => false
  end.

Definition jobPending (c : KubeCall) : bool :=
  match c with
  | KCalled (Jobs_Get _ _) (inl succeeded) => negb (bool_decide (0 < succeeded))
  | _ => false
  end.

Definition countKubeCalls (P : KubeCall -> bool) (cs : list KubeCall) : nat :=
  length (filter (fun c => P c = true) cs).

(** A selector that exampleLabels refuses to convert. *)
Definition exampleBadSelector : LabelSelector := mkLabelSelector {[ "app" := "" ]}.
Definition exampleSelector : LabelSelector := mkLabelSelector {[ "app" := "db" ]}.

(** The error that a Jobs_Get call answered, if it answered one. *)
Definition pollError (c : KubeCall) : option error :=
  match c with
  | KCalled (Jobs_Get _ _) (inr err) => Some err
  | _ => None
  end.

(** A call that, if it is a Jobs_Get call, showed a job without success. *)
Definition pendingIfGet (c : KubeCall) : Prop :=
  isJobsGet (kubeOpOf c) = true -> jobPending c = true.

(** * Properties *)

(** ** Running programs *)

Lemma exec_bind {W A B : Type} (h : Handler W) (p : Prog A) (f : A -> Prog B) (w : W) :
  exec h (p ≫= f) w =
    let '(a, w1, cs1) := exec h p w in
    let '(b, w2, cs2) := exec h (f a) w1 in
    (b, w2, cs1 ++ cs2).
Proof.
  revert w. induction p as [a | o k IH]; intros w.
  - simpl. unfold mbind, Prog_bind. simpl. destruct (exec h (f a) w) as [[b w2] cs2].
    reflexivity.
  - unfold mbind, Prog_bind in *. simpl.
    destruct (h o w) as [r w1]. rewrite IH.
    destruct (exec h (k r) w1) as [[a w2] cs1].
    destruct (exec h (f a) w2) as [[b w3] cs2]. reflexivity.
Qed.

(** An observation of the world that no operation satisfying [quiet] changes
    is unchanged by a run in which every call was quiet. *)
Lemma exec_frame {W A X : Type} (h : Handler W) (quiet : Op -> bool) (obs : W -> X) :
  (forall o w, quiet o = true -> obs (h o w).2 = obs w) ->
  forall (p : Prog A) (w : W),
    Forall (fun c => quiet (opOf c) = true) (calls (exec h p w)) ->
    obs (world (exec h p w)) = obs w.
Proof.
  intros Hq p. induction p as [a | o k IH]; intros w Hall.
  - reflexivity.
  - unfold calls, world in *. simpl in *.
    specialize (Hq o w). destruct (h o w) as [r w1].
    specialize (IH r w1). destruct (exec h (k r) w1) as [[a w2] cs].
    simpl in *. inversion Hall as [| c cs' Hc Hcs]; subst.
    rewrite IH by assumption. apply Hq. exact Hc.
Qed.

Lemma countCalls_app (P : Call -> bool) (xs ys : list Call) :
  countCalls P (xs ++ ys) = (countCalls P xs + countCalls P ys)%nat.
Proof. unfold countCalls. rewrite filter_app, length_app. reflexivity. Qed.

Lemma countCalls_cons (P : Call -> bool) (c : Call) (cs : list Call) :
  countCalls P (c :: cs) = ((if P c then 1 else 0) + countCalls P cs)%nat.
Proof.
  unfold countCalls. rewrite filter_cons.
  destruct (P c); destruct (decide _); try congruence; reflexivity.
Qed.

(** ** runRecoveryJob *)

Ltac unfold_prog :=
  unfold mbind, mret, Prog_bind, Prog_ret, call in *; simpl in *.

(** C2: a Recovery whose phase is Succeeded or Running makes runRecoveryJob
    return nil at once: the world is left as it was and no call at all is
    made, so no Restic lookup, no Job creation, no phase write, no event. *)
Theorem runRecoveryJob_short_circuit
    {W : Type} (h : Handler W) (api : ApiPackage) (options : Options)
    (rec : Recovery) (w : W) :
  RecoveryStatus_Phase (Recovery_Status rec) = RecoverySucceeded
  \/ RecoveryStatus_Phase (Recovery_Status rec) = RecoveryRunning ->
  runRecoveryJob api options rec = Ret None
  /\ exec h (runRecoveryJob api options rec) w = (None, w, []).
Proof.
  intros Hphase. unfold runRecoveryJob.
  destruct Hphase as [-> | ->]; simpl; split; reflexivity.
Qed.

Lemma runRecoveryJob_short_circuit_witness :
  (RecoveryStatus_Phase
     (Recovery_Status (exampleRecoveryWith RecoveryRunning quantity_1Gi))
   = RecoverySucceeded
   \/ RecoveryStatus_Phase
        (Recovery_Status (exampleRecoveryWith RecoveryRunning quantity_1Gi))
      = RecoveryRunning)
  /\ exec fakeCluster
       (runRecoveryJob exampleApi exampleOptions
          (exampleRecoveryWith RecoveryRunning quantity_1Gi))
       exampleCluster
     = (None, exampleCluster, []).
Proof.
  split.
  - right. reflexivity.
  - apply (runRecoveryJob_short_circuit fakeCluster exampleApi exampleOptions
             (exampleRecoveryWith RecoveryRunning quantity_1Gi) exampleCluster).
    right. reflexivity.
Defined.

(** C6: for a Recovery that is not Succeeded or Running, when the Get of the
    referenced Restic fails, or gives a Restic that IsValid rejects,
    runRecoveryJob sets the phase of the Recovery to Failed, records a
    warning event against it and returns the error (which is not nil).  The
    calls are exactly the lookup followed by the three of the failure
    branch, so no Job is created. *)
Theorem runRecoveryJob_restic_missing_or_invalid
    {W : Type} (h : Handler W) (api : ApiPackage) (options : Options)
    (rec : Recovery) (w w1 : W) (r : Restic + error) (err : error) :
  RecoveryStatus_Phase (Recovery_Status rec) <> RecoverySucceeded ->
  RecoveryStatus_Phase (Recovery_Status rec) <> RecoveryRunning ->
  h (Restics_Get (Recovery_Namespace rec) (RecoverySpec_Restic (Recovery_Spec rec))) w
    = (r, w1) ->
  (r = inr err \/ exists restic, r = inl restic /\ Restic_IsValid api restic = Some err) ->
  let x := exec h (runRecoveryJob api options rec) w in
  result x = Some err
  /\ calls x =
       Called (Restics_Get (Recovery_Namespace rec)
                 (RecoverySpec_Restic (Recovery_Spec rec))) r
       :: failedCalls api rec err
  /\ Called (SetRecoveryStatusPhase rec RecoveryFailed) tt ∈ calls x
  /\ Called (recorder_Event (Recovery_ObjectReference api rec) EventTypeWarning
               EventReasonFailedToRecover (Error err)) tt ∈ calls x
  /\ countOps isJobsCreate (calls x) = 0%nat.
Proof.
  intros Hs Hr Hget Hbad x. subst x. unfold runRecoveryJob.
  rewrite !bool_decide_eq_false_2 by assumption. simpl.
  unfold_prog. rewrite Hget.
  assert (Hcalls :
    forall cs, cs = Called (Restics_Get (Recovery_Namespace rec)
                 (RecoverySpec_Restic (Recovery_Spec rec))) r
       :: failedCalls api rec err ->
    Called (SetRecoveryStatusPhase rec RecoveryFailed) tt ∈ cs
    /\ Called (recorder_Event (Recovery_ObjectReference api rec) EventTypeWarning
               EventReasonFailedToRecover (Error err)) tt ∈ cs
    /\ countOps isJobsCreate cs = 0%nat).
  { intros cs ->. unfold failedCalls. split; [|split].
    - rewrite !elem_of_cons. auto.
    - rewrite !elem_of_cons. auto.
    - unfold countOps. rewrite !countCalls_cons. destruct r; reflexivity. }
  destruct Hbad as [-> | (restic & -> & Hinv)]; simpl.
  - destruct (h (Log log_Errorln "" [Error err]) w1) as [[] w2].
    destruct (h (SetRecoveryStatusPhase rec RecoveryFailed) w2) as [[] w3].
    destruct (h (recorder_Event _ _ _ _) w3) as [[] w4]. simpl.
    split; [reflexivity|]. split; [reflexivity|]. apply Hcalls. reflexivity.
  - rewrite Hinv. simpl.
    destruct (h (Log log_Errorln "" [Error err]) w1) as [[] w2].
    destruct (h (SetRecoveryStatusPhase rec RecoveryFailed) w2) as [[] w3].
    destruct (h (recorder_Event _ _ _ _) w3) as [[] w4]. simpl.
    split; [reflexivity|]. split; [reflexivity|]. apply Hcalls. reflexivity.
Qed.

Lemma runRecoveryJob_restic_missing_or_invalid_witness :
  let x := exec fakeCluster (runRecoveryJob exampleApi exampleOptions exampleRecovery)
             emptyCluster in
  result x = Some (notFound "nightly")
  /\ calls x =
       Called (Restics_Get "default" "nightly") (inr (notFound "nightly"))
       :: failedCalls exampleApi exampleRecovery (notFound "nightly")
  /\ Called (SetRecoveryStatusPhase exampleRecovery RecoveryFailed) tt ∈ calls x
  /\ Called (recorder_Event (Recovery_ObjectReference exampleApi exampleRecovery)
               EventTypeWarning EventReasonFailedToRecover
               (Error (notFound "nightly"))) tt ∈ calls x
  /\ countOps isJobsCreate (calls x) = 0%nat.
Proof.
  apply (runRecoveryJob_restic_missing_or_invalid fakeCluster exampleApi exampleOptions
           exampleRecovery emptyCluster emptyCluster
           (inr (notFound "nightly")) (notFound "nightly")).
  - simpl. discriminate.
  - simpl. discriminate.
  - reflexivity.
  - left. reflexivity.
Defined.

Ltac step_exec h :=
  match goal with
  | |- context [h ?o ?w] =>
      let r := fresh "r" in
      let w' := fresh "w" in
      let E := fresh "E" in
      destruct (h o w) as [r w'] eqn:E; simpl in *
  end.

Ltac not_this_call H :=
  first
    [ apply (f_equal createError) in H; simpl in H; congruence
    | apply (f_equal opOf) in H; simpl in H; congruence ].

(** On the path where the Create call is answered by AlreadyExists the run
    consists of the lookup, the RBAC call when enabled, and the Create call,
    and the result is nil. *)
Lemma runRecoveryJob_already_exists_calls
    {W : Type} (h : Handler W) (api : ApiPackage) (options : Options)
    (rec : Recovery) (w : W) (ns : string) (job : Job) (err : error) :
  Called (Jobs_Create ns job) (inr err)
    ∈ calls (exec h (runRecoveryJob api options rec) w) ->
  IsAlreadyExists err = true ->
  result (exec h (runRecoveryJob api options rec) w) = None
  /\ exists restic,
       Restic_IsValid api restic = None
       /\ ns = Recovery_Namespace rec
       /\ job = submittedJob api options rec restic
       /\ calls (exec h (runRecoveryJob api options rec) w)
          = callsBeforeCreate api options rec restic
            ++ [ Called (Jobs_Create ns job) (inr err) ].
Proof.
  unfold runRecoveryJob, submittedJob, callsBeforeCreate, calls, result.
  intros Hin Hae.
  destruct (bool_decide _ || bool_decide _); simpl in *.
  { apply elem_of_nil in Hin. contradiction. }
  unfold_prog.
  destruct (h (Restics_Get _ _) w) as [[restic | e] w1]; simpl in *.
  2: { repeat step_exec h. rewrite !elem_of_cons in Hin.
       destruct Hin as [H | [H | [H | [H | H]]]];
         [not_this_call H ..| apply elem_of_nil in H; contradiction]. }
  destruct (Restic_IsValid api restic) as [e |] eqn:Hvalid; simpl in *.
  { repeat step_exec h. rewrite !elem_of_cons in Hin.
    destruct Hin as [H | [H | [H | [H | H]]]];
      [not_this_call H ..| apply elem_of_nil in H; contradiction]. }
  destruct (EnableRBAC options); simpl in *.
  - destruct (h (ensureRecoveryRBAC _ _) w1) as [[e |] w2]; simpl in *.
    { rewrite !elem_of_cons in Hin.
      destruct Hin as [H | [H | H]];
        [not_this_call H ..| apply elem_of_nil in H; contradiction]. }
    destruct (h (Jobs_Create _ _) w2) as [[j | e] w3]; simpl in *.
    { repeat step_exec h. rewrite !elem_of_cons in Hin.
      repeat (destruct Hin as [H | Hin]; [not_this_call H |]).
      apply elem_of_nil in Hin. contradiction. }
    destruct (IsAlreadyExists e) eqn:He; simpl in *.
    + rewrite !elem_of_cons in Hin.
      destruct Hin as [H | [H | [H | H]]];
        [not_this_call H | not_this_call H | | apply elem_of_nil in H; contradiction].
      pose proof (f_equal opOf H) as Hop. simpl in Hop.
      injection Hop as -> ->.
      apply (f_equal createError) in H. simpl in H. injection H as ->.
      split; [reflexivity|]. exists restic. auto.
    + repeat step_exec h. rewrite !elem_of_cons in Hin.
      repeat (destruct Hin as [H | Hin]; [not_this_call H |]).
      apply elem_of_nil in Hin. contradiction.
  - destruct (h (Jobs_Create _ _) w1) as [[j | e] w3]; simpl in *.
    { repeat step_exec h. rewrite !elem_of_cons in Hin.
      repeat (destruct Hin as [H | Hin]; [not_this_call H |]).
      apply elem_of_nil in Hin. contradiction. }
    destruct (IsAlreadyExists e) eqn:He; simpl in *.
    + rewrite !elem_of_cons in Hin.
      destruct Hin as [H | [H | H]];
        [not_this_call H | | apply elem_of_nil in H; contradiction].
      pose proof (f_equal opOf H) as Hop. simpl in Hop.
      injection Hop as -> ->.
      apply (f_equal createError) in H. simpl in H. injection H as ->.
      split; [reflexivity|]. exists restic. auto.
    + repeat step_exec h. rewrite !elem_of_cons in Hin.
      repeat (destruct Hin as [H | Hin]; [not_this_call H |]).
      apply elem_of_nil in Hin. contradiction.
Qed.

Lemma CreateRecoveryJob_Name (api : ApiPackage) (rec : Recovery) (restic : Restic)
    (tag : string) :
  Job_Name (CreateRecoveryJob api rec restic tag) = "stash-" +:+ Recovery_Name rec.
Proof. unfold CreateRecoveryJob. destruct (Restic_Local restic); reflexivity. Qed.

Lemma CreateRecoveryJob_Namespace (api : ApiPackage) (rec : Recovery) (restic : Restic)
    (tag : string) :
  Job_Namespace (CreateRecoveryJob api rec restic tag) = Recovery_Namespace rec.
Proof. unfold CreateRecoveryJob. destruct (Restic_Local restic); reflexivity. Qed.

(** Whatever the environment answers, the only job runRecoveryJob asks to
    create for a Recovery is stash-NAME in the namespace of the Recovery. *)
Lemma runRecoveryJob_createsOnly (api : ApiPackage) (options : Options) (rec : Recovery) :
  createsOnly (Recovery_Namespace rec) ("stash-" +:+ Recovery_Name rec)
    (runRecoveryJob api options rec).
Proof.
  unfold createsOnly, runRecoveryJob.
  destruct (bool_decide _ || bool_decide _); simpl; [exact I|].
  unfold_prog. split; [exact I|]. intros [restic | e]; simpl.
  2: { repeat (split; [try exact I|]; intros ?). exact I. }
  destruct (Restic_IsValid api restic); simpl.
  { repeat (split; [try exact I|]; intros ?). exact I. }
  destruct (EnableRBAC options); simpl.
  - split; [exact I|]. intros [e |]; simpl; [exact I|].
    split; [split; [reflexivity | apply CreateRecoveryJob_Name]|].
    intros [j | e]; simpl.
    + repeat (split; [try exact I|]; intros ?). exact I.
    + destruct (IsAlreadyExists e); simpl; [exact I|].
      repeat (split; [try exact I|]; intros ?). exact I.
  - split; [split; [reflexivity | apply CreateRecoveryJob_Name]|].
    intros [j | e]; simpl.
    + repeat (split; [try exact I|]; intros ?). exact I.
    + destruct (IsAlreadyExists e); simpl; [exact I|].
      repeat (split; [try exact I|]; intros ?). exact I.
Qed.

(** ** At most one job

    The API server is taken by its contract: a create succeeds only while no
    job of that name exists in the namespace, the job exists afterwards, and
    none of the controller's operations removes a job. *)
Section JobStore.
Context {W : Type} (h : Handler W) (present : W -> string -> string -> bool).

Hypothesis create_fresh :
  forall ns job w j w',
    h (Jobs_Create ns job) w = (inl j, w') -> present w ns (Job_Name job) = false.
Hypothesis create_stores :
  forall ns job w j w',
    h (Jobs_Create ns job) w = (inl j, w') -> present w' ns (Job_Name job) = true.
Hypothesis jobs_stay :
  forall o w ns name, present w ns name = true -> present (h o w).2 ns name = true.

Lemma exec_jobs_stay {A : Type} (p : Prog A) (w : W) (ns name : string) :
  present w ns name = true -> present (world (exec h p w)) ns name = true.
Proof.
  revert w. induction p as [a | o k IH]; intros w Hp; [exact Hp|].
  unfold world in *. simpl.
  pose proof (jobs_stay o w ns name Hp) as Hstay.
  destruct (h o w) as [r w1]. specialize (IH r w1 Hstay).
  destruct (exec h (k r) w1) as [[a w2] cs]. exact IH.
Qed.

Lemma createsOnly_once {A : Type} (ns name : string) (p : Prog A) :
  createsOnly ns name p ->
  forall w,
    (present w ns name = true ->
       countCalls isJobCreated (calls (exec h p w)) = 0%nat)
    /\ (countCalls isJobCreated (calls (exec h p w)) <= 1)%nat
    /\ (countCalls isJobCreated (calls (exec h p w)) = 1%nat ->
          present (world (exec h p w)) ns name = true).
Proof.
  unfold createsOnly. induction p as [a | o k IH]; intros Hco w.
  - unfold calls, countCalls. simpl. repeat split; lia.
  - destruct Hco as [Hop Hk]. unfold calls, world in *. simpl.
    destruct (h o w) as [r w1] eqn:E.
    specialize (IH r (Hk r) w1).
    pose proof (exec_jobs_stay (k r) w1 ns name) as Hkeep.
    unfold world in Hkeep.
    destruct (exec h (k r) w1) as [[a w2] cs]. simpl in *.
    rewrite countCalls_cons.
    destruct IH as (IH0 & IH1 & IH2).
    destruct (isJobCreated (Called o r)) eqn:Hc.
    + destruct o; simpl in Hc; try discriminate.
      destruct r as [j | e]; [|discriminate].
      destruct Hop as [-> <-].
      pose proof (create_fresh _ _ _ _ _ E) as Hfresh.
      pose proof (create_stores _ _ _ _ _ E) as Hstored.
      rewrite (IH0 Hstored). repeat split; try lia.
      * intros Hp. congruence.
      * intros _. apply Hkeep. exact Hstored.
    + simpl. repeat split; try assumption.
      intros Hp. apply IH0.
      pose proof (jobs_stay o w ns name Hp) as Hstay. rewrite E in Hstay. exact Hstay.
Qed.

Lemma execAll_createsOnly_once {A : Type} (ns name : string) (ps : list (Prog A)) :
  Forall (createsOnly ns name) ps ->
  forall w,
    (present w ns name = true -> countCalls isJobCreated (execAll h ps w).2 = 0%nat)
    /\ (countCalls isJobCreated (execAll h ps w).2 <= 1)%nat.
Proof.
  induction 1 as [| p ps Hp Hps IH]; intros w.
  - unfold countCalls. simpl. split; [reflexivity | lia].
  - simpl.
    pose proof (createsOnly_once ns name p Hp w) as (H0 & H1 & H2).
    pose proof (exec_jobs_stay p w ns name) as Hkeep.
    unfold calls, world in *.
    destruct (exec h p w) as [[a w1] cs1]. simpl in *.
    destruct (IH w1) as [IH0 IH1].
    destruct (execAll h ps w1) as [w2 cs2]. simpl in *.
    rewrite countCalls_app. split.
    + intros Hpres. rewrite (H0 Hpres), (IH0 (Hkeep Hpres)). reflexivity.
    + destruct (decide (countCalls isJobCreated cs1 = 1%nat)) as [E1 | NE1].
      * rewrite (IH0 (H2 E1)). lia.
      * lia.
Qed.

(** C1: when the Create call for the Recovery's job is answered by an
    already-exists error, runRecoveryJob returns nil: no error reaches the
    queue layer, no call sets the phase (to Failed or otherwise) and no event,
    warning or other, is recorded.  As a consequence, with an API server that
    refuses to create a job whose name is taken, processing any number of
    versions of one Recovery, one after the other, creates at most one Job. *)
Theorem runRecoveryJob_already_exists_is_success
    (api : ApiPackage) (options : Options) :
  (forall (rec : Recovery) (w : W) (ns : string) (job : Job) (err : error),
     Called (Jobs_Create ns job) (inr err)
       ∈ calls (exec h (runRecoveryJob api options rec) w) ->
     IsAlreadyExists err = true ->
     result (exec h (runRecoveryJob api options rec) w) = None
     /\ (Called (SetRecoveryStatusPhase rec RecoveryFailed) tt
          ∉ calls (exec h (runRecoveryJob api options rec) w))
     /\ countOps isSetPhase (calls (exec h (runRecoveryJob api options rec) w)) = 0%nat
     /\ countOps (isEventOfType EventTypeWarning)
          (calls (exec h (runRecoveryJob api options rec) w)) = 0%nat
     /\ countOps isEvent (calls (exec h (runRecoveryJob api options rec) w)) = 0%nat)
  /\ (forall (rec : Recovery) (versions : list Recovery) (w : W),
        Forall (fun r => Recovery_Namespace r = Recovery_Namespace rec
                         /\ Recovery_Name r = Recovery_Name rec) versions ->
        (countCalls isJobCreated
           (execAll h (map (runRecoveryJob api options) versions) w).2 <= 1)%nat).
Proof.
  split.
  - intros rec w ns job err Hin Hae.
    destruct (runRecoveryJob_already_exists_calls h api options rec w ns job err Hin Hae)
      as (Hres & restic & _ & _ & _ & Hcalls).
    split; [exact Hres|]. rewrite Hcalls. unfold callsBeforeCreate.
    split; [|split; [|split]].
    + intros Hmem. rewrite elem_of_app, !elem_of_cons in Hmem.
      destruct Hmem as [[H | H] | [H | H]].
      * apply (f_equal opOf) in H. discriminate H.
      * destruct (EnableRBAC options).
        -- rewrite elem_of_cons in H. destruct H as [H | H].
           ++ apply (f_equal opOf) in H. discriminate H.
           ++ apply elem_of_nil in H. contradiction.
        -- apply elem_of_nil in H. contradiction.
      * apply (f_equal opOf) in H. discriminate H.
      * apply elem_of_nil in H. contradiction.
    + unfold countOps. destruct (EnableRBAC options); reflexivity.
    + unfold countOps. destruct (EnableRBAC options); reflexivity.
    + unfold countOps. destruct (EnableRBAC options); reflexivity.
  - intros rec versions w Hsame.
    apply (execAll_createsOnly_once (Recovery_Namespace rec)
             ("stash-" +:+ Recovery_Name rec)).
    apply Forall_map. eapply Forall_impl; [exact Hsame|].
    intros r [Hns Hname]. simpl. rewrite <- Hns, <- Hname.
    apply runRecoveryJob_createsOnly.
Qed.
End JobStore.

(** The stand-in cluster keeps the contract of the job store. *)
Lemma fakeCluster_create_fresh (ns : string) (job : Job) (w : Cluster) (j : Job)
    (w' : Cluster) :
  fakeCluster (Jobs_Create ns job) w = (inl j, w') ->
  jobExists w ns (Job_Name job) = false.
Proof. simpl. destruct (jobExists w ns (Job_Name job)); [discriminate | reflexivity]. Qed.

Lemma fakeCluster_create_stores (ns : string) (job : Job) (w : Cluster) (j : Job)
    (w' : Cluster) :
  fakeCluster (Jobs_Create ns job) w = (inl j, w') ->
  jobExists w' ns (Job_Name job) = true.
Proof.
  simpl. destruct (jobExists w ns (Job_Name job)); [discriminate|].
  intros [= _ <-]. unfold jobExists. apply bool_decide_eq_true_2. simpl.
  apply Exists_app. right. constructor. simpl. auto.
Qed.

Lemma fakeCluster_keeps_jobs (o : Op) (w : Cluster) :
  exists more, cluster_jobs (fakeCluster o w).2 = cluster_jobs w ++ more.
Proof.
  destruct o; simpl;
    repeat match goal with
           | |- context [match ?x with _ => _ end] => destruct x
           end;
    simpl; try (exists []; rewrite app_nil_r; reflexivity).
  eexists. reflexivity.
Qed.

Lemma fakeCluster_jobs_stay (o : Op) (w : Cluster) (ns name : string) :
  jobExists w ns name = true -> jobExists (fakeCluster o w).2 ns name = true.
Proof.
  unfold jobExists. intros H. apply bool_decide_eq_true_1 in H.
  apply bool_decide_eq_true_2.
  destruct (fakeCluster_keeps_jobs o w) as [more ->].
  apply Exists_app. left. exact H.
Qed.

Lemma runRecoveryJob_already_exists_is_success_witness :
  (result (exec fakeCluster (runRecoveryJob exampleApi exampleOptions exampleRecovery)
             exampleClusterWithJob) = None
   /\ (Called (SetRecoveryStatusPhase exampleRecovery RecoveryFailed) tt
         ∉ calls (exec fakeCluster
                    (runRecoveryJob exampleApi exampleOptions exampleRecovery)
                    exampleClusterWithJob))
   /\ countOps isSetPhase
        (calls (exec fakeCluster
                  (runRecoveryJob exampleApi exampleOptions exampleRecovery)
                  exampleClusterWithJob)) = 0%nat
   /\ countOps (isEventOfType EventTypeWarning)
        (calls (exec fakeCluster
                  (runRecoveryJob exampleApi exampleOptions exampleRecovery)
                  exampleClusterWithJob)) = 0%nat
   /\ countOps isEvent
        (calls (exec fakeCluster
                  (runRecoveryJob exampleApi exampleOptions exampleRecovery)
                  exampleClusterWithJob)) = 0%nat)
  /\ (countCalls isJobCreated
        (execAll fakeCluster
           (map (runRecoveryJob exampleApi exampleOptions)
              [ exampleRecovery; exampleRecovery;
                exampleRecoveryWith RecoveryFailed quantity_2Gi ])
           exampleCluster).2 <= 1)%nat.
Proof.
  destruct (runRecoveryJob_already_exists_is_success fakeCluster jobExists
              fakeCluster_create_fresh fakeCluster_create_stores fakeCluster_jobs_stay
              exampleApi exampleOptions) as [Hone Hmany].
  split.
  - apply (Hone exampleRecovery exampleClusterWithJob "default"
             (CreateRecoveryJob exampleApi exampleRecovery exampleRestic "0.6.2")
             (alreadyExists "stash-restore")).
    + vm_compute. apply list_elem_of_further, list_elem_of_here.
    + reflexivity.
  - apply (Hmany exampleRecovery). repeat constructor.
Defined.

(** C10: when the Create call is answered by an already-exists error,
    runRecoveryJob returns right after it, before the success path: the
    Create call is the last call of the run, the phase is not advanced to
    Running (no call sets a phase), no normal event is recorded, and anything
    that only phase writes can change, the stored phase of the Recovery in
    particular, is as it was before the run. *)
Theorem runRecoveryJob_already_exists_leaves_phase
    {W X : Type} (h : Handler W) (phaseOf : W -> X)
    (api : ApiPackage) (options : Options)
    (rec : Recovery) (w : W) (ns : string) (job : Job) (err : error) :
  (forall o w, isSetPhase o = false -> phaseOf (h o w).2 = phaseOf w) ->
  Called (Jobs_Create ns job) (inr err)
    ∈ calls (exec h (runRecoveryJob api options rec) w) ->
  IsAlreadyExists err = true ->
  let x := exec h (runRecoveryJob api options rec) w in
  last (calls x) = Some (Called (Jobs_Create ns job) (inr err))
  /\ (Called (SetRecoveryStatusPhase rec RecoveryRunning) tt ∉ calls x)
  /\ countOps isSetPhase (calls x) = 0%nat
  /\ countOps (isEventOfType EventTypeNormal) (calls x) = 0%nat
  /\ phaseOf (world x) = phaseOf w.
Proof.
  intros Hframe Hin Hae x. subst x.
  destruct (runRecoveryJob_already_exists_calls h api options rec w ns job err Hin Hae)
    as (Hres & restic & _ & _ & _ & Hcalls).
  assert (Hquiet : Forall (fun c => negb (isSetPhase (opOf c)) = true)
                     (calls (exec h (runRecoveryJob api options rec) w))).
  { rewrite Hcalls. unfold callsBeforeCreate.
    destruct (EnableRBAC options); repeat constructor. }
  split; [|split; [|split; [|split]]].
  - rewrite Hcalls. apply last_snoc.
  - intros Hmem. rewrite Forall_forall in Hquiet.
    specialize (Hquiet _ Hmem). discriminate Hquiet.
  - rewrite Hcalls. unfold countOps, callsBeforeCreate.
    destruct (EnableRBAC options); reflexivity.
  - rewrite Hcalls. unfold countOps, callsBeforeCreate.
    destruct (EnableRBAC options); reflexivity.
  - apply (exec_frame h (fun o => negb (isSetPhase o)) phaseOf); [|exact Hquiet].
    intros o w' Ho. apply Hframe. destruct (isSetPhase o); [discriminate | reflexivity].
Qed.

Lemma fakeCluster_phase_frame (o : Op) (w : Cluster) :
  isSetPhase o = false ->
  cluster_recoveries (fakeCluster o w).2 = cluster_recoveries w.
Proof.
  destruct o; simpl; try discriminate; intros _;
    repeat match goal with
           | |- context [match ?x with _ => _ end] => destruct x
           end;
    reflexivity.
Qed.

Lemma runRecoveryJob_already_exists_leaves_phase_witness :
  let rec := exampleRecoveryWith RecoveryFailed quantity_1Gi in
  let job := CreateRecoveryJob exampleApi rec exampleRestic "0.6.2" in
  let x := exec fakeCluster (runRecoveryJob exampleApi exampleOptions rec)
             exampleClusterAfterFailure in
  last (calls x) = Some (Called (Jobs_Create "default" job)
                           (inr (alreadyExists "stash-restore")))
  /\ (Called (SetRecoveryStatusPhase rec RecoveryRunning) tt ∉ calls x)
  /\ countOps isSetPhase (calls x) = 0%nat
  /\ countOps (isEventOfType EventTypeNormal) (calls x) = 0%nat
  /\ cluster_recoveries (world x) = [ exampleRecoveryWith RecoveryFailed quantity_1Gi ].
Proof.
  apply (runRecoveryJob_already_exists_leaves_phase fakeCluster cluster_recoveries
           exampleApi exampleOptions (exampleRecoveryWith RecoveryFailed quantity_1Gi)
           exampleClusterAfterFailure "default"
           (CreateRecoveryJob exampleApi (exampleRecoveryWith RecoveryFailed quantity_1Gi)
              exampleRestic "0.6.2")
           (alreadyExists "stash-restore")).
  - exact fakeCluster_phase_frame.
  - vm_compute. apply list_elem_of_further, list_elem_of_here.
  - reflexivity.
Defined.

(** ** processNextRecovery *)

Lemma exec_allOps {W A : Type} (h : Handler W) (P : Op -> Prop) (p : Prog A) :
  allOps P p -> forall w, Forall (fun c => P (opOf c)) (calls (exec h p w)).
Proof.
  induction p as [a | o k IH]; intros Hall w.
  - constructor.
  - destruct Hall as [Ho Hk]. unfold calls in *. simpl.
    destruct (h o w) as [r w1]. specialize (IH r (Hk r) w1).
    destruct (exec h (k r) w1) as [[a w2] cs]. constructor; assumption.
Qed.

Lemma countOps_none (P : Op -> bool) (cs : list Call) :
  Forall (fun c => P (opOf c) = false) cs -> countOps P cs = 0%nat.
Proof.
  unfold countOps. induction 1 as [| c cs Hc _ IH]; [reflexivity|].
  rewrite countCalls_cons, Hc. exact IH.
Qed.

(** The reconcile itself never touches the queue layer. *)
Lemma runRecoveryJob_not_queue (api : ApiPackage) (options : Options) (rec : Recovery) :
  allOps (fun o => isQueueLayer o = false) (runRecoveryJob api options rec).
Proof.
  unfold runRecoveryJob.
  destruct (bool_decide _ || bool_decide _); simpl; [exact I|].
  unfold_prog. split; [reflexivity|]. intros [restic | e]; simpl.
  2: { repeat (split; [try reflexivity|]; intros ?). exact I. }
  destruct (Restic_IsValid api restic); simpl.
  { repeat (split; [try reflexivity|]; intros ?). exact I. }
  destruct (EnableRBAC options); simpl.
  - split; [reflexivity|]. intros [e |]; simpl; [exact I|].
    split; [reflexivity|]. intros [j | e]; simpl.
    + repeat (split; [try reflexivity|]; intros ?). exact I.
    + destruct (IsAlreadyExists e); simpl; [exact I|].
      repeat (split; [try reflexivity|]; intros ?). exact I.
  - split; [reflexivity|]. intros [j | e]; simpl.
    + repeat (split; [try reflexivity|]; intros ?). exact I.
    + destruct (IsAlreadyExists e); simpl; [exact I|].
      repeat (split; [try reflexivity|]; intros ?). exact I.
Qed.

Lemma runRecoveryInjector_not_queue (api : ApiPackage) (options : Options) (key : string) :
  allOps (fun o => isQueueLayer o = false) (runRecoveryInjector api options key).
Proof.
  unfold runRecoveryInjector. unfold_prog. split; [reflexivity|].
  intros [obj [err |]]; simpl.
  - split; [reflexivity|]. intros _. exact I.
  - destruct obj as [d |]; simpl.
    + split; [reflexivity|]. intros _. apply runRecoveryJob_not_queue.
    + split; [reflexivity|]. intros _. exact I.
Qed.

(** C3: a key is dequeued and its reconcile returns an error.  With [n] the
    requeue count that the queue reports for the key, processNextRecovery
    re-adds the key through the rate limiter if and only if [n] is below
    MaxNumRequeues, and then neither forgets the key nor reports the error;
    otherwise the key is forgotten, it is put back on the queue by no call,
    and the error is handed to the process-wide error handler exactly once.
    Either way the key is marked done last and the function returns true. *)
Theorem processNextRecovery_bounded_retry
    {W : Type} (h : Handler W) (api : ApiPackage) (options : Options)
    (w w1 w2 w4 : W) (key : string) (err : error) (cs : list Call) (n : Z) :
  h recQueue_Get w = ((key, false), w1) ->
  exec h (runRecoveryInjector api options key) w1 = (Some err, w2, cs) ->
  h (recQueue_NumRequeues key)
    (h (Log log_Errorf "Failed to process Recovery %v. Reason: %s" [key; Error err])
       w2).2 = (n, w4) ->
  let x := exec h (processNextRecovery api options) w in
  result x = true
  /\ last (calls x) = Some (Called (recQueue_Done key) tt)
  /\ (countOps (isAddRateLimited key) (calls x) = 1%nat <-> n < MaxNumRequeues options)
  /\ (n < MaxNumRequeues options ->
        countOps isEnqueue (calls x) = 1%nat
        /\ countOps (isForget key) (calls x) = 0%nat
        /\ countOps isHandleError (calls x) = 0%nat)
  /\ (MaxNumRequeues options <= n ->
        countOps isEnqueue (calls x) = 0%nat
        /\ countOps (isForget key) (calls x) = 1%nat
        /\ countOps isHandleError (calls x) = 1%nat
        /\ Called (runtime_HandleError err) tt ∈ calls x).
Proof.
  intros Hget Hinj Hnum x. subst x.
  pose proof (exec_allOps h _ _ (runRecoveryInjector_not_queue api options key) w1)
    as Hcs.
  rewrite Hinj in Hcs. unfold calls in Hcs. simpl in Hcs.
  assert (Hnone : forall P : Op -> bool,
            (forall o, P o = true -> isQueueLayer o = true) -> countOps P cs = 0%nat).
  { intros P HP. apply countOps_none. eapply Forall_impl; [exact Hcs|].
    intros c Hc. simpl in Hc. destruct (P (opOf c)) eqn:E; [|reflexivity].
    rewrite (HP _ E) in Hc. discriminate. }
  assert (Hadd : countOps (isAddRateLimited key) cs = 0%nat).
  { apply Hnone. intros []; simpl; congruence. }
  assert (Henq : countOps isEnqueue cs = 0%nat).
  { apply Hnone. intros []; simpl; congruence. }
  assert (Hfor : countOps (isForget key) cs = 0%nat).
  { apply Hnone. intros []; simpl; congruence. }
  assert (Hrep : countOps isHandleError cs = 0%nat).
  { apply Hnone. intros []; simpl; congruence. }
  unfold processNextRecovery.
  rewrite exec_bind. cbn [exec call]. rewrite Hget. cbn [exec].
  rewrite exec_bind, exec_bind, Hinj. unfold_prog.
  destruct (h (Log log_Errorf _ _) w2) as [[] w3]. simpl in Hnum. rewrite Hnum.
  unfold result, calls. unfold countOps in *.
  destruct (bool_decide (n < MaxNumRequeues options)) eqn:Hlt; simpl.
  - apply bool_decide_eq_true_1 in Hlt.
    repeat step_exec h. repeat match goal with u : unit |- _ => destruct u end.
    rewrite !countCalls_cons, !countCalls_app, !countCalls_cons.
    rewrite Hadd, Henq, Hfor, Hrep. simpl.
    rewrite bool_decide_eq_true_2 by reflexivity.
    split; [reflexivity|]. split.
    { rewrite app_comm_cons. apply last_snoc. }
    split; [split; [intros _; exact Hlt | reflexivity]|].
    split; [intros _; repeat split; reflexivity | intros Hge; lia].
  - apply bool_decide_eq_false_1 in Hlt.
    repeat step_exec h. repeat match goal with u : unit |- _ => destruct u end.
    rewrite !countCalls_cons, !countCalls_app, !countCalls_cons.
    rewrite Hadd, Henq, Hfor, Hrep. simpl.
    rewrite bool_decide_eq_true_2 by reflexivity.
    split; [reflexivity|]. split.
    { rewrite app_comm_cons. apply last_snoc. }
    split; [split; [discriminate | intros Hlt'; contradiction]|].
    split; [intros Hlt'; contradiction|].
    intros _. split; [reflexivity|]. split; [reflexivity|]. split; [reflexivity|].
    apply elem_of_cons. right. apply elem_of_app. left. apply elem_of_app. right.
    rewrite !elem_of_cons. auto 10.
Qed.

Lemma processNextRecovery_bounded_retry_witness :
  let x := exec fakeCluster (processNextRecovery exampleApi exampleOptions)
             (exampleClusterNoPolicy 5) in
  result x = true
  /\ last (calls x) = Some (Called (recQueue_Done "default/restore") tt)
  /\ (countOps (isAddRateLimited "default/restore") (calls x) = 1%nat
      <-> 5 < MaxNumRequeues exampleOptions)
  /\ (5 < MaxNumRequeues exampleOptions ->
        countOps isEnqueue (calls x) = 1%nat
        /\ countOps (isForget "default/restore") (calls x) = 0%nat
        /\ countOps isHandleError (calls x) = 0%nat)
  /\ (MaxNumRequeues exampleOptions <= 5 ->
        countOps isEnqueue (calls x) = 0%nat
        /\ countOps (isForget "default/restore") (calls x) = 1%nat
        /\ countOps isHandleError (calls x) = 1%nat
        /\ Called (runtime_HandleError (notFound "nightly")) tt ∈ calls x).
Proof.
  eapply (processNextRecovery_bounded_retry fakeCluster exampleApi exampleOptions
            (exampleClusterNoPolicy 5) _ _ _ "default/restore"
            (notFound "nightly") _ 5).
  - vm_compute. reflexivity.
  - vm_compute. reflexivity.
  - vm_compute. reflexivity.
Defined.

(** The whole retry history of a key whose reconcile keeps failing, on the
    stand-in cluster with MaxNumRequeues = 5: the key is processed six times,
    re-added five times, then dropped, and the error is reported once. *)
Example runRecoveryWatcher_drops_after_max :
  let x := exec fakeCluster (runRecoveryWatcher exampleApi exampleOptions 20)
             (exampleClusterNoPolicy 0) in
  countOps (isAddRateLimited "default/restore") (calls x) = 5%nat
  /\ countOps isHandleError (calls x) = 1%nat
  /\ countOps isResticsGet (calls x) = 6%nat
  /\ cluster_queue (world x) = []
  /\ cluster_reported (world x) = [ notFound "nightly" ].
Proof. vm_compute. repeat split; reflexivity. Qed.

(** ** WorkloadExists *)




(** For a recognized kind the answer of the client is the result; for a
    reference that Canonicalize rejects, its error is. *)
Lemma WorkloadExists_recognized_or_rejected
    {W : Type} (h : Handler W) (api : ApiPackage) (namespace : string)
    (workload canonical : LocalTypedReference) (w : W) (err : error) :
  (Canonicalize api workload = (canonical, Some err) ->
     exec h (WorkloadExists api namespace workload) w = (Some err, w, []))
  /\ (Canonicalize api workload = (canonical, None) ->
      LocalTypedReference_Kind canonical = KindDeployment api ->
      result (exec h (WorkloadExists api namespace workload) w)
      = (h (Workload_Get AppsV1beta1_Deployments namespace
              (LocalTypedReference_Name canonical)) w).1).
Proof.
  split.
  - intros Hc. unfold WorkloadExists. rewrite Hc. reflexivity.
  - intros Hc Hk. unfold WorkloadExists. rewrite Hc.
    rewrite bool_decide_eq_true_2 by exact Hk.
    unfold call, result. simpl. destruct (h _ w) as [r w1]. reflexivity.
Qed.

(** ** CreateSidecarContainer *)

Lemma Container_appendVolumeMounts_nil (c : Container) :
  Container_appendVolumeMounts c [] = c.
Proof. destruct c. unfold Container_appendVolumeMounts. simpl. rewrite app_nil_r. done. Qed.

Lemma Container_appendVolumeMounts_app (c : Container) (xs ys : list VolumeMount) :
  Container_appendVolumeMounts (Container_appendVolumeMounts c xs) ys
  = Container_appendVolumeMounts c (xs ++ ys).
Proof. unfold Container_appendVolumeMounts. simpl. rewrite app_assoc. reflexivity. Qed.

(** The loop over the mounts of the policy appends their read-only forms in
    order. *)
Lemma fold_appendVolumeMounts (srcVols : list VolumeMount) (c : Container) :
  fold_left
    (fun sidecar srcVol => Container_appendVolumeMounts sidecar [readOnlyMount srcVol])
    srcVols c
  = Container_appendVolumeMounts c (map readOnlyMount srcVols).
Proof.
  revert c. induction srcVols as [| v vs IH]; intros c; simpl.
  - symmetry. apply Container_appendVolumeMounts_nil.
  - rewrite IH, Container_appendVolumeMounts_app. reflexivity.
Qed.

(** C8: the sidecar container has the fixed name stash; its image tag is the
    version-tag annotation of the policy when present and the given tag
    otherwise; with the effective tag canary it is always pulled and logs at
    --v=5, with any other tag it is pulled if not present and logs at --v=3;
    its volume mounts are the scratch and pod-metadata mounts, then every
    mount of the policy made read-only, then, exactly when the backend is
    local, a mount named stash-local at the path of the backend. *)
Theorem CreateSidecarContainer_spec
    (api : ApiPackage) (r : Restic) (tag : string) (workload : LocalTypedReference) :
  let c := CreateSidecarContainer api r tag workload in
  let tag' := effectiveTag api r tag in
  Container_Name c = "stash"
  /\ (forall v, Restic_Annotations r !! VersionTag api = Some v -> tag' = v)
  /\ (Restic_Annotations r !! VersionTag api = None -> tag' = tag)
  /\ Container_Image c = ImageOperator +:+ ":" +:+ tag'
  /\ Container_ImagePullPolicy c
     = Some (if decide (tag' = "canary") then PullAlways else PullIfNotPresent)
  /\ Container_Args c
     = [ "schedule";
         "--restic-name=" +:+ Restic_Name r;
         "--workload-kind=" +:+ LocalTypedReference_Kind workload;
         "--workload-name=" +:+ LocalTypedReference_Name workload;
         if decide (tag' = "canary") then "--v=5" else "--v=3" ]
  /\ Container_VolumeMounts c
     = [ scratchMount; podinfoMount ]
       ++ map readOnlyMount (ResticSpec_VolumeMounts (Restic_Spec r))
       ++ match Restic_Local r with
          | Some l => [ localMount (LocalSpec_Path l) ]
          | None => []
          end
  /\ Forall (fun m => VolumeMount_ReadOnly m = true)
       (map readOnlyMount (ResticSpec_VolumeMounts (Restic_Spec r))).
Proof.
  intros c tag'. subst c tag'. unfold CreateSidecarContainer, effectiveTag.
  fold readOnlyMount. rewrite fold_appendVolumeMounts.
  split; [|split; [|split; [|split; [|split; [|split; [|split]]]]]].
  - destruct (Restic_Local r), (decide _); reflexivity.
  - intros v ->. reflexivity.
  - intros ->. reflexivity.
  - destruct (Restic_Annotations r !! VersionTag api);
      destruct (Restic_Local r), (decide _); reflexivity.
  - destruct (Restic_Annotations r !! VersionTag api); simpl;
      destruct (Restic_Local r), (decide _); reflexivity.
  - destruct (Restic_Annotations r !! VersionTag api); simpl;
      destruct (Restic_Local r), (decide _); reflexivity.
  - destruct (Restic_Annotations r !! VersionTag api); simpl;
      destruct (Restic_Local r), (decide _); simpl;
      rewrite ?app_nil_r; reflexivity.
  - apply Forall_map. apply Forall_forall. intros m _. reflexivity.
Qed.

Example CreateSidecarContainer_canary :
  let c := CreateSidecarContainer exampleApi exampleCanaryRestic "0.6.2"
             (mkLocalTypedReference "Deployment" "db") in
  Container_Image c = "appscode/stash:canary"
  /\ Container_ImagePullPolicy c = Some PullAlways
  /\ Container_Args c
     = [ "schedule"; "--restic-name=nightly"; "--workload-kind=Deployment";
         "--workload-name=db"; "--v=5" ]
  /\ Container_VolumeMounts c
     = [ scratchMount; podinfoMount;
         mkVolumeMount "data" true "/source/data" "";
         localMount "/repo" ].
Proof. vm_compute. repeat split; reflexivity. Qed.

Example CreateSidecarContainer_release :
  let c := CreateSidecarContainer exampleApi exampleInvalidRestic "0.6.2"
             (mkLocalTypedReference "Deployment" "db") in
  Container_Image c = "appscode/stash:0.6.2"
  /\ Container_ImagePullPolicy c = Some PullIfNotPresent
  /\ Container_Args c
     = [ "schedule"; "--restic-name=nightly"; "--workload-kind=Deployment";
         "--workload-name=db"; "--v=3" ]
  /\ Container_VolumeMounts c = [ scratchMount; podinfoMount ].
Proof. vm_compute. repeat split; reflexivity. Qed.

(** ** MergeLocalVolume *)

Lemma indexOfVolume_cons (name : string) (vol : Volume) (volumes : list Volume) :
  indexOfVolume name (vol :: volumes)
  = if decide (Volume_Name vol = name) then Some 0%nat
    else S <$> indexOfVolume name volumes.
Proof.
  unfold indexOfVolume. simpl. destruct (decide _); [reflexivity|].
  destruct (list_find _ volumes) as [[i x] |]; reflexivity.
Qed.

(** The loop of UpsertVolume, unrolled one step. *)
Lemma UpsertVolume_cons (vol nv : Volume) (volumes : list Volume) :
  UpsertVolume (vol :: volumes) nv
  = if decide (Volume_Name vol = Volume_Name nv) then nv :: volumes
    else vol :: UpsertVolume volumes nv.
Proof.
  unfold UpsertVolume. rewrite indexOfVolume_cons.
  destruct (decide _); [reflexivity|].
  destruct (indexOfVolume _ volumes); reflexivity.
Qed.

Lemma EnsureVolumeDeleted_cons (vol : Volume) (volumes : list Volume) (name : string) :
  EnsureVolumeDeleted (vol :: volumes) name
  = if decide (Volume_Name vol = name) then volumes
    else vol :: EnsureVolumeDeleted volumes name.
Proof.
  unfold EnsureVolumeDeleted. rewrite indexOfVolume_cons.
  destruct (decide _); [reflexivity|].
  destruct (indexOfVolume _ volumes); reflexivity.
Qed.

(** With a local backend in [new] the merge is an upsert of the local
    volume, whatever [old] is: the position found for [old] is the one the
    upsert finds. *)
Lemma MergeLocalVolume_local (volumes : list Volume) (old : option Restic) (new : Restic)
    (l : LocalSpec) :
  Restic_Local new = Some l ->
  MergeLocalVolume volumes old new = UpsertVolume volumes (localVolume l).
Proof.
  intros Hl. unfold MergeLocalVolume. rewrite Hl. fold (localVolume l).
  unfold UpsertVolume. simpl.
  destruct old as [o |]; [|reflexivity].
  destruct (Restic_Local o); [|reflexivity].
  destruct (indexOfVolume LocalVolumeName volumes); reflexivity.
Qed.

(** Without a local backend in [new] the merge deletes the first volume of
    the well-known name when [old] was local, and does nothing otherwise. *)
Lemma MergeLocalVolume_not_local (volumes : list Volume) (old : option Restic)
    (new : Restic) :
  Restic_Local new = None ->
  MergeLocalVolume volumes old new
  = match old ≫= Restic_Local with
    | Some _ => EnsureVolumeDeleted volumes LocalVolumeName
    | None => volumes
    end.
Proof.
  intros Hl. unfold MergeLocalVolume, EnsureVolumeDeleted. rewrite Hl.
  destruct old as [o |]; simpl; [|reflexivity].
  destruct (Restic_Local o); reflexivity.
Qed.

Lemma countNamed_cons (name : string) (vol : Volume) (volumes : list Volume) :
  countNamed name (vol :: volumes)
  = ((if decide (Volume_Name vol = name) then 1 else 0) + countNamed name volumes)%nat.
Proof. unfold countNamed. rewrite filter_cons. destruct (decide _); reflexivity. Qed.

Lemma volumesNotNamed_cons (name : string) (vol : Volume) (volumes : list Volume) :
  volumesNotNamed name (vol :: volumes)
  = if decide (Volume_Name vol = name) then volumesNotNamed name volumes
    else vol :: volumesNotNamed name volumes.
Proof.
  unfold volumesNotNamed. rewrite filter_cons.
  destruct (decide (Volume_Name vol = name)), (decide (Volume_Name vol <> name));
    try reflexivity; contradiction.
Qed.

Section Upsert.
Variable nv : Volume.

Lemma UpsertVolume_count (volumes : list Volume) :
  countNamed (Volume_Name nv) (UpsertVolume volumes nv)
  = Nat.max 1 (countNamed (Volume_Name nv) volumes).
Proof.
  induction volumes as [| vol volumes IH].
  - unfold UpsertVolume, countNamed. simpl. rewrite filter_cons.
    destruct (decide _); [reflexivity | contradiction].
  - rewrite UpsertVolume_cons, countNamed_cons.
    destruct (decide (Volume_Name vol = Volume_Name nv)) as [E | NE].
    + rewrite countNamed_cons. rewrite decide_True by reflexivity. lia.
    + rewrite countNamed_cons. rewrite decide_False by exact NE. rewrite IH. lia.
Qed.

Lemma UpsertVolume_others (volumes : list Volume) :
  volumesNotNamed (Volume_Name nv) (UpsertVolume volumes nv)
  = volumesNotNamed (Volume_Name nv) volumes.
Proof.
  induction volumes as [| vol volumes IH].
  - unfold UpsertVolume, volumesNotNamed. simpl. rewrite filter_cons.
    destruct (decide _); [contradiction | reflexivity].
  - rewrite UpsertVolume_cons, volumesNotNamed_cons.
    destruct (decide (Volume_Name vol = Volume_Name nv)) as [E | NE].
    + rewrite volumesNotNamed_cons. rewrite decide_True by reflexivity. reflexivity.
    + rewrite volumesNotNamed_cons. rewrite decide_False by exact NE.
      rewrite IH. reflexivity.
Qed.

Lemma UpsertVolume_idempotent (volumes : list Volume) :
  UpsertVolume (UpsertVolume volumes nv) nv = UpsertVolume volumes nv.
Proof.
  induction volumes as [| vol volumes IH].
  - unfold UpsertVolume at 2. simpl. rewrite UpsertVolume_cons.
    rewrite decide_True by reflexivity. reflexivity.
  - rewrite (UpsertVolume_cons vol).
    destruct (decide (Volume_Name vol = Volume_Name nv)) as [E | NE].
    + rewrite UpsertVolume_cons. rewrite decide_True by reflexivity. reflexivity.
    + rewrite UpsertVolume_cons. rewrite decide_False by exact NE.
      rewrite IH. reflexivity.
Qed.

Lemma UpsertVolume_elem (volumes : list Volume) :
  nv ∈ UpsertVolume volumes nv.
Proof.
  induction volumes as [| vol volumes IH].
  - unfold UpsertVolume. simpl. apply list_elem_of_here.
  - rewrite UpsertVolume_cons. destruct (decide _).
    + apply list_elem_of_here.
    + apply list_elem_of_further. exact IH.
Qed.
End Upsert.

Lemma EnsureVolumeDeleted_count (volumes : list Volume) (name : string) :
  countNamed name (EnsureVolumeDeleted volumes name)
  = Nat.pred (countNamed name volumes).
Proof.
  induction volumes as [| vol volumes IH]; [reflexivity|].
  rewrite EnsureVolumeDeleted_cons, countNamed_cons.
  destruct (decide (Volume_Name vol = name)) as [E | NE]; [reflexivity|].
  rewrite countNamed_cons. rewrite decide_False by exact NE. exact IH.
Qed.

Lemma EnsureVolumeDeleted_others (volumes : list Volume) (name : string) :
  volumesNotNamed name (EnsureVolumeDeleted volumes name) = volumesNotNamed name volumes.
Proof.
  induction volumes as [| vol volumes IH]; [reflexivity|].
  rewrite EnsureVolumeDeleted_cons, volumesNotNamed_cons.
  destruct (decide (Volume_Name vol = name)) as [E | NE]; [reflexivity|].
  rewrite volumesNotNamed_cons. rewrite decide_False by exact NE.
  rewrite IH. reflexivity.
Qed.

Lemma EnsureVolumeDeleted_absent (volumes : list Volume) (name : string) :
  countNamed name volumes = 0%nat -> EnsureVolumeDeleted volumes name = volumes.
Proof.
  induction volumes as [| vol volumes IH]; [reflexivity|].
  rewrite EnsureVolumeDeleted_cons, countNamed_cons.
  destruct (decide (Volume_Name vol = name)) as [E | NE]; [discriminate|].
  simpl. intros H0. rewrite (IH H0). reflexivity.
Qed.

(** The order of the volumes of other names is kept by every merge, on
    every volume list. *)
Lemma MergeLocalVolume_keeps_others (volumes : list Volume) (old : option Restic)
    (new : Restic) :
  volumesNotNamed LocalVolumeName (MergeLocalVolume volumes old new)
  = volumesNotNamed LocalVolumeName volumes.
Proof.
  destruct (Restic_Local new) as [l |] eqn:Hl.
  - rewrite (MergeLocalVolume_local _ _ _ l Hl).
    apply (UpsertVolume_others (localVolume l)).
  - rewrite (MergeLocalVolume_not_local _ _ _ Hl).
    destruct (old ≫= Restic_Local); [apply EnsureVolumeDeleted_others | reflexivity].
Qed.

(** C7, as amended: on a volume list with at most one volume of the
    well-known name, MergeLocalVolume is an idempotent upsert by that name.
    Applying it twice gives what applying it once gives; when the new backend
    is local the result has exactly one volume named stash-local, with the
    source of the new backend; when the old backend was local and the new one
    is not, it has none; and the volumes of other names are those of the
    input, in their order. *)
Theorem MergeLocalVolume_idempotent_upsert
    (volumes : list Volume) (old : option Restic) (new : Restic) :
  (countNamed LocalVolumeName volumes <= 1)%nat ->
  let once := MergeLocalVolume volumes old new in
  let twice := MergeLocalVolume once old new in
  twice = once
  /\ (forall l, Restic_Local new = Some l ->
        countNamed LocalVolumeName twice = 1%nat /\ localVolume l ∈ twice)
  /\ (forall o l, old = Some o -> Restic_Local o = Some l -> Restic_Local new = None ->
        countNamed LocalVolumeName twice = 0%nat)
  /\ volumesNotNamed LocalVolumeName twice = volumesNotNamed LocalVolumeName volumes.
Proof.
  intros Hone once twice. subst once twice.
  split; [|split; [|split]].
  - destruct (Restic_Local new) as [l |] eqn:Hl.
    + rewrite !(MergeLocalVolume_local _ _ _ l Hl). apply UpsertVolume_idempotent.
    + rewrite !(MergeLocalVolume_not_local _ _ _ Hl).
      destruct (old ≫= Restic_Local); [|reflexivity].
      apply EnsureVolumeDeleted_absent. rewrite EnsureVolumeDeleted_count. lia.
  - intros l Hl. rewrite !(MergeLocalVolume_local _ _ _ l Hl).
    rewrite UpsertVolume_idempotent. split.
    + pose proof (UpsertVolume_count (localVolume l) volumes) as Hc.
      simpl in Hc. rewrite Hc. lia.
    + apply UpsertVolume_elem.
  - intros o l -> Ho Hl. rewrite !(MergeLocalVolume_not_local _ _ _ Hl).
    simpl. rewrite Ho. rewrite !EnsureVolumeDeleted_count. lia.
  - rewrite !MergeLocalVolume_keeps_others. reflexivity.
Qed.

Lemma MergeLocalVolume_idempotent_upsert_witness :
  (countNamed LocalVolumeName exampleVolumes <= 1)%nat
  /\ let once := MergeLocalVolume exampleVolumes (Some exampleNonLocalRestic)
                   exampleRestic in
     let twice := MergeLocalVolume once (Some exampleNonLocalRestic) exampleRestic in
     twice = once
     /\ (forall l, Restic_Local exampleRestic = Some l ->
           countNamed LocalVolumeName twice = 1%nat /\ localVolume l ∈ twice)
     /\ (forall o l, Some exampleNonLocalRestic = Some o -> Restic_Local o = Some l ->
           Restic_Local exampleRestic = None ->
           countNamed LocalVolumeName twice = 0%nat)
     /\ volumesNotNamed LocalVolumeName twice
        = volumesNotNamed LocalVolumeName exampleVolumes.
Proof.
  split.
  - vm_compute. lia.
  - apply (MergeLocalVolume_idempotent_upsert exampleVolumes
             (Some exampleNonLocalRestic) exampleRestic).
    vm_compute. lia.
Defined.

(** C7, as stated for every volume list, fails on a list that holds the
    well-known name twice: the upsert overwrites the first of the two and
    keeps the second, so with a local new backend two applications leave two
    volumes named stash-local, not one. *)
Lemma MergeLocalVolume_duplicate_counterexample :
  let twice :=
    MergeLocalVolume (MergeLocalVolume exampleDuplicateVolumes None exampleRestic)
      None exampleRestic in
  Restic_Local exampleRestic = Some (mkLocalSpec (hostPathSource "/mnt/backup") "/repo")
  /\ countNamed LocalVolumeName twice = 2%nat
  /\ countNamed LocalVolumeName twice <> 1%nat.
Proof. vm_compute. split; [reflexivity|]. split; [reflexivity | discriminate]. Qed.

(** With the old backend local and the new one not, the volume is removed
    and the others stay in place. *)
Example MergeLocalVolume_removes :
  MergeLocalVolume exampleVolumes (Some exampleRestic) exampleNonLocalRestic
  = [ mkVolume "data" (hostPathSource "/var/lib/db");
      mkVolume "logs" (emptyDirSource None) ].
Proof. vm_compute. reflexivity. Qed.

Example MergeLocalVolume_duplicate_values :
  MergeLocalVolume (MergeLocalVolume exampleDuplicateVolumes None exampleRestic)
    None exampleRestic
  = [ mkVolume "data" (hostPathSource "/var/lib/db");
      mkVolume LocalVolumeName (hostPathSource "/mnt/backup");
      mkVolume "logs" (emptyDirSource None);
      mkVolume LocalVolumeName (hostPathSource "/old/two") ]
  /\ MergeLocalVolume exampleDuplicateVolumes (Some exampleRestic) exampleNonLocalRestic
     = [ mkVolume "data" (hostPathSource "/var/lib/db");
         mkVolume "logs" (emptyDirSource None);
         mkVolume LocalVolumeName (hostPathSource "/old/two") ].
Proof. vm_compute. split; reflexivity. Qed.

(** ** ResticEqual and RecoveryEqual *)

Lemma Quantity_Cmp_refl (q : Quantity) : Quantity_Cmp q q = 0.
Proof.
  unfold Quantity_Cmp. destruct (Quantity_amount q) as [m e].
  rewrite Z.compare_refl. reflexivity.
Qed.

Lemma quantityComparer_refl (q : Quantity) : quantityComparer q q = true.
Proof. unfold quantityComparer. apply bool_decide_eq_true_2, Quantity_Cmp_refl. Qed.

Section Reflexive.
Variable qeq : Quantity -> Quantity -> bool.
Hypothesis qeq_refl : forall q, qeq q q = true.

Lemma equalOption_refl {A : Type} (eq : A -> A -> bool) (x : option A) :
  (forall a, eq a a = true) -> equalOption eq x x = true.
Proof. intros H. destruct x; simpl; auto. Qed.

Lemma equalMap_refl (m : gmap string Quantity) : equalMap qeq m m = true.
Proof.
  unfold equalMap. rewrite bool_decide_eq_true_2 by reflexivity. simpl.
  apply forallb_forall. intros [k v] Hin. simpl.
  apply list_elem_of_In, elem_of_map_to_list in Hin. rewrite Hin. simpl. apply qeq_refl.
Qed.

(** Two maps that differ in the value under one key are equal exactly when
    the comparer accepts the two values. *)
Lemma equalMap_insert (m : gmap string Quantity) (k : string) (q q' : Quantity) :
  equalMap qeq (<[k := q]> m) (<[k := q']> m) = qeq q q'.
Proof.
  unfold equalMap. rewrite bool_decide_eq_true_2 by (rewrite !dom_insert_L; reflexivity).
  simpl. destruct (qeq q q') eqn:E.
  - apply forallb_forall. intros [k0 v] Hin. simpl.
    apply list_elem_of_In, elem_of_map_to_list in Hin.
    destruct (decide (k0 = k)) as [-> | NE].
    + rewrite lookup_insert_eq in Hin. injection Hin as <-.
      rewrite lookup_insert_eq. simpl. exact E.
    + rewrite lookup_insert_ne in Hin by congruence.
      rewrite lookup_insert_ne by congruence. rewrite Hin. simpl. apply qeq_refl.
  - apply not_true_is_false. intros Hall.
    rewrite forallb_forall in Hall.
    specialize (Hall (k, q)). simpl in Hall.
    rewrite lookup_insert_eq in Hall. simpl in Hall.
    rewrite Hall in E; [discriminate|].
    apply list_elem_of_In, elem_of_map_to_list. apply lookup_insert_eq.
Qed.

Lemma equalVolumeSource_refl (x : VolumeSource) : equalVolumeSource qeq x x = true.
Proof.
  unfold equalVolumeSource. rewrite !bool_decide_eq_true_2 by reflexivity. simpl.
  rewrite andb_true_r. apply equalOption_refl. intros a. unfold equalEmptyDir.
  rewrite bool_decide_eq_true_2 by reflexivity. simpl.
  apply equalOption_refl. exact qeq_refl.
Qed.

Lemma equalBackend_refl (x : Backend) : equalBackend qeq x x = true.
Proof.
  unfold equalBackend. rewrite !bool_decide_eq_true_2 by reflexivity. simpl.
  rewrite andb_true_r. apply equalOption_refl. intros l. unfold equalLocalSpec.
  rewrite equalVolumeSource_refl, bool_decide_eq_true_2 by reflexivity. reflexivity.
Qed.

Lemma equalResources_refl (x : ResourceRequirements) : equalResources qeq x x = true.
Proof. unfold equalResources. rewrite !equalMap_refl. reflexivity. Qed.

Lemma equalResticSpec_refl (x : ResticSpec) : equalResticSpec qeq x x = true.
Proof.
  unfold equalResticSpec. rewrite !bool_decide_eq_true_2 by reflexivity.
  rewrite equalBackend_refl, equalResources_refl. reflexivity.
Qed.

Lemma equalResticSpec_setLimit (spec : ResticSpec) (k : string) (q q' : Quantity) :
  equalResticSpec qeq (ResticSpec_setLimit k q spec) (ResticSpec_setLimit k q' spec)
  = qeq q q'.
Proof.
  unfold equalResticSpec, ResticSpec_setLimit. simpl.
  rewrite !bool_decide_eq_true_2 by reflexivity. rewrite equalBackend_refl. simpl.
  unfold equalResources. simpl. rewrite equalMap_insert, equalMap_refl.
  apply andb_true_r.
Qed.

Lemma equalResticSpec_setRequest (spec : ResticSpec) (k : string) (q q' : Quantity) :
  equalResticSpec qeq (ResticSpec_setRequest k q spec) (ResticSpec_setRequest k q' spec)
  = qeq q q'.
Proof.
  unfold equalResticSpec, ResticSpec_setRequest. simpl.
  rewrite !bool_decide_eq_true_2 by reflexivity. rewrite equalBackend_refl. simpl.
  unfold equalResources. simpl. rewrite equalMap_insert, equalMap_refl.
  reflexivity.
Qed.

Lemma equalResticSpec_setLocalSizeLimit (spec : ResticSpec) (medium path : string)
    (q q' : Quantity) :
  equalResticSpec qeq (ResticSpec_setLocalSizeLimit medium path q spec)
    (ResticSpec_setLocalSizeLimit medium path q' spec)
  = qeq q q'.
Proof.
  unfold equalResticSpec, ResticSpec_setLocalSizeLimit. simpl.
  rewrite !bool_decide_eq_true_2 by reflexivity. rewrite equalResources_refl. simpl.
  unfold equalBackend, equalLocalSpec, equalVolumeSource, equalEmptyDir. simpl.
  rewrite !bool_decide_eq_true_2 by reflexivity. simpl.
  rewrite !andb_true_r. reflexivity.
Qed.
End Reflexive.

(** C5: ResticEqual reads nothing but the two specs, so metadata and status
    do not matter; and where two specs differ only in one quantity (a
    resource limit, a resource request, the size limit of the volume of a
    local backend) they compare equal exactly when the two quantities are
    numerically equal, whatever their stored form.  So 1Gi and 1024Mi, which
    are stored differently, compare equal, and 1Gi and 2Gi do not. *)
Theorem ResticEqual_spec_by_quantity_value :
  (forall old old' new new' : Restic,
     Restic_Spec old = Restic_Spec old' ->
     Restic_Spec new = Restic_Spec new' ->
     ResticEqual (Some old) (Some new) = ResticEqual (Some old') (Some new'))
  /\ (forall r : Restic, ResticEqual (Some r) (Some r) = true)
  /\ (forall (old new : Restic) (spec : ResticSpec) (k : string) (q q' : Quantity),
        Restic_Spec old = ResticSpec_setLimit k q spec ->
        Restic_Spec new = ResticSpec_setLimit k q' spec ->
        ResticEqual (Some old) (Some new) = bool_decide (Quantity_Cmp q q' = 0))
  /\ (forall (old new : Restic) (spec : ResticSpec) (k : string) (q q' : Quantity),
        Restic_Spec old = ResticSpec_setRequest k q spec ->
        Restic_Spec new = ResticSpec_setRequest k q' spec ->
        ResticEqual (Some old) (Some new) = bool_decide (Quantity_Cmp q q' = 0))
  /\ (forall (old new : Restic) (spec : ResticSpec) (medium path : string)
        (q q' : Quantity),
        Restic_Spec old = ResticSpec_setLocalSizeLimit medium path q spec ->
        Restic_Spec new = ResticSpec_setLocalSizeLimit medium path q' spec ->
        ResticEqual (Some old) (Some new) = bool_decide (Quantity_Cmp q q' = 0))
  /\ (quantity_1Gi <> quantity_1024Mi
      /\ ResticEqual (Some (exampleResticA quantity_1Gi))
           (Some (exampleResticB quantity_1024Mi)) = true)
  /\ ResticEqual (Some (exampleResticA quantity_1Gi))
       (Some (exampleResticB quantity_2Gi)) = false.
Proof.
  split; [|split; [|split; [|split; [|split; [|split]]]]].
  - intros old old' new new' Ho Hn. unfold ResticEqual. simpl. rewrite Ho, Hn.
    reflexivity.
  - intros r. unfold ResticEqual. simpl.
    apply equalResticSpec_refl, quantityComparer_refl.
  - intros old new spec k q q' Ho Hn. unfold ResticEqual. simpl. rewrite Ho, Hn.
    apply (equalResticSpec_setLimit quantityComparer quantityComparer_refl).
  - intros old new spec k q q' Ho Hn. unfold ResticEqual. simpl. rewrite Ho, Hn.
    apply (equalResticSpec_setRequest quantityComparer quantityComparer_refl).
  - intros old new spec medium path q q' Ho Hn. unfold ResticEqual. simpl.
    rewrite Ho, Hn.
    apply (equalResticSpec_setLocalSizeLimit quantityComparer quantityComparer_refl).
  - split; [discriminate|]. vm_compute. reflexivity.
  - vm_compute. reflexivity.
Qed.

(** ** The update handler *)

(** What UpdateFunc does on two Recoveries: an invalid new object gets a
    warning event and nothing else; a valid one is enqueued under its key
    exactly when RecoveryEqual finds the specs different, and RecoveryEqual
    finds them different exactly when they are not the same stored value. *)
Lemma UpdateFunc_calls {W : Type} (h : Handler W) (api : ApiPackage)
    (oldObj newObj : Recovery) (w : W) :
  map opOf (calls (exec h (UpdateFunc api (ObjRecovery oldObj) (ObjRecovery newObj)) w))
  = match Recovery_IsValid api newObj with
    | Some err =>
        [ recorder_Eventf (Recovery_ObjectReference api newObj) EventTypeWarning
            EventReasonInvalidRecovery "Reason %v" [Error err] ]
    | None =>
        if decide (Recovery_Spec oldObj = Recovery_Spec newObj) then []
        else
          [ recQueue_Add
              (if bool_decide (Recovery_Namespace newObj = "") then Recovery_Name newObj
               else Recovery_Namespace newObj +:+ "/" +:+ Recovery_Name newObj) ]
    end.
Proof.
  unfold UpdateFunc, RecoveryEqual, DeepEqual, calls.
  destruct (Recovery_IsValid api newObj) as [err |]; simpl.
  - destruct (h _ w) as [[] w1]. reflexivity.
  - destruct (decide (Recovery_Spec oldObj = Recovery_Spec newObj)) as [E | NE].
    + rewrite bool_decide_eq_true_2 by congruence. reflexivity.
    + rewrite bool_decide_eq_false_2 by congruence. simpl.
      destruct (bool_decide (Recovery_Namespace newObj = "")); simpl;
        destruct (h _ w) as [[] w1]; reflexivity.
Qed.

(** An update that leaves the spec as it is stored, whatever it does to
    status and metadata, enqueues nothing; a valid update whose stored spec
    differs enqueues the key once. *)
Lemma UpdateFunc_enqueue_iff_spec_differs {W : Type} (h : Handler W) (api : ApiPackage)
    (oldObj newObj : Recovery) (w : W) :
  countOps isEnqueue
    (calls (exec h (UpdateFunc api (ObjRecovery oldObj) (ObjRecovery newObj)) w))
  = match Recovery_IsValid api newObj with
    | Some _ => 0%nat
    | None =>
        if decide (Recovery_Spec oldObj = Recovery_Spec newObj) then 0%nat else 1%nat
    end.
Proof.
  pose proof (UpdateFunc_calls h api oldObj newObj w) as Hc.
  unfold countOps, countCalls.
  destruct (calls _) as [| c cs].
  - destruct (Recovery_IsValid api newObj); [discriminate|].
    destruct (decide _); [reflexivity | discriminate].
  - destruct cs; [|destruct (Recovery_IsValid api newObj);
                   [discriminate | destruct (decide _); discriminate]].
    simpl in Hc. rewrite filter_cons, filter_nil.
    destruct (Recovery_IsValid api newObj).
    + injection Hc as ->. simpl. reflexivity.
    + destruct (decide (Recovery_Spec oldObj = Recovery_Spec newObj)); [discriminate|].
      injection Hc as ->. reflexivity.
Qed.

(** C4 at a reformatted quantity: the size limit of a volume of the Recovery
    goes from 1Gi to 1024Mi.  The two are the same number, and the comparer
    of ResticEqual would find the specs equal; RecoveryEqual compares with
    reflect.DeepEqual, finds them different, and the key is enqueued. *)
Theorem UpdateFunc_enqueues_reformatted_quantity :
  let oldObj := exampleRecoveryWith RecoveryRunning quantity_1Gi in
  let newObj := exampleRecoveryWith RecoveryRunning quantity_1024Mi in
  Recovery_IsValid exampleApi newObj = None
  /\ Quantity_Cmp quantity_1Gi quantity_1024Mi = 0
  /\ equalRecoverySpec quantityComparer (Recovery_Spec oldObj) (Recovery_Spec newObj)
     = true
  /\ RecoveryEqual (Some oldObj) (Some newObj) = false
  /\ exec fakeCluster (UpdateFunc exampleApi (ObjRecovery oldObj) (ObjRecovery newObj))
       emptyCluster
     = (tt,
        cluster_setQueue emptyCluster ["default/restore"] ∅,
        [ Called (recQueue_Add "default/restore") tt ]).
Proof. vm_compute. repeat split; reflexivity. Qed.

(** The same with the decimal quantities 1 and 1000m, whose stored amounts
    differ as well. *)
Example UpdateFunc_enqueues_rescaled_quantity :
  let oldObj := exampleRecoveryWith RecoveryRunning quantity_1 in
  let newObj := exampleRecoveryWith RecoveryRunning quantity_1000m in
  Quantity_Cmp quantity_1 quantity_1000m = 0
  /\ calls (exec fakeCluster
              (UpdateFunc exampleApi (ObjRecovery oldObj) (ObjRecovery newObj))
              emptyCluster)
     = [ Called (recQueue_Add "default/restore") tt ].
Proof. vm_compute. split; reflexivity. Qed.

(** A change of status and metadata alone enqueues nothing. *)
Example UpdateFunc_status_only :
  calls (exec fakeCluster
           (UpdateFunc exampleApi
              (ObjRecovery (exampleRecoveryWith RecoveryPhaseEmpty quantity_1Gi))
              (ObjRecovery
                 (mkRecovery (mkObjectMeta "restore" "default" "uid-restore" "7" ∅ ∅)
                    (Recovery_Spec exampleRecovery) (mkRecoveryStatus RecoveryRunning))))
           emptyCluster)
  = [].
Proof. vm_compute. reflexivity. Qed.

(** ** Further runs on the example cluster *)

(** With RBAC enabled the service account is ensured before the Create call,
    and an AlreadyExists answer still ends the run with nil. *)
Example runRecoveryJob_rbac_already_exists :
  let x := exec fakeCluster (runRecoveryJob exampleApi exampleOptionsRBAC exampleRecovery)
             exampleClusterWithJob in
  result x = None
  /\ map opOf (calls x)
     = [ Restics_Get "default" "nightly";
         ensureRecoveryRBAC "stash-restore" "default";
         Jobs_Create "default"
           (submittedJob exampleApi exampleOptionsRBAC exampleRecovery exampleRestic) ]
  /\ world x = exampleClusterWithJob.
Proof. vm_compute. repeat split; reflexivity. Qed.

(** The first reconcile of a fresh Recovery creates the job, records a
    normal event and moves the stored phase to Running; the second one, on
    the Recovery as it is then stored, does nothing. *)
Example runRecoveryJob_then_short_circuit :
  let x1 := exec fakeCluster (runRecoveryJob exampleApi exampleOptions exampleRecovery)
              exampleCluster in
  let stored := exampleRecoveryWith RecoveryRunning quantity_1Gi in
  let x2 := exec fakeCluster (runRecoveryJob exampleApi exampleOptions stored)
              (world x1) in
  result x1 = None
  /\ countCalls isJobCreated (calls x1) = 1%nat
  /\ cluster_recoveries (world x1) = [ stored ]
  /\ map snd (cluster_events (world x1)) = [ EventReasonJobCreated ]
  /\ x2 = (None, world x1, []).
Proof. vm_compute. repeat split; reflexivity. Qed.

(** An invalid policy: the phase becomes Failed and a warning is recorded. *)
Example runRecoveryJob_invalid_policy :
  let cluster := mkCluster [("default", exampleInvalidRestic)] [] [exampleRecovery]
                   [] [] None [] ∅ [] in
  let x := exec fakeCluster (runRecoveryJob exampleApi exampleOptions exampleRecovery)
             cluster in
  result x = Some (Errorf "missing repository secret name")
  /\ cluster_recoveries (world x) = [ exampleRecoveryWith RecoveryFailed quantity_1Gi ]
  /\ map (fun e => (e.1.2, e.2)) (cluster_events (world x))
     = [ (EventTypeWarning, EventReasonFailedToRecover) ]
  /\ cluster_jobs (world x) = [].
Proof. vm_compute. repeat split; reflexivity. Qed.

(** * The remaining paths of the recovery watcher *)

(** Every run of runRecoveryJob is one of the seven ways through the
    function, whatever the environment answers. *)
Lemma runRecoveryJob_runs {W : Type} (h : Handler W) (api : ApiPackage)
    (options : Options) (rec : Recovery) (w : W) :
  runRecoveryJob_run api options rec
    (result (exec h (runRecoveryJob api options rec) w))
    (calls (exec h (runRecoveryJob api options rec) w)).
Proof.
  unfold runRecoveryJob, result, calls.
  destruct (bool_decide _ || bool_decide _) eqn:Hphase; simpl.
  { apply run_short_circuit. apply orb_true_iff in Hphase.
    destruct Hphase as [H | H]; apply bool_decide_eq_true_1 in H; auto. }
  unfold_prog.
  destruct (h (Restics_Get _ _) w) as [[restic | e] w1]; simpl.
  2: { repeat step_exec h. repeat match goal with u : unit |- _ => destruct u end.
       apply run_restic_error. }
  destruct (Restic_IsValid api restic) as [e |] eqn:Hvalid; simpl.
  { repeat step_exec h. repeat match goal with u : unit |- _ => destruct u end.
    apply run_restic_invalid. exact Hvalid. }
  pose proof (run_created api options rec restic) as Hcreated.
  pose proof (run_already_exists api options rec restic) as Hexists.
  pose proof (run_create_error api options rec restic) as Herror.
  pose proof (run_rbac_error api options rec restic) as Hrbac.
  unfold submittedJob, callsBeforeCreate in *.
  destruct (EnableRBAC options); simpl in *.
  - destruct (h (ensureRecoveryRBAC _ _) w1) as [[e |] w2]; simpl.
    { apply Hrbac; [exact Hvalid | reflexivity]. }
    destruct (h (Jobs_Create _ _) w2) as [[j | e] w3]; simpl.
    + repeat step_exec h. repeat match goal with u : unit |- _ => destruct u end.
      apply Hcreated. exact Hvalid.
    + destruct (IsAlreadyExists e) eqn:He; simpl.
      * apply Hexists; assumption.
      * repeat step_exec h. repeat match goal with u : unit |- _ => destruct u end.
        apply Herror; assumption.
  - destruct (h (Jobs_Create _ _) w1) as [[j | e] w3]; simpl.
    + repeat step_exec h. repeat match goal with u : unit |- _ => destruct u end.
      apply Hcreated. exact Hvalid.
    + destruct (IsAlreadyExists e) eqn:He; simpl.
      * apply Hexists; assumption.
      * repeat step_exec h. repeat match goal with u : unit |- _ => destruct u end.
        apply Herror; assumption.
Qed.

(** What an equation between two calls says about their operations and
    answers. *)
Ltac call_eq H :=
  let Hop := fresh "Hop" in
  let Hjob := fresh "Hjob" in
  let Herr := fresh "Herr" in
  let Hrbac := fresh "Hrbac" in
  pose proof (f_equal opOf H) as Hop;
  pose proof (f_equal createdJob H) as Hjob;
  pose proof (f_equal createError H) as Herr;
  pose proof (f_equal rbacError H) as Hrbac;
  simpl in Hop, Hjob, Herr, Hrbac.

(** Splits a membership in an explicit list of calls into its cases and
    closes those whose call is of another kind. *)
Ltac call_cases Hin :=
  unfold callsBeforeCreate, failedCalls, createdCalls in Hin;
  repeat match type of Hin with
         | context [if ?b then _ else _] => destruct b eqn:?
         end;
  rewrite ?elem_of_app, ?elem_of_cons in Hin;
  repeat match goal with
         | H : _ \/ _ |- _ => destruct H as [H | H]
         | H : _ ∈ [] |- _ => apply elem_of_nil in H; contradiction
         end;
  try match goal with
      | H : Called _ _ = Called _ _ |- _ => call_eq H; try discriminate; try congruence
      end.

(** X1: when the API server accepts the Create call, runRecoveryJob logs
    the creation, records one normal event JobCreated and sets the phase to
    Running, in that order and all three after the Create call, and returns
    nil.  The job submitted is the one built for the Recovery, in its
    namespace; the log line and the event name the job as the server
    returned it. *)
Theorem runRecoveryJob_created
    {W : Type} (h : Handler W) (api : ApiPackage) (options : Options)
    (rec : Recovery) (w : W) (ns : string) (job created : Job) :
  Called (Jobs_Create ns job) (inl created)
    ∈ calls (exec h (runRecoveryJob api options rec) w) ->
  let x := exec h (runRecoveryJob api options rec) w in
  result x = None
  /\ exists restic,
       Restic_IsValid api restic = None
       /\ ns = Recovery_Namespace rec
       /\ job = submittedJob api options rec restic
       /\ calls x = callsBeforeCreate api options rec restic
                    ++ Called (Jobs_Create ns job) (inl created)
                       :: createdCalls api rec created.
Proof.
  intros Hin x. subst x.
  pose proof (runRecoveryJob_runs h api options rec w) as Hrun.
  destruct Hrun as [Hp | e | restic e Hv | restic e Hv Hr job0 | restic j Hv
                    | restic e Hv He | restic e Hv He];
    try subst job0; try solve [call_cases Hin].
  split; [reflexivity|]. exists restic.
    assert (Hthis : Called (Jobs_Create ns job) (inl created)
                    = Called (Jobs_Create (Recovery_Namespace rec)
                                (submittedJob api options rec restic)) (inl j)).
    { call_cases Hin; assumption. }
    call_eq Hthis. injection Hop as -> ->. injection Hjob as ->. auto.
Qed.

Lemma runRecoveryJob_created_witness :
  let x := exec fakeCluster (runRecoveryJob exampleApi exampleOptions exampleRecovery)
             exampleCluster in
  let job := CreateRecoveryJob exampleApi exampleRecovery exampleRestic "0.6.2" in
  result x = None
  /\ exists restic,
       Restic_IsValid exampleApi restic = None
       /\ "default" = Recovery_Namespace exampleRecovery
       /\ job = submittedJob exampleApi exampleOptions exampleRecovery restic
       /\ calls x = callsBeforeCreate exampleApi exampleOptions exampleRecovery restic
                    ++ Called (Jobs_Create "default" job) (inl job)
                       :: createdCalls exampleApi exampleRecovery job.
Proof.
  apply (runRecoveryJob_created fakeCluster exampleApi exampleOptions exampleRecovery
           exampleCluster "default"
           (CreateRecoveryJob exampleApi exampleRecovery exampleRestic "0.6.2")
           (CreateRecoveryJob exampleApi exampleRecovery exampleRestic "0.6.2")).
  vm_compute. apply list_elem_of_further, list_elem_of_here.
Defined.

(** X2: when the Create call fails with an error other than AlreadyExists,
    runRecoveryJob logs it, sets the phase to Failed, records a warning event
    with the error text and returns that error.  Nothing of the success path
    happens. *)
Theorem runRecoveryJob_create_error
    {W : Type} (h : Handler W) (api : ApiPackage) (options : Options)
    (rec : Recovery) (w : W) (ns : string) (job : Job) (err : error) :
  Called (Jobs_Create ns job) (inr err)
    ∈ calls (exec h (runRecoveryJob api options rec) w) ->
  IsAlreadyExists err = false ->
  let x := exec h (runRecoveryJob api options rec) w in
  result x = Some err
  /\ countOps (isSetPhaseTo RecoveryRunning) (calls x) = 0%nat
  /\ countOps (isEventOfType EventTypeNormal) (calls x) = 0%nat
  /\ exists restic,
       Restic_IsValid api restic = None
       /\ ns = Recovery_Namespace rec
       /\ job = submittedJob api options rec restic
       /\ calls x = callsBeforeCreate api options rec restic
                    ++ Called (Jobs_Create ns job) (inr err)
                       :: failedCalls api rec err.
Proof.
  intros Hin Hne x. subst x.
  pose proof (runRecoveryJob_runs h api options rec w) as Hrun.
  destruct Hrun as [Hp | e | restic e Hv | restic e Hv Hr job0 | restic j Hv
                    | restic e Hv He | restic e Hv He];
    try subst job0; try solve [call_cases Hin].
  assert (Hthis : Called (Jobs_Create ns job) (inr err)
                    = Called (Jobs_Create (Recovery_Namespace rec)
                                (submittedJob api options rec restic)) (inr e)).
    { call_cases Hin; assumption. }
    call_eq Hthis. injection Hop as -> ->. injection Herr as ->.
    split; [reflexivity|].
    split; [unfold countOps, callsBeforeCreate; destruct (EnableRBAC options); reflexivity|].
    split; [unfold countOps, callsBeforeCreate; destruct (EnableRBAC options); reflexivity|].
    exists restic. auto.
Qed.

Lemma runRecoveryJob_create_error_witness :
  let x := exec (withCreateError serverTimeout fakeCluster)
             (runRecoveryJob exampleApi exampleOptions exampleRecovery) exampleCluster in
  let job := CreateRecoveryJob exampleApi exampleRecovery exampleRestic "0.6.2" in
  result x = Some serverTimeout
  /\ countOps (isSetPhaseTo RecoveryRunning) (calls x) = 0%nat
  /\ countOps (isEventOfType EventTypeNormal) (calls x) = 0%nat
  /\ exists restic,
       Restic_IsValid exampleApi restic = None
       /\ "default" = Recovery_Namespace exampleRecovery
       /\ job = submittedJob exampleApi exampleOptions exampleRecovery restic
       /\ calls x = callsBeforeCreate exampleApi exampleOptions exampleRecovery restic
                    ++ Called (Jobs_Create "default" job) (inr serverTimeout)
                       :: failedCalls exampleApi exampleRecovery serverTimeout.
Proof.
  apply (runRecoveryJob_create_error (withCreateError serverTimeout fakeCluster)
           exampleApi exampleOptions exampleRecovery exampleCluster "default"
           (CreateRecoveryJob exampleApi exampleRecovery exampleRestic "0.6.2")
           serverTimeout).
  - vm_compute. apply list_elem_of_further, list_elem_of_here.
  - reflexivity.
Defined.

(** X3: when RBAC is enabled and ensureRecoveryRBAC fails, runRecoveryJob
    returns at once with an error that names the job and the reason.  Unlike
    the other failures this one writes no phase and records no event, and the
    Create call is not made. *)
Theorem runRecoveryJob_rbac_error
    {W : Type} (h : Handler W) (api : ApiPackage) (options : Options)
    (rec : Recovery) (w : W) (name ns : string) (err : error) :
  Called (ensureRecoveryRBAC name ns) (Some err)
    ∈ calls (exec h (runRecoveryJob api options rec) w) ->
  let x := exec h (runRecoveryJob api options rec) w in
  EnableRBAC options = true
  /\ name = "stash-" +:+ Recovery_Name rec
  /\ ns = Recovery_Namespace rec
  /\ result x
     = Some (Errorf ("error ensuring rbac for recovery job " +:+ name +:+ ", reason: "
                     +:+ Error err +:+ newline))
  /\ last (calls x) = Some (Called (ensureRecoveryRBAC name ns) (Some err))
  /\ countOps isSetPhase (calls x) = 0%nat
  /\ countOps isEvent (calls x) = 0%nat
  /\ countOps isJobsCreate (calls x) = 0%nat.
Proof.
  intros Hin x. subst x.
  pose proof (runRecoveryJob_runs h api options rec w) as Hrun.
  destruct Hrun as [Hp | e | restic e Hv | restic e Hv Hr job0 | restic j Hv
                    | restic e Hv He | restic e Hv He];
    try subst job0; try solve [call_cases Hin].
  assert (Hthis : Called (ensureRecoveryRBAC name ns) (Some err)
                    = Called (ensureRecoveryRBAC
                                (Job_Name (CreateRecoveryJob api rec restic
                                             (SidecarImageTag options)))
                                (Job_Namespace (CreateRecoveryJob api rec restic
                                                  (SidecarImageTag options))))
                        (Some e)).
    { call_cases Hin; assumption. }
    call_eq Hthis. injection Hop as -> ->. injection Hrbac as ->.
    rewrite CreateRecoveryJob_Name, CreateRecoveryJob_Namespace.
  unfold rbacFailure. rewrite CreateRecoveryJob_Name.
  split; [exact Hr|]. repeat split; reflexivity.
Qed.

Lemma runRecoveryJob_rbac_error_witness :
  let x := exec fakeCluster (runRecoveryJob exampleApi exampleOptionsRBAC exampleRecovery)
             exampleClusterNoRBAC in
  EnableRBAC exampleOptionsRBAC = true
  /\ "stash-restore" = "stash-" +:+ Recovery_Name exampleRecovery
  /\ "default" = Recovery_Namespace exampleRecovery
  /\ result x
     = Some (Errorf ("error ensuring rbac for recovery job " +:+ "stash-restore"
                     +:+ ", reason: " +:+ Error forbidden +:+ newline))
  /\ last (calls x)
     = Some (Called (ensureRecoveryRBAC "stash-restore" "default") (Some forbidden))
  /\ countOps isSetPhase (calls x) = 0%nat
  /\ countOps isEvent (calls x) = 0%nat
  /\ countOps isJobsCreate (calls x) = 0%nat.
Proof.
  apply (runRecoveryJob_rbac_error fakeCluster exampleApi exampleOptionsRBAC
           exampleRecovery exampleClusterNoRBAC "stash-restore" "default" forbidden).
  vm_compute. apply list_elem_of_further, list_elem_of_here.
Defined.

(** X4: in every run of runRecoveryJob, whatever the environment answers,
    there is at most one Restic lookup, one Create call, one phase write and
    one event.  The phase is written to Running, and a normal event recorded,
    exactly when a job was created; it is written to Failed exactly when a
    warning event is recorded; no other phase is ever written.  A run that
    returns nil has not written Failed, and a run that returns an error has
    created no job. *)
Theorem runRecoveryJob_writes_at_most_once
    {W : Type} (h : Handler W) (api : ApiPackage) (options : Options)
    (rec : Recovery) (w : W) :
  let x := exec h (runRecoveryJob api options rec) w in
  ((countOps isResticsGet (calls x) <= 1)%nat
   /\ (countOps isJobsCreate (calls x) <= 1)%nat
   /\ (countOps isSetPhase (calls x) <= 1)%nat
   /\ (countOps isEvent (calls x) <= 1)%nat)
  /\ countOps (isSetPhaseTo RecoveryRunning) (calls x) = countCalls isJobCreated (calls x)
  /\ countOps (isEventOfType EventTypeNormal) (calls x)
     = countCalls isJobCreated (calls x)
  /\ countOps (isSetPhaseTo RecoveryFailed) (calls x)
     = countOps (isEventOfType EventTypeWarning) (calls x)
  /\ countOps isSetPhase (calls x)
     = (countOps (isSetPhaseTo RecoveryRunning) (calls x)
        + countOps (isSetPhaseTo RecoveryFailed) (calls x))%nat
  /\ match result x with
     | None => countOps (isSetPhaseTo RecoveryFailed) (calls x) = 0%nat
     | Some _ => countCalls isJobCreated (calls x) = 0%nat
     end.
Proof.
  intros x. subst x.
  pose proof (runRecoveryJob_runs h api options rec w) as Hrun.
  destruct Hrun as [Hp | e | restic e Hv | restic e Hv Hr job0 | restic j Hv
                    | restic e Hv He | restic e Hv He];
    try subst job0;
    unfold countOps, callsBeforeCreate, failedCalls, createdCalls;
    destruct (EnableRBAC options); vm_compute; repeat split; lia.
Qed.

(** X5: runRecoveryInjector reconciles nothing when the store fails or the
    object is gone.  An error of the store is logged and returned, even if
    the store also handed out an object; a key without object is reported on
    standard output and the result is nil.  In both cases the only calls are
    the lookup in the store and one log line. *)
Theorem runRecoveryInjector_store_error_or_absent
    {W : Type} (h : Handler W) (api : ApiPackage) (options : Options)
    (key : string) (w w1 : W) (obj : option Recovery) (err : option error) :
  h (recIndexer_GetByKey key) w = ((obj, err), w1) ->
  err <> None \/ obj = None ->
  let x := exec h (runRecoveryInjector api options key) w in
  result x = err
  /\ exists logger format args,
       calls x = [ Called (recIndexer_GetByKey key) (obj, err);
                   Called (Log logger format args) tt ].
Proof.
  intros Hget Hcase x. subst x. unfold runRecoveryInjector, result, calls.
  unfold_prog. rewrite Hget.
  destruct err as [e |]; simpl.
  - step_exec h. destruct r. split; [reflexivity|]. eauto.
  - destruct Hcase as [H | ->]; [congruence|]. simpl.
    step_exec h. destruct r. split; [reflexivity|]. eauto.
Qed.

Lemma runRecoveryInjector_store_error_or_absent_witness :
  let x := exec fakeCluster (runRecoveryInjector exampleApi exampleOptions "default/gone")
             exampleCluster in
  result x = None
  /\ exists logger format args,
       calls x = [ Called (recIndexer_GetByKey "default/gone") (None, None);
                   Called (Log logger format args) tt ].
Proof.
  apply (runRecoveryInjector_store_error_or_absent fakeCluster exampleApi exampleOptions
           "default/gone" exampleCluster exampleCluster None None).
  - reflexivity.
  - right. reflexivity.
Defined.

(** X6: when the reconcile of a dequeued key returns nil, processNextRecovery
    forgets the retry history of the key, marks the key done and returns
    true.  The key is not put back on the queue and nothing is reported to
    the error handler; after the reconcile the only calls are Forget and
    Done, in that order. *)
Theorem processNextRecovery_success
    {W : Type} (h : Handler W) (api : ApiPackage) (options : Options)
    (w w1 w2 : W) (key : string) (cs : list Call) :
  h recQueue_Get w = ((key, false), w1) ->
  exec h (runRecoveryInjector api options key) w1 = (None, w2, cs) ->
  let x := exec h (processNextRecovery api options) w in
  result x = true
  /\ calls x = Called recQueue_Get (key, false)
               :: cs ++ [ Called (recQueue_Forget key) tt;
                          Called (recQueue_Done key) tt ]
  /\ countOps isEnqueue (calls x) = 0%nat
  /\ countOps isHandleError (calls x) = 0%nat
  /\ countOps (isForget key) (calls x) = 1%nat.
Proof.
  intros Hget Hinj x. subst x.
  pose proof (exec_allOps h _ _ (runRecoveryInjector_not_queue api options key) w1)
    as Hcs.
  rewrite Hinj in Hcs. unfold calls in Hcs. simpl in Hcs.
  assert (Hnone : forall P : Op -> bool,
            (forall o, P o = true -> isQueueLayer o = true) -> countOps P cs = 0%nat).
  { intros P HP. apply countOps_none. eapply Forall_impl; [exact Hcs|].
    intros c Hc. simpl in Hc. destruct (P (opOf c)) eqn:E; [|reflexivity].
    rewrite (HP _ E) in Hc. discriminate. }
  assert (Henq : countOps isEnqueue cs = 0%nat).
  { apply Hnone. intros []; simpl; congruence. }
  assert (Hfor : countOps (isForget key) cs = 0%nat).
  { apply Hnone. intros []; simpl; congruence. }
  assert (Hrep : countOps isHandleError cs = 0%nat).
  { apply Hnone. intros []; simpl; congruence. }
  unfold processNextRecovery.
  rewrite exec_bind. cbn [exec call]. rewrite Hget. cbn [exec].
  rewrite exec_bind, exec_bind, Hinj. unfold_prog.
  repeat step_exec h. repeat match goal with u : unit |- _ => destruct u end.
  unfold result, calls, countOps in *. simpl.
  rewrite <- app_assoc. simpl.
  rewrite !countCalls_cons, !countCalls_app, !countCalls_cons.
  rewrite Henq, Hfor, Hrep. simpl.
  rewrite bool_decide_eq_true_2 by reflexivity.
  repeat split; reflexivity.
Qed.

Lemma processNextRecovery_success_witness :
  let x := exec fakeCluster (processNextRecovery exampleApi exampleOptions)
             exampleClusterDeleted in
  result x = true
  /\ calls x = Called recQueue_Get ("default/restore", false)
               :: [ Called (recIndexer_GetByKey "default/restore") (None, None);
                    Called (Log fmt_Printf "Recovery %s does not exist anymore\n"
                              ["default/restore"]) tt ]
                  ++ [ Called (recQueue_Forget "default/restore") tt;
                       Called (recQueue_Done "default/restore") tt ]
  /\ countOps isEnqueue (calls x) = 0%nat
  /\ countOps isHandleError (calls x) = 0%nat
  /\ countOps (isForget "default/restore") (calls x) = 1%nat.
Proof.
  eapply (processNextRecovery_success fakeCluster exampleApi exampleOptions
            exampleClusterDeleted _ _ "default/restore").
  - vm_compute. reflexivity.
  - vm_compute. reflexivity.
Defined.

(** X7: when the queue reports that it is shutting down, the worker loop
    ends there: runRecoveryWatcher makes the one Get call and nothing else,
    however many rounds it had left.  No key is looked up, forgotten or
    marked done. *)
Theorem runRecoveryWatcher_stops_on_quit
    {W : Type} (h : Handler W) (api : ApiPackage) (options : Options)
    (fuel : nat) (w w1 : W) (key : string) :
  h recQueue_Get w = ((key, true), w1) ->
  exec h (processNextRecovery api options) w
    = (false, w1, [ Called recQueue_Get (key, true) ])
  /\ exec h (runRecoveryWatcher api options (S fuel)) w
     = (tt, w1, [ Called recQueue_Get (key, true) ]).
Proof.
  intros Hget.
  assert (Hone : exec h (processNextRecovery api options) w
                 = (false, w1, [ Called recQueue_Get (key, true) ])).
  { unfold processNextRecovery. rewrite exec_bind. cbn [exec call].
    rewrite Hget. reflexivity. }
  split; [exact Hone|].
  cbn [runRecoveryWatcher]. rewrite exec_bind, Hone. reflexivity.
Qed.

Lemma runRecoveryWatcher_stops_on_quit_witness :
  exec fakeCluster (processNextRecovery exampleApi exampleOptions) emptyCluster
    = (false, emptyCluster, [ Called recQueue_Get ("", true) ])
  /\ exec fakeCluster (runRecoveryWatcher exampleApi exampleOptions 8) emptyCluster
     = (tt, emptyCluster, [ Called recQueue_Get ("", true) ]).
Proof.
  apply (runRecoveryWatcher_stops_on_quit fakeCluster exampleApi exampleOptions 7
           emptyCluster emptyCluster "").
  reflexivity.
Defined.

(** ** The informer's handlers *)

(** X8: what the three handlers put on the queue.  AddFunc enqueues an
    object exactly when it is a valid Recovery; an invalid Recovery gets one
    warning event InvalidRecovery instead, and an object of another type
    gets nothing.  DeleteFunc checks no validity: every Recovery is enqueued,
    and a tombstone under the key it carries.  For one Recovery all three
    handlers use the same key, namespace/name, and none of them makes any
    other call. *)
Theorem handlers_enqueue
    {W : Type} (h : Handler W) (api : ApiPackage) (w : W) :
  (forall r : Recovery,
     map opOf (calls (exec h (AddFunc api (ObjRecovery r)) w))
     = match Recovery_IsValid api r with
       | None => [ recQueue_Add (recoveryKey r) ]
       | Some err =>
           [ recorder_Eventf (Recovery_ObjectReference api r) EventTypeWarning
               EventReasonInvalidRecovery "Reason %v" [Error err] ]
       end)
  /\ (forall obj : Object,
        (forall r, obj <> ObjRecovery r) -> calls (exec h (AddFunc api obj) w) = [])
  /\ (forall r : Recovery,
        map opOf (calls (exec h (DeleteFunc (ObjRecovery r)) w))
        = [ recQueue_Add (recoveryKey r) ])
  /\ (forall key : string,
        map opOf (calls (exec h (DeleteFunc (ObjDeletedFinalStateUnknown key)) w))
        = [ recQueue_Add key ])
  /\ (forall old new : Recovery,
        countOps isEnqueue
          (calls (exec h (UpdateFunc api (ObjRecovery old) (ObjRecovery new)) w))
        = countOps (isAdd (recoveryKey new))
            (calls (exec h (UpdateFunc api (ObjRecovery old) (ObjRecovery new)) w))).
Proof.
  split; [|split; [|split; [|split]]].
  - intros r. unfold AddFunc, calls, recoveryKey.
    destruct (Recovery_IsValid api r); simpl.
    + destruct (h _ w) as [[] w1]. reflexivity.
    + destruct (bool_decide _); simpl; destruct (h _ w) as [[] w1]; reflexivity.
  - intros obj Hobj. destruct obj as [r | key |]; [|reflexivity..].
    exfalso. apply (Hobj r). reflexivity.
  - intros r. unfold DeleteFunc, calls, recoveryKey. simpl.
    destruct (bool_decide _); simpl; destruct (h _ w) as [[] w1]; reflexivity.
  - intros key. unfold DeleteFunc, calls. simpl.
    destruct (h _ w) as [[] w1]. reflexivity.
  - intros old new.
    pose proof (UpdateFunc_calls h api old new w) as Hc. fold (recoveryKey new) in Hc.
    unfold countOps, countCalls.
    destruct (calls _) as [| c cs]; [reflexivity|].
    destruct cs; [|destruct (Recovery_IsValid api new);
                   [discriminate | destruct (decide _); discriminate]].
    simpl in Hc. rewrite !filter_cons, !filter_nil.
    destruct (Recovery_IsValid api new).
    + injection Hc as ->. reflexivity.
    + destruct (decide _); [discriminate|]. injection Hc as ->. simpl.
      rewrite bool_decide_eq_true_2 by reflexivity. reflexivity.
Qed.

(** ** CreateRecoveryJob *)

Lemma CreateRecoveryJob_Volumes (api : ApiPackage) (rec : Recovery) (restic : Restic)
    (tag : string) :
  Job_Volumes (CreateRecoveryJob api rec restic tag)
  = RecoverySpec_Volumes (Recovery_Spec rec)
    ++ UpsertScratchVolume []
    ++ match Restic_Local restic with
       | Some l => [ localVolume l ]
       | None => []
       end.
Proof.
  unfold CreateRecoveryJob, Job_Volumes.
  destruct (Restic_Local restic); simpl; rewrite <- ?app_assoc; reflexivity.
Qed.

Lemma CreateRecoveryJob_Containers (api : ApiPackage) (rec : Recovery) (restic : Restic)
    (tag : string) :
  exists c,
    Job_Containers (CreateRecoveryJob api rec restic tag) = [c]
    /\ Container_Name c = StashContainer
    /\ Container_Image c = ImageOperator +:+ ":" +:+ tag
    /\ Container_VolumeMounts c
       = ResticSpec_VolumeMounts (Restic_Spec restic)
         ++ [ scratchMount ]
         ++ match Restic_Local restic with
            | Some l => [ localMount (LocalSpec_Path l) ]
            | None => []
            end.
Proof.
  unfold CreateRecoveryJob, Job_Containers.
  destruct (Restic_Local restic); simpl; eexists; repeat split;
    rewrite <- ?app_assoc; reflexivity.
Qed.

(** X9: the recovery job has one container, and the mounts that
    CreateRecoveryJob adds itself, the scratch mount and, for a local
    backend, the stash-local mount, are always backed by a volume of the job.
    The mounts copied from the policy are backed when the Recovery declares a
    volume for each of them; then every mount of the container names a
    volume of the job. *)
Theorem CreateRecoveryJob_mounts_backed
    (api : ApiPackage) (rec : Recovery) (restic : Restic) (tag : string) :
  let job := CreateRecoveryJob api rec restic tag in
  exists c,
    Job_Containers job = [c]
    /\ mountBacked (Job_Volumes job) scratchMount
    /\ (forall l, Restic_Local restic = Some l ->
          localMount (LocalSpec_Path l) ∈ Container_VolumeMounts c
          /\ mountBacked (Job_Volumes job) (localMount (LocalSpec_Path l)))
    /\ (Forall (mountBacked (RecoverySpec_Volumes (Recovery_Spec rec)))
          (ResticSpec_VolumeMounts (Restic_Spec restic)) ->
        Forall (mountBacked (Job_Volumes job)) (Container_VolumeMounts c)).
Proof.
  intros job. subst job.
  destruct (CreateRecoveryJob_Containers api rec restic tag)
    as (c & Hc & _ & _ & Hm).
  exists c. split; [exact Hc|].
  rewrite CreateRecoveryJob_Volumes, Hm.
  assert (Hscratch : mountBacked
            (RecoverySpec_Volumes (Recovery_Spec rec) ++ UpsertScratchVolume []
             ++ match Restic_Local restic with
                | Some l => [localVolume l]
                | None => []
                end) scratchMount).
  { exists (mkVolume ScratchDirVolumeName (emptyDirSource None)).
    split; [|reflexivity].
    apply elem_of_app. right. apply elem_of_app. left. apply list_elem_of_here. }
  split; [exact Hscratch|]. split.
  - intros l ->. split.
    + rewrite !elem_of_app, !elem_of_cons. auto.
    + exists (localVolume l). split; [|reflexivity].
      rewrite !elem_of_app, !elem_of_cons. auto.
  - intros Hdeclared. apply Forall_app. split.
    + eapply Forall_impl; [exact Hdeclared|].
      intros m (vol & Hin & Hname). exists vol. split; [|exact Hname].
      apply elem_of_app. left. exact Hin.
    + apply Forall_app. split; [constructor; [exact Hscratch | constructor]|].
      destruct (Restic_Local restic) as [l |]; [|constructor].
      constructor; [|constructor].
      exists (localVolume l). split; [|reflexivity].
      rewrite !elem_of_app, !elem_of_cons. auto.
Qed.

(** X10: CreateRecoveryJob appends its volumes, it does not upsert them.
    The volumes of the Recovery come first, unchanged; the job then holds one
    more volume named stash-scratchdir than the Recovery declares, one more
    named stash-local exactly when the backend is local, and as many of any
    other name.  So the volume names of the job are distinct if and only if
    those of the Recovery are distinct and avoid the scratch name and, for a
    local backend, the stash-local name. *)
Theorem CreateRecoveryJob_appends_volumes
    (api : ApiPackage) (rec : Recovery) (restic : Restic) (tag : string) :
  let declared := RecoverySpec_Volumes (Recovery_Spec rec) in
  let volumes := Job_Volumes (CreateRecoveryJob api rec restic tag) in
  take (length declared) volumes = declared
  /\ countNamed ScratchDirVolumeName volumes
     = S (countNamed ScratchDirVolumeName declared)
  /\ countNamed LocalVolumeName volumes
     = (match Restic_Local restic with Some _ => 1 | None => 0 end
        + countNamed LocalVolumeName declared)%nat
  /\ (forall name, name <> ScratchDirVolumeName -> name <> LocalVolumeName ->
        countNamed name volumes = countNamed name declared)
  /\ (NoDup (Volume_Name <$> volumes)
      <-> NoDup (Volume_Name <$> declared)
          /\ (ScratchDirVolumeName ∉ (Volume_Name <$> declared))
          /\ (Restic_Local restic <> None ->
              LocalVolumeName ∉ (Volume_Name <$> declared))).
Proof.
  intros declared volumes. subst volumes.
  rewrite CreateRecoveryJob_Volumes. fold declared.
  split; [apply take_app_length|].
  assert (Happ : forall name xs ys,
            countNamed name (xs ++ ys) = (countNamed name xs + countNamed name ys)%nat).
  { intros. unfold countNamed. rewrite filter_app, length_app. reflexivity. }
  assert (Hnone : forall name, countNamed name [] = 0%nat) by reflexivity.
  unfold UpsertScratchVolume, UpsertVolume. simpl.
  split; [|split; [|split]].
  - rewrite !Happ, countNamed_cons. simpl.
    destruct (Restic_Local restic); rewrite ?countNamed_cons, ?Hnone; simpl; lia.
  - rewrite !Happ, countNamed_cons. simpl.
    destruct (Restic_Local restic); rewrite ?countNamed_cons, ?Hnone; simpl; lia.
  - intros name Hs Hl. rewrite !Happ, countNamed_cons. simpl.
    rewrite decide_False by congruence.
    destruct (Restic_Local restic); rewrite ?countNamed_cons, ?Hnone; simpl;
      rewrite ?decide_False by congruence; lia.
  - rewrite !fmap_app. rewrite NoDup_app.
    destruct (Restic_Local restic) as [l |]; cbn [fmap list_fmap app].
    + split.
      * intros (Hd & Hdisj & Hrest). split; [exact Hd|]. split.
        -- intros Hin. apply (Hdisj _ Hin). apply list_elem_of_here.
        -- intros _ Hin. apply (Hdisj _ Hin).
           apply list_elem_of_further, list_elem_of_here.
      * intros (Hd & Hs & Hl). split; [exact Hd|]. split.
        -- intros name Hin Hin'. rewrite !elem_of_cons in Hin'.
           destruct Hin' as [-> | [-> | Hnil]].
           ++ exact (Hs Hin).
           ++ apply Hl; [discriminate | exact Hin].
           ++ apply elem_of_nil in Hnil. exact Hnil.
        -- repeat constructor.
           ++ rewrite elem_of_cons. intros [H | H]; [discriminate H|].
              apply elem_of_nil in H. exact H.
           ++ apply not_elem_of_nil.
    + split.
      * intros (Hd & Hdisj & Hrest). split; [exact Hd|]. split.
        -- intros Hin. apply (Hdisj _ Hin). apply list_elem_of_here.
        -- intros Hne. contradiction.
      * intros (Hd & Hs & Hl). split; [exact Hd|]. split.
        -- intros name Hin Hin'. rewrite !elem_of_cons in Hin'.
           destruct Hin' as [-> | Hnil].
           ++ exact (Hs Hin).
           ++ apply elem_of_nil in Hnil. exact Hnil.
        -- repeat constructor. apply not_elem_of_nil.
Qed.

Example CreateRecoveryJob_duplicate_scratch :
  Volume_Name <$> Job_Volumes
    (CreateRecoveryJob exampleApi exampleRecoveryReservedName exampleNonLocalRestic "0.6.2")
  = [ "data"; "stash-scratchdir"; "stash-scratchdir" ].
Proof. vm_compute. reflexivity. Qed.

(** What the recovery job and the backup sidecar of one policy share. *)
Lemma append_inj_r (p a b : string) : p +:+ a = p +:+ b -> a = b.
Proof. induction p as [| c p IH]; simpl; [auto|]. intros [= H]. auto. Qed.

Lemma CreateSidecarContainer_fields
    (api : ApiPackage) (r : Restic) (tag : string) (workload : LocalTypedReference) :
  let c := CreateSidecarContainer api r tag workload in
  Container_Name c = StashContainer
  /\ Container_Image c = ImageOperator +:+ ":" +:+ effectiveTag api r tag
  /\ Container_VolumeMounts c
     = [ scratchMount; podinfoMount ]
       ++ map readOnlyMount (ResticSpec_VolumeMounts (Restic_Spec r))
       ++ match Restic_Local r with
          | Some l => [ localMount (LocalSpec_Path l) ]
          | None => []
          end.
Proof.
  intros c. subst c. unfold CreateSidecarContainer, effectiveTag.
  fold readOnlyMount. rewrite fold_appendVolumeMounts.
  destruct (Restic_Annotations r !! VersionTag api); simpl;
    destruct (Restic_Local r), (decide _); simpl; rewrite ?app_nil_r;
    repeat split; reflexivity.
Qed.

(** X11: for one policy and one controller tag, the recovery job and the
    sidecar both run a container named stash and, with a local backend, both
    mount stash-local at the path of the backend.  They differ in two ways:
    the job mounts the volumes of the policy as declared where the sidecar
    makes them read-only, and the job takes the controller's tag as it is, so
    the two images are the same only if the version-tag annotation of the
    policy does not change the tag. *)
Theorem CreateRecoveryJob_and_sidecar
    (api : ApiPackage) (rec : Recovery) (r : Restic) (tag : string)
    (workload : LocalTypedReference) :
  let sidecar := CreateSidecarContainer api r tag workload in
  exists c,
    Job_Containers (CreateRecoveryJob api rec r tag) = [c]
    /\ Container_Name c = Container_Name sidecar
    /\ (forall l, Restic_Local r = Some l ->
          localMount (LocalSpec_Path l) ∈ Container_VolumeMounts c
          /\ localMount (LocalSpec_Path l) ∈ Container_VolumeMounts sidecar)
    /\ (forall m, m ∈ ResticSpec_VolumeMounts (Restic_Spec r) ->
          m ∈ Container_VolumeMounts c
          /\ readOnlyMount m ∈ Container_VolumeMounts sidecar)
    /\ (Container_Image c = Container_Image sidecar <-> effectiveTag api r tag = tag).
Proof.
  intros sidecar. subst sidecar.
  destruct (CreateRecoveryJob_Containers api rec r tag) as (c & Hc & Hn & Hi & Hm).
  destruct (CreateSidecarContainer_fields api r tag workload) as (Sn & Si & Sm).
  exists c. split; [exact Hc|]. split; [rewrite Hn, Sn; reflexivity|].
  rewrite Hm, Sm, Hi, Si. split; [|split].
  - intros l ->. rewrite !elem_of_app, !elem_of_cons. auto.
  - intros m Hin. split.
    + apply elem_of_app. left. exact Hin.
    + apply elem_of_app. right. apply elem_of_app. left.
      apply list_elem_of_fmap_2. exact Hin.
  - split.
    + intros H. apply append_inj_r in H. apply append_inj_r in H. congruence.
    + intros ->. reflexivity.
Qed.

(** ** Volume lists *)

Lemma volumeNames_UpsertVolume (volumes : list Volume) (nv : Volume) :
  volumeNames (UpsertVolume volumes nv)
  = if decide (Volume_Name nv ∈ volumeNames volumes) then volumeNames volumes
    else volumeNames volumes ++ [Volume_Name nv].
Proof.
  unfold volumeNames. induction volumes as [| vol volumes IH].
  - reflexivity.
  - rewrite UpsertVolume_cons. cbn [fmap list_fmap].
    destruct (decide (Volume_Name vol = Volume_Name nv)) as [E | NE].
    + cbn [fmap list_fmap]. rewrite decide_True by (rewrite E; apply list_elem_of_here).
      rewrite E. reflexivity.
    + cbn [fmap list_fmap]. rewrite IH.
      destruct (decide (Volume_Name nv ∈ Volume_Name <$> volumes)) as [Hin | Hnin].
      * rewrite decide_True by (apply list_elem_of_further; exact Hin). reflexivity.
      * rewrite decide_False; [reflexivity|].
        rewrite elem_of_cons. intros [H | H]; [congruence | contradiction].
Qed.

Lemma UpsertVolume_NoDup (volumes : list Volume) (nv : Volume) :
  NoDup (volumeNames volumes) -> NoDup (volumeNames (UpsertVolume volumes nv)).
Proof.
  intros Hnd. rewrite volumeNames_UpsertVolume.
  destruct (decide _) as [Hin | Hnin]; [exact Hnd|].
  apply NoDup_app. split; [exact Hnd|]. split.
  - intros x Hx Hx'. apply list_elem_of_singleton in Hx'. subst x. contradiction.
  - apply NoDup_singleton.
Qed.

Lemma UpsertVolume_length (volumes : list Volume) (nv : Volume) :
  length (UpsertVolume volumes nv)
  = if decide (Volume_Name nv ∈ volumeNames volumes) then length volumes
    else S (length volumes).
Proof.
  pose proof (f_equal length (volumeNames_UpsertVolume volumes nv)) as H.
  unfold volumeNames in H. rewrite length_fmap in H. rewrite H.
  destruct (decide _); rewrite ?length_app, length_fmap; simpl; lia.
Qed.

Lemma countNamed_zero (name : string) (volumes : list Volume) :
  countNamed name volumes = 0%nat <-> name ∉ volumeNames volumes.
Proof.
  unfold volumeNames. induction volumes as [| vol volumes IH].
  - split; [intros _; apply not_elem_of_nil | reflexivity].
  - rewrite countNamed_cons. cbn [fmap list_fmap]. rewrite not_elem_of_cons.
    destruct (decide (Volume_Name vol = name)) as [E | NE].
    + split; [discriminate | intros [H _]; congruence].
    + simpl. rewrite IH. split; [intros H; split; [congruence | exact H] | tauto].
Qed.

Lemma UpsertVolume_absent (volumes : list Volume) (nv : Volume) :
  countNamed (Volume_Name nv) volumes = 0%nat ->
  UpsertVolume volumes nv = volumes ++ [nv]
  /\ EnsureVolumeDeleted (UpsertVolume volumes nv) (Volume_Name nv) = volumes.
Proof.
  induction volumes as [| vol volumes IH].
  - intros _. unfold UpsertVolume, EnsureVolumeDeleted, indexOfVolume. simpl.
    rewrite decide_True by reflexivity. simpl. split; reflexivity.
  - rewrite countNamed_cons, UpsertVolume_cons.
    destruct (decide (Volume_Name vol = Volume_Name nv)) as [E | NE]; [discriminate|].
    simpl. intros H0. destruct (IH H0) as [Ha Hd].
    rewrite EnsureVolumeDeleted_cons, decide_False by exact NE.
    rewrite Ha in *. rewrite Hd. split; reflexivity.
Qed.

Lemma EnsureVolumeDeleted_names (volumes : list Volume) (name x : string) :
  x ∈ volumeNames (EnsureVolumeDeleted volumes name) -> x ∈ volumeNames volumes.
Proof.
  unfold volumeNames. induction volumes as [| vol volumes IH]; [auto|].
  rewrite EnsureVolumeDeleted_cons. cbn [fmap list_fmap].
  destruct (decide _).
  - intros H. apply list_elem_of_further. exact H.
  - cbn [fmap list_fmap]. rewrite !elem_of_cons. intros [H | H]; auto.
Qed.

Lemma EnsureVolumeDeleted_NoDup (volumes : list Volume) (name : string) :
  NoDup (volumeNames volumes) ->
  NoDup (volumeNames (EnsureVolumeDeleted volumes name))
  /\ name ∉ volumeNames (EnsureVolumeDeleted volumes name).
Proof.
  unfold volumeNames. induction volumes as [| vol volumes IH].
  - intros _. split; [constructor | apply not_elem_of_nil].
  - cbn [fmap list_fmap]. intros Hnd. apply NoDup_cons in Hnd as [Hnin Hnd].
    rewrite EnsureVolumeDeleted_cons.
    destruct (decide (Volume_Name vol = name)) as [E | NE].
    + split; [exact Hnd | rewrite <- E; exact Hnin].
    + cbn [fmap list_fmap]. destruct (IH Hnd) as [IHn IHa]. split.
      * apply NoDup_cons. split; [|exact IHn].
        intros Hin. apply Hnin. apply (EnsureVolumeDeleted_names volumes name). exact Hin.
      * rewrite not_elem_of_cons. split; [congruence | exact IHa].
Qed.

Lemma EnsureVolumeDeleted_length (volumes : list Volume) (name : string) :
  length (EnsureVolumeDeleted volumes name)
  = if decide (name ∈ volumeNames volumes) then Nat.pred (length volumes)
    else length volumes.
Proof.
  unfold volumeNames. induction volumes as [| vol volumes IH].
  - reflexivity.
  - rewrite EnsureVolumeDeleted_cons. cbn [fmap list_fmap].
    destruct (decide (Volume_Name vol = name)) as [E | NE].
    + rewrite decide_True by (rewrite E; apply list_elem_of_here). reflexivity.
    + simpl. rewrite IH.
      destruct (decide (name ∈ Volume_Name <$> volumes)) as [Hin | Hnin].
      * rewrite decide_True by (apply list_elem_of_further; exact Hin).
        destruct volumes; [apply elem_of_nil in Hin; contradiction | reflexivity].
      * rewrite decide_False; [reflexivity|].
        rewrite elem_of_cons. intros [H | H]; [congruence | contradiction].
Qed.

(** The upsert overwrites the first volume of the name, where it stands. *)
Lemma UpsertVolume_first (volumes : list Volume) (nv : Volume) :
  Volume_Name nv ∈ volumeNames volumes ->
  exists before old after,
    volumes = before ++ old :: after
    /\ (Volume_Name nv ∉ volumeNames before)
    /\ Volume_Name old = Volume_Name nv
    /\ UpsertVolume volumes nv = before ++ nv :: after.
Proof.
  unfold volumeNames. induction volumes as [| vol volumes IH].
  - intros H. apply elem_of_nil in H. contradiction.
  - cbn [fmap list_fmap]. rewrite UpsertVolume_cons.
    destruct (decide (Volume_Name vol = Volume_Name nv)) as [E | NE].
    + intros _. exists [], vol, volumes.
      split; [reflexivity|]. split; [apply not_elem_of_nil|]. split; [exact E | reflexivity].
    + rewrite elem_of_cons. intros [H | H]; [congruence|].
      destruct (IH H) as (before & old & after & Hv & Hb & Ho & Hr).
      exists (vol :: before), old, after. cbn [fmap list_fmap app].
      split; [rewrite Hv; reflexivity|].
      split; [rewrite not_elem_of_cons; split; [congruence | exact Hb]|].
      split; [exact Ho | rewrite Hr; reflexivity].
Qed.

(** The deletion takes out the first volume of the name. *)
Lemma EnsureVolumeDeleted_first (volumes : list Volume) (name : string) :
  name ∈ volumeNames volumes ->
  exists before old after,
    volumes = before ++ old :: after
    /\ (name ∉ volumeNames before)
    /\ Volume_Name old = name
    /\ EnsureVolumeDeleted volumes name = before ++ after.
Proof.
  unfold volumeNames. induction volumes as [| vol volumes IH].
  - intros H. apply elem_of_nil in H. contradiction.
  - cbn [fmap list_fmap]. rewrite EnsureVolumeDeleted_cons.
    destruct (decide (Volume_Name vol = name)) as [E | NE].
    + intros _. exists [], vol, volumes.
      split; [reflexivity|]. split; [apply not_elem_of_nil|]. split; [exact E | reflexivity].
    + rewrite elem_of_cons. intros [H | H]; [congruence|].
      destruct (IH H) as (before & old & after & Hv & Hb & Ho & Hr).
      exists (vol :: before), old, after. cbn [fmap list_fmap app].
      split; [rewrite Hv; reflexivity|].
      split; [rewrite not_elem_of_cons; split; [congruence | exact Hb]|].
      split; [exact Ho | rewrite Hr; reflexivity].
Qed.

(** X12: UpsertScratchVolume makes sure that the list holds the scratch
    volume and changes nothing else.  The result contains the emptyDir volume
    stash-scratchdir; a volume of that name that was there is overwritten in
    place, the first one if there are several, otherwise the volume is
    appended, so the length grows by at most one and the volumes of other
    names stay in their order; distinct names stay distinct; a second
    application changes nothing; and deleting the name from the result of an
    upsert into a list that lacked it gives the list back. *)
Theorem UpsertScratchVolume_spec (volumes : list Volume) :
  let r := UpsertScratchVolume volumes in
  scratchVolume ∈ r
  /\ UpsertScratchVolume r = r
  /\ countNamed ScratchDirVolumeName r
     = Nat.max 1 (countNamed ScratchDirVolumeName volumes)
  /\ volumesNotNamed ScratchDirVolumeName r
     = volumesNotNamed ScratchDirVolumeName volumes
  /\ length r = (if decide (ScratchDirVolumeName ∈ volumeNames volumes)
                 then length volumes else S (length volumes))
  /\ (NoDup (volumeNames volumes) -> NoDup (volumeNames r))
  /\ (ScratchDirVolumeName ∉ volumeNames volumes ->
        r = volumes ++ [scratchVolume]
        /\ EnsureVolumeDeleted r ScratchDirVolumeName = volumes)
  /\ (ScratchDirVolumeName ∈ volumeNames volumes ->
        exists before old after,
          volumes = before ++ old :: after
          /\ (ScratchDirVolumeName ∉ volumeNames before)
          /\ Volume_Name old = ScratchDirVolumeName
          /\ r = before ++ scratchVolume :: after).
Proof.
  intros r. subst r. unfold UpsertScratchVolume. fold scratchVolume.
  split; [apply UpsertVolume_elem|].
  split; [apply UpsertVolume_idempotent|].
  split; [apply (UpsertVolume_count scratchVolume)|].
  split; [apply (UpsertVolume_others scratchVolume)|].
  split; [apply (UpsertVolume_length volumes scratchVolume)|].
  split; [apply UpsertVolume_NoDup|].
  split.
  - intros Habsent. apply countNamed_zero in Habsent.
    exact (UpsertVolume_absent volumes scratchVolume Habsent).
  - intros Hin. exact (UpsertVolume_first volumes scratchVolume Hin).
Qed.

(** X13: EnsureVolumeDeleted removes the first volume of the given name and
    nothing else.  On a list without the name it returns the list; otherwise
    the volume taken out is the first of that name, the volumes before and
    after it stay as they are, so the list is one shorter and holds one
    volume of the name less; the volumes of other names stay in their order;
    and on a list of distinct names the name is gone from the result, whose
    names are still distinct. *)
Theorem EnsureVolumeDeleted_spec (volumes : list Volume) (name : string) :
  let r := EnsureVolumeDeleted volumes name in
  (name ∉ volumeNames volumes -> r = volumes)
  /\ countNamed name r = Nat.pred (countNamed name volumes)
  /\ length r = (if decide (name ∈ volumeNames volumes)
                 then Nat.pred (length volumes) else length volumes)
  /\ volumesNotNamed name r = volumesNotNamed name volumes
  /\ (NoDup (volumeNames volumes) -> NoDup (volumeNames r) /\ name ∉ volumeNames r)
  /\ (name ∈ volumeNames volumes ->
        exists before old after,
          volumes = before ++ old :: after
          /\ (name ∉ volumeNames before)
          /\ Volume_Name old = name
          /\ r = before ++ after).
Proof.
  intros r. subst r.
  split; [intros H; apply EnsureVolumeDeleted_absent, countNamed_zero; exact H|].
  split; [apply EnsureVolumeDeleted_count|].
  split; [apply EnsureVolumeDeleted_length|].
  split; [apply EnsureVolumeDeleted_others|].
  split; [apply EnsureVolumeDeleted_NoDup|].
  apply EnsureVolumeDeleted_first.
Qed.

(** X14: on every volume list, also one that holds the well-known name
    more than once, MergeLocalVolume keeps the volumes of other names in
    their order, keeps distinct names distinct and changes the length by at
    most one; with a local new backend the result contains the volume of that
    backend.  When neither the old nor the new backend is local the list is
    returned as it is, so a stash-local volume that is in it stays. *)
Theorem MergeLocalVolume_any_list
    (volumes : list Volume) (old : option Restic) (new : Restic) :
  let r := MergeLocalVolume volumes old new in
  volumesNotNamed LocalVolumeName r = volumesNotNamed LocalVolumeName volumes
  /\ (NoDup (volumeNames volumes) -> NoDup (volumeNames r))
  /\ (Nat.pred (length volumes) <= length r <= S (length volumes))%nat
  /\ (forall l, Restic_Local new = Some l -> localVolume l ∈ r)
  /\ (old ≫= Restic_Local = None -> Restic_Local new = None -> r = volumes).
Proof.
  intros r. subst r.
  split; [apply MergeLocalVolume_keeps_others|].
  destruct (Restic_Local new) as [l |] eqn:Hl.
  - rewrite (MergeLocalVolume_local _ _ _ l Hl).
    split; [apply UpsertVolume_NoDup|]. split.
    + rewrite UpsertVolume_length. destruct (decide _); lia.
    + split; [|discriminate]. intros l' [= <-]. apply UpsertVolume_elem.
  - rewrite (MergeLocalVolume_not_local _ _ _ Hl).
    destruct (old ≫= Restic_Local) as [lo |].
    + split; [intros Hnd; apply EnsureVolumeDeleted_NoDup; exact Hnd|]. split.
      * rewrite EnsureVolumeDeleted_length. destruct (decide _); lia.
      * split; [discriminate | discriminate].
    + split; [auto|]. split; [lia|]. split; [discriminate | reflexivity].
Qed.

Example MergeLocalVolume_stale_volume :
  MergeLocalVolume exampleVolumes None exampleNonLocalRestic = exampleVolumes.
Proof. reflexivity. Qed.

(** ** ResticEqual as a relation *)

Lemma Quantity_Cmp_zero (x y : Quantity) :
  Quantity_Cmp x y = 0
  <-> (Quantity_amount x).1
        * 10 ^ ((Quantity_amount x).2
                - Z.min (Quantity_amount x).2 (Quantity_amount y).2)
      = (Quantity_amount y).1
        * 10 ^ ((Quantity_amount y).2
                - Z.min (Quantity_amount x).2 (Quantity_amount y).2).
Proof.
  unfold Quantity_Cmp.
  destruct (Quantity_amount x) as [mx ex], (Quantity_amount y) as [my ey]. simpl.
  destruct (Z.compare_spec (mx * 10 ^ (ex - Z.min ex ey)) (my * 10 ^ (ey - Z.min ex ey)));
    split; intros; try lia; try discriminate.
Qed.

(** Two amounts that agree at one common exponent agree at every smaller
    one, and the other way round. *)
Lemma amounts_rescale (mx ex my ey e c : Z) :
  c <= e -> e <= ex -> e <= ey ->
  (mx * 10 ^ (ex - e) = my * 10 ^ (ey - e)
   <-> mx * 10 ^ (ex - c) = my * 10 ^ (ey - c)).
Proof.
  intros Hc Hx Hy.
  replace (ex - c) with ((ex - e) + (e - c)) by lia.
  replace (ey - c) with ((ey - e) + (e - c)) by lia.
  rewrite !Z.pow_add_r by lia. rewrite !Z.mul_assoc.
  assert (Hpos : 0 < 10 ^ (e - c)) by (apply Z.pow_pos_nonneg; lia).
  split.
  - intros ->. reflexivity.
  - intros H. apply Z.mul_cancel_r in H; [exact H | lia].
Qed.

Lemma quantityComparer_sym (x y : Quantity) :
  quantityComparer x y = true -> quantityComparer y x = true.
Proof.
  unfold quantityComparer. rewrite !bool_decide_eq_true, !Quantity_Cmp_zero.
  rewrite (Z.min_comm (Quantity_amount y).2). intros ->. reflexivity.
Qed.

Lemma quantityComparer_trans (x y z : Quantity) :
  quantityComparer x y = true -> quantityComparer y z = true ->
  quantityComparer x z = true.
Proof.
  unfold quantityComparer. rewrite !bool_decide_eq_true, !Quantity_Cmp_zero.
  destruct (Quantity_amount x) as [mx ex], (Quantity_amount y) as [my ey],
    (Quantity_amount z) as [mz ez]. simpl.
  set (c := Z.min ex (Z.min ey ez)).
  intros Hxy Hyz.
  apply (amounts_rescale mx ex my ey (Z.min ex ey) c) in Hxy; [|subst c; lia..].
  apply (amounts_rescale my ey mz ez (Z.min ey ez) c) in Hyz; [|subst c; lia..].
  apply (amounts_rescale mx ex mz ez (Z.min ex ez) c); [subst c; lia..|].
  congruence.
Qed.

Section CmpRelation.
Variable qeq : Quantity -> Quantity -> bool.
Hypothesis qeq_sym : forall x y, qeq x y = true -> qeq y x = true.
Hypothesis qeq_trans : forall x y z, qeq x y = true -> qeq y z = true -> qeq x z = true.

(** Two maps are equal for the walk when they agree key by key. *)
Lemma equalMap_lookup (x y : gmap string Quantity) :
  equalMap qeq x y = true
  <-> forall k, equalOption qeq (x !! k) (y !! k) = true.
Proof.
  unfold equalMap. rewrite andb_true_iff, bool_decide_eq_true, forallb_forall. split.
  - intros [Hdom Hall] k.
    destruct (x !! k) as [a |] eqn:Ex.
    + apply (Hall (k, a)). apply list_elem_of_In, elem_of_map_to_list. exact Ex.
    + apply not_elem_of_dom in Ex. rewrite Hdom in Ex. apply not_elem_of_dom in Ex.
      rewrite Ex. reflexivity.
  - intros Hk. split.
    + apply set_eq. intros k. rewrite !elem_of_dom. specialize (Hk k).
      destruct (x !! k), (y !! k); simpl in Hk; try discriminate;
        split; intros [? ?]; eauto; discriminate.
    + intros [k a] Hin. apply list_elem_of_In, elem_of_map_to_list in Hin.
      specialize (Hk k). simpl in *. rewrite Hin in Hk. exact Hk.
Qed.

Lemma equalOption_sym {A : Type} (eq : A -> A -> bool) (x y : option A) :
  (forall a b, eq a b = true -> eq b a = true) ->
  equalOption eq x y = true -> equalOption eq y x = true.
Proof. intros H. destruct x, y; simpl; auto. Qed.

Lemma equalOption_trans {A : Type} (eq : A -> A -> bool) (x y z : option A) :
  (forall a b c, eq a b = true -> eq b c = true -> eq a c = true) ->
  equalOption eq x y = true -> equalOption eq y z = true -> equalOption eq x z = true.
Proof. intros H. destruct x, y, z; simpl; eauto; discriminate. Qed.

Ltac split_walk :=
  repeat match goal with
         | H : _ && _ = true |- _ => apply andb_true_iff in H; destruct H
         | H : bool_decide _ = true |- _ => apply bool_decide_eq_true_1 in H
         | |- _ && _ = true => apply andb_true_iff; split
         | |- bool_decide _ = true => apply bool_decide_eq_true_2
         end.

Lemma equalEmptyDir_sym (x y : EmptyDirVolumeSource) :
  equalEmptyDir qeq x y = true -> equalEmptyDir qeq y x = true.
Proof.
  unfold equalEmptyDir. intros H. split_walk; [congruence|].
  eapply equalOption_sym; eauto.
Qed.

Lemma equalEmptyDir_trans (x y z : EmptyDirVolumeSource) :
  equalEmptyDir qeq x y = true -> equalEmptyDir qeq y z = true ->
  equalEmptyDir qeq x z = true.
Proof.
  unfold equalEmptyDir. intros H1 H2. split_walk; [congruence|].
  eapply equalOption_trans; eauto.
Qed.

Lemma equalBackend_sym (x y : Backend) :
  equalBackend qeq x y = true -> equalBackend qeq y x = true.
Proof.
  unfold equalBackend. intros H. split_walk; try congruence.
  eapply equalOption_sym; [|eassumption].
  unfold equalLocalSpec, equalVolumeSource. intros a b Hab. split_walk; try congruence.
  eapply equalOption_sym; [|eassumption]. apply equalEmptyDir_sym.
Qed.

Lemma equalBackend_trans (x y z : Backend) :
  equalBackend qeq x y = true -> equalBackend qeq y z = true ->
  equalBackend qeq x z = true.
Proof.
  unfold equalBackend. intros H1 H2. split_walk; try congruence.
  eapply equalOption_trans; [|eassumption..].
  unfold equalLocalSpec, equalVolumeSource. intros a b c Hab Hbc.
  split_walk; try congruence.
  eapply equalOption_trans; [|eassumption..]. apply equalEmptyDir_trans.
Qed.

Lemma equalMap_sym (x y : gmap string Quantity) :
  equalMap qeq x y = true -> equalMap qeq y x = true.
Proof.
  rewrite !equalMap_lookup. intros H k. eapply equalOption_sym; eauto.
Qed.

Lemma equalMap_trans (x y z : gmap string Quantity) :
  equalMap qeq x y = true -> equalMap qeq y z = true -> equalMap qeq x z = true.
Proof.
  rewrite !equalMap_lookup. intros H1 H2 k. eapply equalOption_trans; eauto.
Qed.

Lemma equalResticSpec_sym (x y : ResticSpec) :
  equalResticSpec qeq x y = true -> equalResticSpec qeq y x = true.
Proof.
  unfold equalResticSpec, equalResources. intros H. split_walk; try congruence.
  - apply equalBackend_sym. assumption.
  - apply equalMap_sym. assumption.
  - apply equalMap_sym. assumption.
Qed.

Lemma equalResticSpec_trans (x y z : ResticSpec) :
  equalResticSpec qeq x y = true -> equalResticSpec qeq y z = true ->
  equalResticSpec qeq x z = true.
Proof.
  unfold equalResticSpec, equalResources. intros H1 H2. split_walk; try congruence.
  - eapply equalBackend_trans; eassumption.
  - eapply equalMap_trans; eassumption.
  - eapply equalMap_trans; eassumption.
Qed.
End CmpRelation.

(** X15: ResticEqual is an equivalence relation on policies and nil: it is
    reflexive, symmetric and transitive.  Two nil policies are equal and a
    nil policy equals no policy.  Equal stored specs are ResticEqual, so the
    relation is coarser than the one RecoveryEqual-style deep equality
    gives. *)
Theorem ResticEqual_equivalence :
  (forall a : option Restic, ResticEqual a a = true)
  /\ (forall a b : option Restic, ResticEqual a b = true -> ResticEqual b a = true)
  /\ (forall a b c : option Restic,
        ResticEqual a b = true -> ResticEqual b c = true -> ResticEqual a c = true)
  /\ (forall r : Restic,
        ResticEqual None (Some r) = false /\ ResticEqual (Some r) None = false)
  /\ (forall a b : Restic,
        DeepEqual (Some (Restic_Spec a)) (Some (Restic_Spec b)) = true ->
        ResticEqual (Some a) (Some b) = true).
Proof.
  split; [|split; [|split; [|split]]].
  - intros [a |]; [|reflexivity]. unfold ResticEqual. simpl.
    apply equalResticSpec_refl, quantityComparer_refl.
  - intros a b. unfold ResticEqual. apply equalOption_sym.
    apply equalResticSpec_sym. exact quantityComparer_sym.
  - intros a b c. unfold ResticEqual. apply equalOption_trans.
    apply equalResticSpec_trans. exact quantityComparer_trans.
  - intros r. split; reflexivity.
  - intros a b H. unfold DeepEqual in H. apply bool_decide_eq_true_1 in H.
    injection H as H. unfold ResticEqual. simpl. rewrite H.
    apply equalResticSpec_refl, quantityComparer_refl.
Qed.

(** ** Initializers *)

(** X16: of the two tests on the pending initializers at most one holds,
    and one of them holds exactly when there is a pending initializer.  Only
    the first pending initializer counts: the object is to be initialized by
    Stash itself when that one is stash.appscode.com, by a peer otherwise,
    whatever follows it.  Without initializers, or with none pending, both
    tests are false. *)
Theorem ToBeInitialized_partition (initializers : option Initializers) :
  ToBeInitializedByPeer initializers && ToBeInitializedBySelf initializers = false
  /\ (ToBeInitializedByPeer initializers || ToBeInitializedBySelf initializers = true
      <-> exists i first rest,
            initializers = Some i /\ Initializers_Pending i = first :: rest)
  /\ (ToBeInitializedBySelf initializers = true
      <-> exists i first rest,
            initializers = Some i /\ Initializers_Pending i = first :: rest
            /\ Initializer_Name first = StashInitializerName)
  /\ (forall first rest rest',
        ToBeInitializedBySelf (Some (mkInitializers (first :: rest)))
        = ToBeInitializedBySelf (Some (mkInitializers (first :: rest')))
        /\ ToBeInitializedByPeer (Some (mkInitializers (first :: rest)))
           = ToBeInitializedByPeer (Some (mkInitializers (first :: rest')))).
Proof.
  split; [|split; [|split]].
  - destruct initializers as [[[| first rest]] |]; simpl; try reflexivity.
    destruct (bool_decide _); reflexivity.
  - destruct initializers as [[[| first rest]] |]; simpl.
    + split; [discriminate | intros (i & f & r & [= <-] & H); discriminate H].
    + split; [intros _; eauto | intros _; destruct (bool_decide _); reflexivity].
    + split; [discriminate | intros (i & f & r & H & _); discriminate H].
  - destruct initializers as [[[| first rest]] |]; simpl.
    + split; [discriminate | intros (i & f & r & [= <-] & H & _); discriminate H].
    + rewrite bool_decide_eq_true. split.
      * intros H. eauto 6.
      * intros (i & f & r & [= <-] & [= <- <-] & H). exact H.
    + split; [discriminate | intros (i & f & r & H & _); discriminate H].
  - intros. split; reflexivity.
Qed.

(** ** The name of the lock *)

Lemma toLowerAscii_idempotent (c : Ascii.ascii) :
  toLowerAscii (toLowerAscii c) = toLowerAscii c.
Proof. destruct c as [[] [] [] [] [] [] [] []]; reflexivity. Qed.

Lemma toLowerAscii_ascii (c : Ascii.ascii) :
  Nat.ltb (Ascii.nat_of_ascii (toLowerAscii c)) 128
  = Nat.ltb (Ascii.nat_of_ascii c) 128.
Proof. destruct c as [[] [] [] [] [] [] [] []]; reflexivity. Qed.

Lemma ToLower_app (a b : string) : ToLower (a +:+ b) = ToLower a +:+ ToLower b.
Proof. induction a as [| c a IH]; simpl; [reflexivity | rewrite IH; reflexivity]. Qed.

Lemma ToLower_idempotent (s : string) : ToLower (ToLower s) = ToLower s.
Proof.
  induction s as [| c s IH]; simpl; [reflexivity|].
  rewrite toLowerAscii_idempotent, IH. reflexivity.
Qed.

Lemma ToLower_isASCII (s : string) : isASCII (ToLower s) = isASCII s.
Proof.
  induction s as [| c s IH]; simpl; [reflexivity|].
  rewrite toLowerAscii_ascii, IH. reflexivity.
Qed.

Lemma isASCII_app (a b : string) : isASCII (a +:+ b) = isASCII a && isASCII b.
Proof.
  induction a as [| c a IH]; simpl; [reflexivity|].
  rewrite IH, andb_assoc. reflexivity.
Qed.

(** X17: for workload references written in ASCII, the lock name is the
    text lock-KIND-NAME with kind and name in lower case.  It is already in
    lower case, and two references whose kinds and names differ only in the
    case of their letters share one lock name. *)
Theorem GetConfigmapLockName_case_insensitive (w w' : LocalTypedReference) :
  isASCII (LocalTypedReference_Kind w) = true ->
  isASCII (LocalTypedReference_Name w) = true ->
  isASCII (LocalTypedReference_Kind w') = true ->
  isASCII (LocalTypedReference_Name w') = true ->
  GetConfigmapLockName w
  = "lock-" +:+ ToLower (LocalTypedReference_Kind w) +:+ "-"
    +:+ ToLower (LocalTypedReference_Name w)
  /\ ToLower (GetConfigmapLockName w) = GetConfigmapLockName w
  /\ isASCII (GetConfigmapLockName w) = true
  /\ (ToLower (LocalTypedReference_Kind w) = ToLower (LocalTypedReference_Kind w') ->
      ToLower (LocalTypedReference_Name w) = ToLower (LocalTypedReference_Name w') ->
      GetConfigmapLockName w = GetConfigmapLockName w').
Proof.
  intros Hk Hn Hk' Hn'. unfold GetConfigmapLockName.
  rewrite !ToLower_app. split; [reflexivity|]. split; [|split].
  - rewrite ?ToLower_app, !ToLower_idempotent. reflexivity.
  - rewrite !isASCII_app, !ToLower_isASCII, Hk, Hn. reflexivity.
  - intros -> ->. reflexivity.
Qed.

Lemma GetConfigmapLockName_case_insensitive_witness :
  GetConfigmapLockName (mkLocalTypedReference "Deployment" "DB")
  = "lock-" +:+ ToLower "Deployment" +:+ "-" +:+ ToLower "DB"
  /\ ToLower (GetConfigmapLockName (mkLocalTypedReference "Deployment" "DB"))
     = GetConfigmapLockName (mkLocalTypedReference "Deployment" "DB")
  /\ isASCII (GetConfigmapLockName (mkLocalTypedReference "Deployment" "DB")) = true
  /\ (ToLower "Deployment" = ToLower "deployment" ->
      ToLower "DB" = ToLower "db" ->
      GetConfigmapLockName (mkLocalTypedReference "Deployment" "DB")
      = GetConfigmapLockName (mkLocalTypedReference "deployment" "db")).
Proof.
  apply (GetConfigmapLockName_case_insensitive
           (mkLocalTypedReference "Deployment" "DB")
           (mkLocalTypedReference "deployment" "db")); reflexivity.
Defined.

Example GetConfigmapLockName_value :
  GetConfigmapLockName (mkLocalTypedReference "StatefulSet" "Web-0")
  = "lock-statefulset-web-0".
Proof. reflexivity. Qed.

(** ** FindRestic *)

Section FindResticProperties.
Variable labels : LabelsPackage.

(** The loop returns the policies that match, in the order of the list,
    after those found before, provided every selector converts. *)
Lemma matchingRestics_converts (objLabels : gmap string string)
    (restics result : list Restic) :
  Forall (selectorConverts labels) restics ->
  matchingRestics labels objLabels restics result
  = inl (result ++ filter (fun r => resticMatches labels objLabels r = true) restics).
Proof.
  intros Hall. revert result.
  induction Hall as [| restic restics [selector Hs] _ IH]; intros result; simpl.
  - rewrite app_nil_r. reflexivity.
  - assert (Hrm : resticMatches labels objLabels restic
                  = Selector_Matches labels selector objLabels).
    { unfold resticMatches. rewrite Hs. reflexivity. }
    rewrite filter_cons, Hs.
    destruct (Selector_Matches labels selector objLabels).
    + rewrite decide_True by exact Hrm. rewrite IH, <- app_assoc. reflexivity.
    + rewrite decide_False by (rewrite Hrm; discriminate). apply IH.
Qed.

(** A result of the loop means that every selector converted. *)
Lemma matchingRestics_inl (objLabels : gmap string string)
    (restics result found : list Restic) :
  matchingRestics labels objLabels restics result = inl found ->
  Forall (selectorConverts labels) restics.
Proof.
  revert result. induction restics as [| restic restics IH]; intros result; simpl.
  - constructor.
  - destruct (LabelSelectorAsSelector labels _) as [selector | err] eqn:Hs; [|discriminate].
    intros H. constructor; [exists selector; exact Hs|].
    destruct (Selector_Matches labels selector objLabels); eapply IH; exact H.
Qed.

(** X18: FindRestic returns a policy, and then no error, exactly when the
    list call succeeds, the selector of every listed policy converts and
    exactly one listed policy matches the labels of the object; the policy
    returned is that one. *)
Theorem FindRestic_exactly_one
    (lister : string -> list Restic + error) (obj : ObjectMeta) (r : Restic) :
  FindRestic labels lister obj = (Some r, None)
  <-> exists restics,
        lister (ObjectMeta_Namespace obj) = inl restics
        /\ Forall (selectorConverts labels) restics
        /\ filter (fun x => resticMatches labels (ObjectMeta_Labels obj) x = true) restics
           = [r].
Proof.
  unfold FindRestic. split.
  - destruct (lister _) as [restics | err];
      [|destruct (IsNotFound err); discriminate].
    destruct (matchingRestics _ _ _ _) as [found | err] eqn:Hm; [|discriminate].
    pose proof (matchingRestics_inl _ _ _ _ Hm) as Hall.
    rewrite (matchingRestics_converts _ _ _ Hall) in Hm. injection Hm as <-. simpl.
    intros H. exists restics. split; [reflexivity|]. split; [exact Hall|].
    destruct (filter _ restics) as [| a [| b rest]]; simpl in H.
    + discriminate.
    + injection H as ->. reflexivity.
    + discriminate.
  - intros (restics & -> & Hall & Hone).
    rewrite (matchingRestics_converts _ _ _ Hall). simpl. rewrite Hone. reflexivity.
Qed.

(** X19: the other outcomes of FindRestic.  It never returns a policy
    together with an error.  It returns neither when the list call answers
    NotFound, or when every selector converts and no listed policy matches.
    When two or more match, it returns an error whose text lists the names
    of all of them in the order of the list.  Any other error of the list
    call is returned as it is, and a selector that does not convert makes
    the whole search fail. *)
Theorem FindRestic_other_outcomes
    (lister : string -> list Restic + error) (obj : ObjectMeta) :
  let matching restics :=
    filter (fun x => resticMatches labels (ObjectMeta_Labels obj) x = true) restics in
  ((FindRestic labels lister obj).1 = None \/ (FindRestic labels lister obj).2 = None)
  /\ (forall err, lister (ObjectMeta_Namespace obj) = inr err ->
        FindRestic labels lister obj
        = (None, if IsNotFound err then None else Some err))
  /\ (forall restics,
        lister (ObjectMeta_Namespace obj) = inl restics ->
        Forall (selectorConverts labels) restics ->
        matching restics = [] ->
        FindRestic labels lister obj = (None, None))
  /\ (forall restics,
        lister (ObjectMeta_Namespace obj) = inl restics ->
        Forall (selectorConverts labels) restics ->
        (2 <= length (matching restics))%nat ->
        FindRestic labels lister obj
        = (None,
           Some (errors_New
                   ("Workload " +:+ ObjectMeta_Namespace obj +:+ "/"
                    +:+ ObjectMeta_Name obj +:+ " matches multiple Restics:"
                    +:+ String.concat ", " (Restic_Name <$> matching restics)))))
  /\ (forall restics,
        lister (ObjectMeta_Namespace obj) = inl restics ->
        ~ Forall (selectorConverts labels) restics ->
        (FindRestic labels lister obj).1 = None
        /\ (FindRestic labels lister obj).2 <> None).
Proof.
  intros matching. subst matching. unfold FindRestic.
  split; [|split; [|split; [|split]]].
  - destruct (lister _) as [restics | err]; [|destruct (IsNotFound err); auto].
    destruct (matchingRestics _ _ _ _) as [found | err]; [|auto].
    destruct (bool_decide _); [auto|]. destruct found as [| a [| b rest]]; auto.
  - intros err ->. destruct (IsNotFound err); reflexivity.
  - intros restics -> Hall Hnone.
    rewrite (matchingRestics_converts _ _ _ Hall). simpl. rewrite Hnone. reflexivity.
  - intros restics -> Hall Htwo.
    rewrite (matchingRestics_converts _ _ _ Hall). simpl.
    rewrite bool_decide_eq_true_2 by lia. reflexivity.
  - intros restics -> Hnot.
    destruct (matchingRestics _ _ _ _) as [found | err] eqn:Hm.
    + exfalso. apply Hnot. eapply matchingRestics_inl. exact Hm.
    + split; [reflexivity | discriminate].
Qed.
End FindResticProperties.

Example FindRestic_finds_one :
  FindRestic exampleLabels exampleLister
    (mkObjectMeta "db" "default" "uid-db" "1" {[ "app" := "db" ]} ∅)
  = (Some (exampleResticSelecting "db-backup" {[ "app" := "db" ]}), None).
Proof. vm_compute. reflexivity. Qed.

Example FindRestic_finds_two :
  FindRestic exampleLabels exampleLister
    (mkObjectMeta "db" "default" "uid-db" "1" {[ "app" := "db"; "tier" := "data" ]} ∅)
  = (None,
     Some (errors_New
             "Workload default/db matches multiple Restics:db-backup, tier-backup")).
Proof. vm_compute. reflexivity. Qed.

Example FindRestic_other_namespace :
  FindRestic exampleLabels exampleLister
    (mkObjectMeta "db" "staging" "uid-db" "1" {[ "app" := "db" ]} ∅)
  = (None, None).
Proof. vm_compute. reflexivity. Qed.

(** * Waiting for pods and cleaning up *)

Lemma kexec_bind {W A B : Type} (h : KubeHandler W) (p : KProg A) (f : A -> KProg B)
    (w : W) :
  kexec h (p ≫= f) w =
    let '(a, w1, cs1) := kexec h p w in
    let '(b, w2, cs2) := kexec h (f a) w1 in
    (b, w2, cs1 ++ cs2).
Proof.
  revert w. induction p as [a | o k IH]; intros w.
  - unfold mbind, KProg_bind. simpl. destruct (kexec h (f a) w) as [[b w2] cs2].
    reflexivity.
  - unfold mbind, KProg_bind in *. simpl.
    destruct (h o w) as [r w1]. rewrite IH.
    destruct (kexec h (k r) w1) as [[a w2] cs1].
    destruct (kexec h (f a) w2) as [[b w3] cs2]. reflexivity.
Qed.

(** The loop over the pods to restart asks for each pod to be deleted, in
    order, whatever the answers. *)
Lemma kexec_deletePods {W : Type} (h : KubeHandler W) (namespace : string)
    (pods : list Pod) (w : W) :
  kubeOpOf <$> (kexec h (deletePods namespace pods) w).2
  = (fun pod => Pods_Delete namespace (Pod_Name pod)) <$> pods.
Proof.
  revert w. induction pods as [| pod pods IH]; intros w; [reflexivity|].
  cbn [deletePods]. rewrite kexec_bind. cbn [kexec kcall].
  destruct (h (Pods_Delete namespace (Pod_Name pod)) w) as [r w1]. cbn [kexec].
  specialize (IH w1). destruct (kexec h (deletePods namespace pods) w1) as [[u w2] cs].
  cbn [snd app fmap list_fmap] in *. rewrite IH. reflexivity.
Qed.

Lemma filter_none_length {A : Type} (P : A -> bool) (l : list A) :
  length (filter (fun x => P x = false) l) = 0%nat <-> Forall (fun x => P x = true) l.
Proof.
  induction l as [| a l IH]; [split; [constructor | reflexivity]|].
  rewrite filter_cons. destruct (P a) eqn:E.
  - rewrite decide_False by discriminate. rewrite IH. split.
    + intros H. constructor; assumption.
    + intros H. inversion H; assumption.
  - rewrite decide_True by reflexivity. simpl. split; [discriminate|].
    intros H. inversion H; congruence.
Qed.

Lemma filter_all_length {A : Type} (P : A -> bool) (l : list A) :
  length (filter (fun x => P x = true) l) = 0%nat <-> Forall (fun x => P x = false) l.
Proof.
  induction l as [| a l IH]; [split; [constructor | reflexivity]|].
  rewrite filter_cons. destruct (P a) eqn:E.
  - rewrite decide_True by reflexivity. simpl. split; [discriminate|].
    intros H. inversion H; congruence.
  - rewrite decide_False by discriminate. rewrite IH. split.
    + intros H. constructor; assumption.
    + intros H. inversion H; assumption.
Qed.

Section WaitingProperties.
Variable api : ApiPackage.
Variable labels : LabelsPackage.
Variable Job_Selector : Job -> option LabelSelector.
Context {W : Type} (h : KubeHandler W).

(** X20: one attempt of each wait, on the pods that the list call
    returned.  The attempt of WaitUntilSidecarAdded asks to delete exactly
    the listed pods that have no container named stash, in the order of the
    list, and succeeds if and only if there is none; the attempt of
    WaitUntilSidecarRemoved does the same with the pods that have one.  The
    answers to the delete calls do not matter. *)
Theorem sidecar_attempts
    (namespace : string) (selector : option LabelSelector) (r : Selector labels)
    (pods : list Pod) (w w1 : W) :
  LabelSelectorAsSelector labels selector = inl r ->
  h (Pods_List namespace (Selector_String labels r)) w = (inl pods, w1) ->
  let added := kexec h (sidecarAddedAttempt labels namespace selector) w in
  let removed := kexec h (sidecarRemovedAttempt labels namespace selector) w in
  kubeOpOf <$> kcalls added
  = Pods_List namespace (Selector_String labels r)
    :: ((fun pod => Pods_Delete namespace (Pod_Name pod))
          <$> filter (fun pod => hasStashContainer pod = false) pods)
  /\ (kresult added = None <-> Forall (fun pod => hasStashContainer pod = true) pods)
  /\ kubeOpOf <$> kcalls removed
     = Pods_List namespace (Selector_String labels r)
       :: ((fun pod => Pods_Delete namespace (Pod_Name pod))
             <$> filter (fun pod => hasStashContainer pod = true) pods)
  /\ (kresult removed = None <-> Forall (fun pod => hasStashContainer pod = false) pods).
Proof.
  intros Hsel Hlist added removed. subst added removed.
  unfold kcalls, kresult, sidecarAddedAttempt, sidecarRemovedAttempt. rewrite Hsel.
  rewrite !kexec_bind. cbn [kexec kcall]. rewrite Hlist. cbn [kexec].
  split; [|split; [|split]].
  - destruct (bool_decide _) eqn:E.
    + apply bool_decide_eq_true_1, length_zero_iff_nil in E. rewrite E. reflexivity.
    + rewrite kexec_bind.
      pose proof (kexec_deletePods h namespace
                    (filter (fun pod => hasStashContainer pod = false) pods) w1) as Hd.
      destruct (kexec h (deletePods namespace _) w1) as [[u w2] cs].
      cbn [fst snd kexec mret KProg_ret] in *. rewrite app_nil_r.
      cbn [app fmap list_fmap]. f_equal. exact Hd.
  - destruct (bool_decide _) eqn:E.
    + apply bool_decide_eq_true_1 in E. simpl.
      split; [intros _; apply filter_none_length; exact E | reflexivity].
    + apply bool_decide_eq_false_1 in E. rewrite kexec_bind.
      destruct (kexec h (deletePods namespace _) w1) as [[u w2] cs]. simpl.
      split; [discriminate|]. intros H. apply filter_none_length in H. contradiction.
  - destruct (bool_decide _) eqn:E.
    + apply bool_decide_eq_true_1, length_zero_iff_nil in E. rewrite E. reflexivity.
    + rewrite kexec_bind.
      pose proof (kexec_deletePods h namespace
                    (filter (fun pod => hasStashContainer pod = true) pods) w1) as Hd.
      destruct (kexec h (deletePods namespace _) w1) as [[u w2] cs].
      cbn [fst snd kexec mret KProg_ret] in *. rewrite app_nil_r.
      cbn [app fmap list_fmap]. f_equal. exact Hd.
  - destruct (bool_decide _) eqn:E.
    + apply bool_decide_eq_true_1 in E. simpl.
      split; [intros _; apply filter_all_length; exact E | reflexivity].
    + apply bool_decide_eq_false_1 in E. rewrite kexec_bind.
      destruct (kexec h (deletePods namespace _) w1) as [[u w2] cs]. simpl.
      split; [discriminate|]. intros H. apply filter_all_length in H. contradiction.
Qed.

(** A retry that returns has ended with an attempt that returned nil, and
    it returns nil. *)
Lemma backoff_Retry_returns (fuel : nat) (interval : Z) (operation : KProg (option error))
    (w : W) (res : option error) :
  kresult (kexec h (backoff_Retry fuel interval operation) w) = Some res ->
  res = None
  /\ exists w' before,
       kresult (kexec h operation w') = None
       /\ kcalls (kexec h (backoff_Retry fuel interval operation) w)
          = before ++ kcalls (kexec h operation w').
Proof.
  unfold kresult, kcalls. revert w.
  induction fuel as [| fuel IH]; intros w; [discriminate|].
  cbn [backoff_Retry]. rewrite kexec_bind.
  destruct (kexec h operation w) as [[e w1] cs1] eqn:Eop.
  destruct e as [e |].
  - rewrite kexec_bind. cbn [kexec kcall].
    destruct (h (kube_Sleep interval) w1) as [[] w2]. cbn [kexec].
    specialize (IH w2).
    destruct (kexec h (backoff_Retry fuel interval operation) w2) as [[r w3] cs3].
    cbn [fst snd] in *. intros Hr. destruct (IH Hr) as (Hnil & w' & before & Hop & Hcs).
    split; [exact Hnil|]. exists w', (cs1 ++ KCalled (kube_Sleep interval) tt :: before).
    split; [exact Hop|]. rewrite Hcs, <- app_assoc. reflexivity.
  - cbn [kexec mret KProg_ret fst snd]. intros [= <-]. split; [reflexivity|].
    exists w, []. rewrite Eop. split; [reflexivity|]. rewrite app_nil_r. reflexivity.
Qed.

(** A retry of an operation that fails in every world never returns: it
    uses up any number of attempts. *)
Lemma backoff_Retry_never (fuel : nat) (interval : Z) (operation : KProg (option error))
    (err : error) (w : W) :
  (forall w', kexec h operation w' = (Some err, w', [])) ->
  kresult (kexec h (backoff_Retry fuel interval operation) w) = None
  /\ kubeOpOf <$> kcalls (kexec h (backoff_Retry fuel interval operation) w)
     = replicate fuel (kube_Sleep interval).
Proof.
  intros Hfail. unfold kresult, kcalls. revert w.
  induction fuel as [| fuel IH]; intros w; [split; reflexivity|].
  cbn [backoff_Retry]. rewrite kexec_bind, Hfail.
  rewrite kexec_bind. cbn [kexec kcall].
  destruct (h (kube_Sleep interval) w) as [[] w2]. cbn [kexec].
  specialize (IH w2).
  destruct (kexec h (backoff_Retry fuel interval operation) w2) as [[r w3] cs3].
  cbn [fst snd app fmap list_fmap replicate] in *.
  destruct IH as [-> ->]. split; reflexivity.
Qed.

(** A successful attempt is a list call that returned pods of which none
    had to be restarted. *)
Lemma sidecarAddedAttempt_nil (namespace : string) (selector : option LabelSelector)
    (w : W) :
  kresult (kexec h (sidecarAddedAttempt labels namespace selector) w) = None ->
  exists r pods,
    LabelSelectorAsSelector labels selector = inl r
    /\ kcalls (kexec h (sidecarAddedAttempt labels namespace selector) w)
       = [ KCalled (Pods_List namespace (Selector_String labels r)) (inl pods) ]
    /\ Forall (fun pod => hasStashContainer pod = true) pods.
Proof.
  unfold kresult, kcalls, sidecarAddedAttempt.
  destruct (LabelSelectorAsSelector labels selector) as [r | err]; [|discriminate].
  rewrite kexec_bind. cbn [kexec kcall].
  destruct (h (Pods_List _ _) w) as [[pods | err] w1]; cbn [kexec]; [|discriminate].
  destruct (bool_decide _) eqn:E.
  - apply bool_decide_eq_true_1, filter_none_length in E. intros _.
    exists r, pods. repeat split; assumption.
  - rewrite kexec_bind.
    destruct (kexec h (deletePods namespace _) w1) as [[u w2] cs]. discriminate.
Qed.

Lemma sidecarRemovedAttempt_nil (namespace : string) (selector : option LabelSelector)
    (w : W) :
  kresult (kexec h (sidecarRemovedAttempt labels namespace selector) w) = None ->
  exists r pods,
    LabelSelectorAsSelector labels selector = inl r
    /\ kcalls (kexec h (sidecarRemovedAttempt labels namespace selector) w)
       = [ KCalled (Pods_List namespace (Selector_String labels r)) (inl pods) ]
    /\ Forall (fun pod => hasStashContainer pod = false) pods.
Proof.
  unfold kresult, kcalls, sidecarRemovedAttempt.
  destruct (LabelSelectorAsSelector labels selector) as [r | err]; [|discriminate].
  rewrite kexec_bind. cbn [kexec kcall].
  destruct (h (Pods_List _ _) w) as [[pods | err] w1]; cbn [kexec]; [|discriminate].
  destruct (bool_decide _) eqn:E.
  - apply bool_decide_eq_true_1, filter_all_length in E. intros _.
    exists r, pods. repeat split; assumption.
  - rewrite kexec_bind.
    destruct (kexec h (deletePods namespace _) w1) as [[u w2] cs]. discriminate.
Qed.

(** X21: WaitUntilSidecarAdded and WaitUntilSidecarRemoved return nothing
    but nil.  When WaitUntilSidecarAdded returns, its last call is a list
    call whose pods all have a container named stash; when
    WaitUntilSidecarRemoved returns, its last call is a list call of which no
    pod has one. *)
Theorem WaitUntilSidecar_returns
    (fuel : nat) (namespace : string) (selector : option LabelSelector) (w : W)
    (res : option error) :
  (kresult (kexec h (WaitUntilSidecarAdded labels fuel namespace selector) w) = Some res ->
   res = None
   /\ exists r pods,
        LabelSelectorAsSelector labels selector = inl r
        /\ last (kcalls (kexec h (WaitUntilSidecarAdded labels fuel namespace selector) w))
           = Some (KCalled (Pods_List namespace (Selector_String labels r)) (inl pods))
        /\ Forall (fun pod => hasStashContainer pod = true) pods)
  /\ (kresult (kexec h (WaitUntilSidecarRemoved labels fuel namespace selector) w)
      = Some res ->
      res = None
      /\ exists r pods,
           LabelSelectorAsSelector labels selector = inl r
           /\ last (kcalls (kexec h (WaitUntilSidecarRemoved labels fuel namespace
                                       selector) w))
              = Some (KCalled (Pods_List namespace (Selector_String labels r)) (inl pods))
           /\ Forall (fun pod => hasStashContainer pod = false) pods).
Proof.
  unfold WaitUntilSidecarAdded, WaitUntilSidecarRemoved. split; intros Hres.
  - destruct (backoff_Retry_returns _ _ _ _ _ Hres) as (Hnil & w' & before & Hop & Hcs).
    split; [exact Hnil|].
    destruct (sidecarAddedAttempt_nil _ _ _ Hop) as (r & pods & Hsel & Hlast & Hall).
    exists r, pods. split; [exact Hsel|]. split; [|exact Hall].
    rewrite Hcs, Hlast. apply last_snoc.
  - destruct (backoff_Retry_returns _ _ _ _ _ Hres) as (Hnil & w' & before & Hop & Hcs).
    split; [exact Hnil|].
    destruct (sidecarRemovedAttempt_nil _ _ _ Hop) as (r & pods & Hsel & Hlast & Hall).
    exists r, pods. split; [exact Hsel|]. split; [|exact Hall].
    rewrite Hcs, Hlast. apply last_snoc.
Qed.

(** X22: with a label selector that does not convert, neither wait ever
    returns: every attempt fails before it lists any pod, and the retry goes
    on, three seconds apart, for as long as it is run. *)
Theorem WaitUntilSidecar_bad_selector
    (fuel : nat) (namespace : string) (selector : option LabelSelector) (w : W)
    (err : error) :
  LabelSelectorAsSelector labels selector = inr err ->
  (kresult (kexec h (WaitUntilSidecarAdded labels fuel namespace selector) w) = None
   /\ kubeOpOf <$> kcalls (kexec h (WaitUntilSidecarAdded labels fuel namespace selector) w)
      = replicate fuel (kube_Sleep 3))
  /\ (kresult (kexec h (WaitUntilSidecarRemoved labels fuel namespace selector) w) = None
      /\ kubeOpOf
           <$> kcalls (kexec h (WaitUntilSidecarRemoved labels fuel namespace selector) w)
         = replicate fuel (kube_Sleep 3)).
Proof.
  intros Hsel. unfold WaitUntilSidecarAdded, WaitUntilSidecarRemoved. split.
  - apply (backoff_Retry_never fuel 3 _ err).
    intros w'. unfold sidecarAddedAttempt. rewrite Hsel. reflexivity.
  - apply (backoff_Retry_never fuel 3 _ err).
    intros w'. unfold sidecarRemovedAttempt. rewrite Hsel. reflexivity.
Qed.
Ltac kunfold :=
  unfold mbind, mret, KProg_bind, KProg_ret, kcall in *; simpl in *.

Ltac kstep h :=
  match goal with
  | |- context [h ?o ?w] =>
      let r := fresh "r" in
      let w' := fresh "w" in
      destruct (h o w) as [r w']; simpl in *;
      repeat match goal with
             | u : unit |- _ => destruct u
             | e : option error |- _ => destruct e; simpl in *
             end
  end.

(** The calls of DeleteRecoveryJob, counted. *)
Lemma DeleteRecoveryJob_counts (rec : Recovery) (job : Job) (w : W) :
  let cs := kcalls (kexec h (DeleteRecoveryJob api labels Job_Selector rec job) w) in
  head (kubeOpOf <$> cs) = Some (Jobs_Delete (Job_Namespace job) (Job_Name job))
  /\ countKube isJobsDelete cs = 1%nat
  /\ countKube isPodsDeleteCollection cs
     = match LabelSelectorAsSelector labels (Job_Selector job) with
       | inl _ => 1%nat
       | inr _ => 0%nat
       end
  /\ (forall r, LabelSelectorAsSelector labels (Job_Selector job) = inl r ->
        Pods_DeleteCollection (Job_Namespace job) (Selector_String labels r)
        ∈ (kubeOpOf <$> cs))
  /\ countKube isKubeEvent cs
     = (countKubeCalls jobDeleteFailed cs + countKubeCalls podsDeleteFailed cs)%nat
  /\ countKube isJobsGet cs = 0%nat
  /\ countKube isSleep cs = 0%nat
  /\ countKube isPodsDelete cs = 0%nat.
Proof.
  intros cs. subst cs. unfold kcalls, DeleteRecoveryJob, countKube, countKubeCalls.
  kunfold.
  destruct (h (Jobs_Delete _ _) w) as [[e |] w1]; simpl;
    [destruct (IsNotFound e) eqn:Hnf; simpl|];
    (destruct (LabelSelectorAsSelector labels (Job_Selector job)) as [r | e2]; simpl);
    repeat kstep h; simpl; rewrite ?Hnf; simpl;
    repeat split; try reflexivity;
    try (intros r' H; discriminate H);
    try (intros r' [= <-]; rewrite !elem_of_cons; auto 10);
    rewrite ?filter_cons, ?filter_nil; simpl; rewrite ?Hnf; simpl; reflexivity.
Qed.

(** The events of DeleteRecoveryJob: warnings FailedToDelete on the
    Recovery, with the error of the deletion that failed. *)
Lemma DeleteRecoveryJob_events (rec : Recovery) (job : Job) (w : W) (c : KubeCall) :
  c ∈ kcalls (kexec h (DeleteRecoveryJob api labels Job_Selector rec job) w) ->
  isKubeEvent (kubeOpOf c) = true ->
  exists format err,
    kubeOpOf c = kube_Eventf (Recovery_ObjectReference api rec) EventTypeWarning
                   EventReasonFailedToDelete format [Error err]
    /\ (format = "Failed to delete Job. Reason: %v"
        \/ format = "Failed to delete Pods. Reason: %v").
Proof.
  unfold kcalls, DeleteRecoveryJob. kunfold.
  destruct (h (Jobs_Delete _ _) w) as [[e |] w1]; simpl;
    [destruct (IsNotFound e) eqn:Hnf; simpl|];
    (destruct (LabelSelectorAsSelector labels (Job_Selector job)) as [r | e2]; simpl);
    repeat kstep h; simpl;
    rewrite ?elem_of_cons, ?elem_of_nil; intros Hin Hev;
    repeat match goal with
           | H : _ \/ _ |- _ => destruct H as [H | H]
           | H : False |- _ => destruct H
           end;
    subst c; simpl in Hev; try discriminate Hev; simpl; eauto.
Qed.

(** X23: DeleteRecoveryJob asks once for the job to be deleted, first, and
    then, whenever the selector of the job converts, once for the pods of
    the job to be deleted, also when the job could not be deleted.  It
    records one event for each of the two deletions that failed, except
    that a job that is not found is no failure; every event it records is a
    warning FailedToDelete on the Recovery. *)
Theorem DeleteRecoveryJob_cleans_up (rec : Recovery) (job : Job) (w : W) :
  let cs := kcalls (kexec h (DeleteRecoveryJob api labels Job_Selector rec job) w) in
  head (kubeOpOf <$> cs) = Some (Jobs_Delete (Job_Namespace job) (Job_Name job))
  /\ countKube isJobsDelete cs = 1%nat
  /\ countKube isPodsDeleteCollection cs
     = match LabelSelectorAsSelector labels (Job_Selector job) with
       | inl _ => 1%nat
       | inr _ => 0%nat
       end
  /\ (forall r, LabelSelectorAsSelector labels (Job_Selector job) = inl r ->
        Pods_DeleteCollection (Job_Namespace job) (Selector_String labels r)
        ∈ (kubeOpOf <$> cs))
  /\ countKube isKubeEvent cs
     = (countKubeCalls jobDeleteFailed cs + countKubeCalls podsDeleteFailed cs)%nat
  /\ (forall c, c ∈ cs -> isKubeEvent (kubeOpOf c) = true ->
        exists format err,
          kubeOpOf c = kube_Eventf (Recovery_ObjectReference api rec) EventTypeWarning
                         EventReasonFailedToDelete format [Error err]
          /\ (format = "Failed to delete Job. Reason: %v"
              \/ format = "Failed to delete Pods. Reason: %v")).
Proof.
  intros cs. subst cs.
  destruct (DeleteRecoveryJob_counts rec job w) as (H1 & H2 & H3 & H4 & H5 & _).
  repeat split; auto.
  intros c. apply DeleteRecoveryJob_events.
Qed.

Lemma countKube_app (P : KubeOp -> bool) (xs ys : list KubeCall) :
  countKube P (xs ++ ys) = (countKube P xs + countKube P ys)%nat.
Proof. unfold countKube. rewrite filter_app, length_app. reflexivity. Qed.

Lemma countKubeCalls_app (P : KubeCall -> bool) (xs ys : list KubeCall) :
  countKubeCalls P (xs ++ ys) = (countKubeCalls P xs + countKubeCalls P ys)%nat.
Proof. unfold countKubeCalls. rewrite filter_app, length_app. reflexivity. Qed.

(** The polls of CheckRecoveryJob: a pause and a Get each; all but the last
    show the job without success, and the wait goes on exactly as long as
    they do. *)
Lemma poll_jobSucceeded (fuel : nat) (job : Job) (w : W) :
  let x := kexec h (wait_PollInfinite fuel 180 (jobSucceeded job)) w in
  countKube isSleep (kcalls x) = countKube isJobsGet (kcalls x)
  /\ countKube isJobsDelete (kcalls x) = 0%nat
  /\ countKube isPodsDeleteCollection (kcalls x) = 0%nat
  /\ match kresult x with
     | None =>
         countKube isJobsGet (kcalls x) = fuel
         /\ countKubeCalls jobPending (kcalls x) = fuel
     | Some _ =>
         (1 <= countKube isJobsGet (kcalls x) <= fuel)%nat
         /\ countKubeCalls jobPending (kcalls x)
            = Nat.pred (countKube isJobsGet (kcalls x))
         /\ exists before decisive,
              kcalls x = before ++ [decisive]
              /\ isJobsGet (kubeOpOf decisive) = true
              /\ jobPending decisive = false
     end.
Proof.
  unfold kresult, kcalls. revert w.
  induction fuel as [| fuel IH]; intros w.
  { unfold countKube, countKubeCalls. simpl. auto. }
  cbn [wait_PollInfinite]. unfold jobSucceeded. kunfold.
  destruct (h (kube_Sleep 180) w) as [[] w1]. simpl.
  destruct (h (Jobs_Get _ _) w1) as [[n | err] w2]; simpl.
  - destruct (bool_decide (0 < n)) eqn:Hn; simpl.
    + unfold countKube, countKubeCalls. simpl.
      rewrite !filter_cons, filter_nil. simpl. rewrite Hn. simpl.
      repeat split; try lia.
      exists [KCalled (kube_Sleep 180) tt], (KCalled (Jobs_Get (Job_Namespace job) (Job_Name job)) (inl n)).
      simpl. rewrite Hn. auto.
    + specialize (IH w2). fold (jobSucceeded job) in *.
      unfold mbind, mret, KProg_bind, KProg_ret, kcall, jobSucceeded in IH.
      destruct (kexec h _ w2) as [[res w3] cs]. simpl in *.
      destruct IH as (Hs & Hd & Hp & Hres).
      change (KCalled (kube_Sleep 180) tt :: KCalled (Jobs_Get (Job_Namespace job)
                (Job_Name job)) (inl n) :: cs)
        with ([KCalled (kube_Sleep 180) tt;
               KCalled (Jobs_Get (Job_Namespace job) (Job_Name job)) (inl n)] ++ cs).
      rewrite !countKube_app, !countKubeCalls_app.
      assert (Hp2 : countKubeCalls jobPending
                      [KCalled (kube_Sleep 180) tt;
                       KCalled (Jobs_Get (Job_Namespace job) (Job_Name job)) (inl n)]
                    = 1%nat).
      { unfold countKubeCalls. rewrite !filter_cons, filter_nil. simpl.
        rewrite Hn. reflexivity. }
      rewrite Hp2, Hs, Hd, Hp.
      change (countKube isSleep _) with 1%nat at 1.
      change (countKube isJobsGet [_; _]) with 1%nat.
      change (countKube isJobsDelete [_; _]) with 0%nat.
      change (countKube isPodsDeleteCollection [_; _]) with 0%nat.
      split; [lia|]. split; [lia|]. split; [lia|].
      destruct res as [res |].
      * destruct Hres as (Hb & Hpend & before & decisive & Hcs & Hget & Hdec).
        split; [lia|]. split; [unfold countKube in *; lia|].
        exists ([KCalled (kube_Sleep 180) tt;
                 KCalled (Jobs_Get (Job_Namespace job) (Job_Name job)) (inl n)]
                ++ before), decisive.
        rewrite Hcs, <- app_assoc. auto.
      * destruct Hres as (Hg & Hpend). unfold countKube in *. split; lia.
  - unfold countKube, countKubeCalls. simpl.
    repeat split; try lia.
    exists [KCalled (kube_Sleep 180) tt], (KCalled (Jobs_Get (Job_Namespace job) (Job_Name job)) (inr err)). auto.
Qed.

(** The polls in order: a pause of three minutes, then the Get, as often as
    the wait goes on; the answer that ends it is the last. *)
Lemma poll_jobSucceeded_order (fuel : nat) (job : Job) (w : W) :
  let x := kexec h (wait_PollInfinite fuel 180 (jobSucceeded job)) w in
  exists n,
    kubeOpOf <$> kcalls x
    = mjoin (replicate n [kube_Sleep 180; Jobs_Get (Job_Namespace job) (Job_Name job)])
    /\ (n <= fuel)%nat
    /\ match kresult x with
       | None => n = fuel /\ Forall pendingIfGet (kcalls x)
       | Some res =>
           (1 <= n)%nat
           /\ exists before decisive,
                kcalls x = before ++ [decisive]
                /\ Forall pendingIfGet before
                /\ isJobsGet (kubeOpOf decisive) = true
                /\ jobPending decisive = false
                /\ res = pollError decisive
       end.
Proof.
  unfold kresult, kcalls. revert w.
  induction fuel as [| fuel IH]; intros w.
  { exists 0%nat. simpl. repeat split; auto. }
  cbn [wait_PollInfinite]. unfold jobSucceeded. kunfold.
  destruct (h (kube_Sleep 180) w) as [[] w1]. simpl.
  assert (Hsleep : pendingIfGet (KCalled (kube_Sleep 180) tt)).
  { intros H. discriminate H. }
  destruct (h (Jobs_Get _ _) w1) as [[n | err] w2]; simpl.
  - destruct (bool_decide (0 < n)) eqn:Hn; simpl.
    + exists 1%nat. split; [reflexivity|]. split; [lia|]. split; [lia|].
      exists [KCalled (kube_Sleep 180) tt],
             (KCalled (Jobs_Get (Job_Namespace job) (Job_Name job)) (inl n)).
      simpl. rewrite Hn. repeat split; auto.
    + specialize (IH w2). fold (jobSucceeded job) in *.
      unfold mbind, mret, KProg_bind, KProg_ret, kcall, jobSucceeded in IH.
      destruct (kexec h _ w2) as [[res w3] cs]. simpl in *.
      destruct IH as (m & Hops & Hle & Hres).
      assert (Hget : pendingIfGet
                       (KCalled (Jobs_Get (Job_Namespace job) (Job_Name job)) (inl n))).
      { intros _. simpl. rewrite Hn. reflexivity. }
      exists (S m).
      split; [change (list_fmap KubeCall KubeOp kubeOpOf cs) with (kubeOpOf <$> cs);
              rewrite Hops; reflexivity|].
      split; [lia|].
      destruct res as [res |].
      * destruct Hres as (Hm & before & decisive & Hcs & Hbefore & Hdget & Hdec & Hr).
        split; [lia|].
        exists (KCalled (kube_Sleep 180) tt
                :: KCalled (Jobs_Get (Job_Namespace job) (Job_Name job)) (inl n)
                :: before), decisive.
        rewrite Hcs. repeat split; auto.
      * destruct Hres as [-> Hall]. split; [reflexivity|]. auto.
  - exists 1%nat. split; [reflexivity|]. split; [lia|]. split; [lia|].
    exists [KCalled (kube_Sleep 180) tt],
           (KCalled (Jobs_Get (Job_Namespace job) (Job_Name job)) (inr err)).
    simpl. repeat split; auto.
Qed.

(** What follows the wait: the error of the last poll, if it was one, is
    logged, and DeleteRecoveryJob runs. *)
Lemma CheckRecoveryJob_cleanup (rec : Recovery) (job : Job) (res : option error) (w1 : W) :
  exists w2 w3 logs,
    kexec h ((match res with
              | Some err => kcall (kube_Errorln err)
              | None => mret tt
              end);; DeleteRecoveryJob api labels Job_Selector rec job;;
             mret (Some tt)) w1
    = (Some tt, w3,
       logs ++ kcalls (kexec h (DeleteRecoveryJob api labels Job_Selector rec job) w2))
    /\ kubeOpOf <$> logs
       = match res with
         | Some err => [kube_Errorln err]
         | None => []
         end.
Proof.
  rewrite kexec_bind. destruct res as [err |].
  - cbn [kexec kcall]. destruct (h (kube_Errorln err) w1) as [[] w2]. cbn [kexec].
    rewrite kexec_bind. unfold kcalls.
    destruct (kexec h (DeleteRecoveryJob _ _ _ _ _) w2) as [[u w3] cs] eqn:E.
    exists w2, w3, [KCalled (kube_Errorln err) tt]. rewrite E. simpl.
    rewrite app_nil_r. split; reflexivity.
  - cbn [kexec mret KProg_ret]. rewrite kexec_bind. unfold kcalls.
    destruct (kexec h (DeleteRecoveryJob _ _ _ _ _) w1) as [[u w3] cs] eqn:E.
    exists w1, w3, []. rewrite E. simpl. rewrite app_nil_r.
    split; reflexivity.
Qed.

Lemma countKube_ops (P : KubeOp -> bool) (xs ys : list KubeCall) :
  kubeOpOf <$> xs = kubeOpOf <$> ys -> countKube P xs = countKube P ys.
Proof.
  unfold countKube. revert ys.
  induction xs as [| x xs IH]; intros [| y ys]; try discriminate; [reflexivity|].
  cbn [fmap list_fmap]. intros [= Hxy Hrest]. rewrite !filter_cons, Hxy.
  destruct (decide _); simpl; rewrite (IH ys Hrest); reflexivity.
Qed.

Lemma countKube_polls (P : KubeOp -> bool) (job : Job) (n : nat) (polls : list KubeCall) :
  kubeOpOf <$> polls
  = mjoin (replicate n [kube_Sleep 180; Jobs_Get (Job_Namespace job) (Job_Name job)]) ->
  countKube P polls
  = (n * ((if P (kube_Sleep 180) then 1 else 0)
          + (if P (Jobs_Get (Job_Namespace job) (Job_Name job)) then 1 else 0)))%nat.
Proof.
  revert polls. induction n as [| n IH]; intros polls.
  - simpl. destruct polls; [reflexivity | discriminate].
  - destruct polls as [| c1 [| c2 polls]]; try discriminate.
    cbn [fmap list_fmap replicate mjoin list_join app]. intros [= H1 H2 Hrest].
    change (c1 :: c2 :: polls) with ([c1; c2] ++ polls).
    rewrite countKube_app, (IH polls Hrest).
    unfold countKube. rewrite !filter_cons, filter_nil, H1, H2.
    destruct (P (kube_Sleep 180)), (P (Jobs_Get _ _)); simpl; lia.
Qed.

Lemma countKubeCalls_pending (cs : list KubeCall) :
  Forall pendingIfGet cs -> countKubeCalls jobPending cs = countKube isJobsGet cs.
Proof.
  unfold countKubeCalls, countKube. induction 1 as [| c cs Hc _ IH]; [reflexivity|].
  rewrite !filter_cons. unfold pendingIfGet in Hc.
  destruct (isJobsGet (kubeOpOf c)) eqn:Hg.
  - rewrite (Hc eq_refl). simpl. rewrite IH. reflexivity.
  - assert (Hp : jobPending c = false).
    { destruct c as [[] r]; simpl in *; try reflexivity; discriminate. }
    rewrite Hp. simpl. exact IH.
Qed.

(** X24: CheckRecoveryJob polls in rounds of a pause of three minutes
    followed by one Get of the job, and nothing else happens in between.
    As long as every answer shows the job without a success it keeps
    polling and deletes nothing.  It stops at the first answer that shows a
    success or is an error, the job being gone for instance; it then logs
    that error, if there was one, and runs DeleteRecoveryJob: the job is
    asked to be deleted exactly once, after the last poll, and no Get and no
    pause follows. *)
Theorem CheckRecoveryJob_deletes_once (fuel : nat) (rec : Recovery) (job : Job) (w : W) :
  let x := kexec h (CheckRecoveryJob api labels Job_Selector fuel rec job) w in
  let poll := [kube_Sleep 180; Jobs_Get (Job_Namespace job) (Job_Name job)] in
  exists (n : nat) (polls cleanup : list KubeCall),
    kcalls x = polls ++ cleanup
    /\ kubeOpOf <$> polls = mjoin (replicate n poll)
    /\ (n <= fuel)%nat
    /\ countKube isJobsGet (kcalls x) = n
    /\ countKube isSleep (kcalls x) = n
    /\ match kresult x with
       | None =>
           n = fuel
           /\ cleanup = []
           /\ Forall pendingIfGet polls
           /\ countKubeCalls jobPending (kcalls x) = fuel
           /\ countKube isJobsDelete (kcalls x) = 0%nat
           /\ countKube isPodsDeleteCollection (kcalls x) = 0%nat
       | Some _ =>
           (1 <= n)%nat
           /\ countKubeCalls jobPending (kcalls x) = Nat.pred n
           /\ countKube isJobsDelete (kcalls x) = 1%nat
           /\ exists before decisive w1,
                polls = before ++ [decisive]
                /\ Forall pendingIfGet before
                /\ isJobsGet (kubeOpOf decisive) = true
                /\ jobPending decisive = false
                /\ kubeOpOf <$> cleanup
                   = match pollError decisive with
                     | Some err => [kube_Errorln err]
                     | None => []
                     end
                     ++ (kubeOpOf
                           <$> kcalls (kexec h (DeleteRecoveryJob api labels Job_Selector
                                                  rec job) w1))
                /\ countKube isJobsDelete polls = 0%nat
                /\ countKube isJobsGet cleanup = 0%nat
                /\ countKube isSleep cleanup = 0%nat
                /\ countKube isJobsDelete cleanup = 1%nat
       end.
Proof.
  intros x poll. subst x poll. unfold CheckRecoveryJob, kresult, kcalls.
  rewrite kexec_bind.
  pose proof (poll_jobSucceeded_order fuel job w) as Hord.
  unfold kresult, kcalls in Hord.
  destruct (kexec h (wait_PollInfinite fuel 180 (jobSucceeded job)) w)
    as [[res w1] polls]. cbn [fst snd] in Hord.
  destruct Hord as (n & Hops & Hle & Hres).
  pose proof (countKube_polls isJobsGet job n polls Hops) as Hgets.
  pose proof (countKube_polls isSleep job n polls Hops) as Hsleeps.
  pose proof (countKube_polls isJobsDelete job n polls Hops) as Hdels.
  pose proof (countKube_polls isPodsDeleteCollection job n polls Hops) as Hcols.
  cbn [isJobsGet isSleep isJobsDelete isPodsDeleteCollection] in Hgets, Hsleeps, Hdels, Hcols.
  destruct res as [res |].
  - destruct Hres as (Hn & before & decisive & Hcs & Hbefore & Hdget & Hdec & Hr).
    destruct (CheckRecoveryJob_cleanup rec job res w1) as (w2 & w3 & logs & -> & Hlogs).
    destruct (DeleteRecoveryJob_counts rec job w2)
      as (_ & Hdel & _ & _ & _ & Hnoget & Hnosleep & _).
    set (cleanup := kcalls (kexec h (DeleteRecoveryJob api labels Job_Selector rec job) w2))
      in *.
    assert (Hl : forall P, (forall err, P (kube_Errorln err) = false) ->
                           countKube P logs = 0%nat).
    { intros P HP. destruct res as [err |].
      - destruct logs as [| c [| c2 logs]]; try discriminate.
        injection Hlogs as Hc. unfold countKube. rewrite filter_cons, filter_nil, Hc, HP.
        reflexivity.
      - destruct logs; [reflexivity | discriminate]. }
    assert (Hlp : countKubeCalls jobPending logs = 0%nat).
    { destruct res as [err |].
      - destruct logs as [| c [| c2 logs]]; try discriminate.
        injection Hlogs as Hc. unfold countKubeCalls. rewrite filter_cons, filter_nil.
        destruct c as [[] r]; simpl in *; try discriminate; reflexivity.
      - destruct logs; [reflexivity | discriminate]. }
    assert (Hcp : countKubeCalls jobPending cleanup = 0%nat).
    { assert (Hsub : forall cs, countKube isJobsGet cs = 0%nat ->
                                countKubeCalls jobPending cs = 0%nat).
      { unfold countKube, countKubeCalls.
        induction cs as [| c cs IHc]; [reflexivity|]. rewrite !filter_cons.
        destruct c as [[] r]; simpl; try exact IHc. discriminate. }
      apply Hsub. exact Hnoget. }
    assert (Hpp : countKubeCalls jobPending polls = Nat.pred n).
    { rewrite Hcs, countKubeCalls_app, (countKubeCalls_pending before Hbefore).
      rewrite Hcs, countKube_app in Hgets.
      unfold countKubeCalls, countKube in *. rewrite !filter_cons, !filter_nil in *.
      rewrite Hdec. rewrite Hdget in Hgets. simpl in *. lia. }
    exists n, polls, (logs ++ cleanup). cbn [fst snd].
    rewrite !countKube_app, !countKubeCalls_app.
    rewrite (Hl isSleep), (Hl isJobsGet), (Hl isJobsDelete), Hlp, Hcp by reflexivity.
    rewrite Hnosleep, Hnoget, Hdel, Hgets, Hsleeps, Hdels, Hpp.
    split; [reflexivity|]. split; [exact Hops|]. split; [exact Hle|].
    split; [lia|]. split; [lia|]. split; [exact Hn|]. split; [lia|]. split; [lia|].
    exists before, decisive, w2.
    split; [exact Hcs|]. split; [exact Hbefore|]. split; [exact Hdget|].
    split; [exact Hdec|].
    split; [rewrite fmap_app, Hlogs, Hr; reflexivity|].
    repeat split; lia.
  - cbn [kexec mret KProg_ret fst snd]. rewrite app_nil_r.
    destruct Hres as [-> Hall].
    exists fuel, polls, []. rewrite app_nil_r.
    rewrite (countKubeCalls_pending polls Hall), Hgets, Hsleeps, Hdels, Hcols.
    repeat split; auto; lia.
Qed.
End WaitingProperties.

Lemma sidecar_attempts_witness :
  let pods := store_pods examplePodStore in
  let added := kexec fakeKube (sidecarAddedAttempt exampleLabels "default"
                                 (Some exampleSelector)) examplePodStore in
  let removed := kexec fakeKube (sidecarRemovedAttempt exampleLabels "default"
                                   (Some exampleSelector)) examplePodStore in
  kubeOpOf <$> kcalls added
  = Pods_List "default" (Selector_String exampleLabels ({[ "app" := "db" ]} : gmap string string))
    :: ((fun pod => Pods_Delete "default" (Pod_Name pod))
          <$> filter (fun pod => hasStashContainer pod = false) pods)
  /\ (kresult added = None <-> Forall (fun pod => hasStashContainer pod = true) pods)
  /\ kubeOpOf <$> kcalls removed
     = Pods_List "default" (Selector_String exampleLabels ({[ "app" := "db" ]} : gmap string string))
       :: ((fun pod => Pods_Delete "default" (Pod_Name pod))
             <$> filter (fun pod => hasStashContainer pod = true) pods)
  /\ (kresult removed = None <-> Forall (fun pod => hasStashContainer pod = false) pods).
Proof.
  apply (sidecar_attempts exampleLabels fakeKube "default" (Some exampleSelector)
           ({[ "app" := "db" ]} : gmap string string)
           (store_pods examplePodStore) examplePodStore examplePodStore).
  - reflexivity.
  - vm_compute. reflexivity.
Defined.

Lemma WaitUntilSidecar_returns_witness :
  (None : option error) = None
  /\ exists r pods,
       LabelSelectorAsSelector exampleLabels (Some exampleSelector) = inl r
       /\ last (kcalls (kexec fakeKube (WaitUntilSidecarAdded exampleLabels 5 "default"
                                          (Some exampleSelector)) examplePodStore))
          = Some (KCalled (Pods_List "default" (Selector_String exampleLabels r))
                    (inl pods))
       /\ Forall (fun pod => hasStashContainer pod = true) pods.
Proof.
  apply (proj1 (WaitUntilSidecar_returns exampleLabels fakeKube 5 "default"
                  (Some exampleSelector) examplePodStore None)).
  vm_compute. reflexivity.
Defined.

Lemma WaitUntilSidecar_bad_selector_witness :
  (kresult (kexec fakeKube (WaitUntilSidecarAdded exampleLabels 4 "default"
                              (Some exampleBadSelector)) examplePodStore) = None
   /\ kubeOpOf <$> kcalls (kexec fakeKube (WaitUntilSidecarAdded exampleLabels 4 "default"
                                             (Some exampleBadSelector)) examplePodStore)
      = replicate 4 (kube_Sleep 3))
  /\ (kresult (kexec fakeKube (WaitUntilSidecarRemoved exampleLabels 4 "default"
                                 (Some exampleBadSelector)) examplePodStore) = None
      /\ kubeOpOf
           <$> kcalls (kexec fakeKube (WaitUntilSidecarRemoved exampleLabels 4 "default"
                                         (Some exampleBadSelector)) examplePodStore)
         = replicate 4 (kube_Sleep 3)).
Proof.
  apply (WaitUntilSidecar_bad_selector exampleLabels fakeKube 4 "default"
           (Some exampleBadSelector) examplePodStore (errors_New "invalid label value")).
  reflexivity.
Defined.

(** On the example store the first attempt restarts the pod without the
    sidecar and the second one finds every pod with it. *)
Example WaitUntilSidecarAdded_run :
  let x := kexec fakeKube (WaitUntilSidecarAdded exampleLabels 5 "default"
                             (Some exampleSelector)) examplePodStore in
  kresult x = Some None
  /\ kubeOpOf <$> kcalls x
     = [ Pods_List "default" "app=db"; Pods_Delete "default" "db-0"; kube_Sleep 3;
         Pods_List "default" "app=db" ]
  /\ Pod_Name <$> store_pods (kworld x) = [ "db-0-new"; "db-1" ].
Proof. vm_compute. repeat split; reflexivity. Qed.

(** On the example store the job shows a success at the third poll; with two
    polls only the wait is still going on and nothing is deleted. *)
Example CheckRecoveryJob_run :
  let job := CreateRecoveryJob exampleApi exampleRecovery exampleRestic "canary" in
  let run fuel :=
    kexec fakeKube (CheckRecoveryJob exampleApi exampleLabels
                      (fun _ => Some exampleSelector) fuel exampleRecovery job)
      examplePodStore in
  kresult (run 5%nat) = Some tt
  /\ kubeOpOf <$> kcalls (run 5%nat)
     = [ kube_Sleep 180; Jobs_Get "default" "stash-restore";
         kube_Sleep 180; Jobs_Get "default" "stash-restore";
         kube_Sleep 180; Jobs_Get "default" "stash-restore";
         Jobs_Delete "default" "stash-restore";
         Pods_DeleteCollection "default" "app=db" ]
  /\ kresult (run 2%nat) = None
  /\ kubeOpOf <$> kcalls (run 2%nat)
     = [ kube_Sleep 180; Jobs_Get "default" "stash-restore";
         kube_Sleep 180; Jobs_Get "default" "stash-restore" ].
Proof. vm_compute. repeat split; reflexivity. Qed.
